(** * Fractal tree generator: the branch-generation engine

    A shallow embedding of the engine part of [fractal_tree.py] (class
    [FractalTree]): planting the trunk, growing one generation of branches,
    growing to the maximum depth, resetting, and the colour and thickness
    rules.  The Tk user interface (canvas drawing, dialogs, image export) is
    left out; the two information boxes of [grow_one_level] are kept as the
    value the call returns.  Of the interface, the development also covers
    the click handler, the [create_line] call of [draw_branch], the lines
    that [save_tree] draws for a branch, and [randomize_colors].

    Numbers.  Python's [int] is [Z].  A [float] is the rational it holds
    ([Qc], rationals in lowest terms); [nan], infinities and signed zeros
    do not exist.  The engine evaluates every formula without rounding.
    The colour rule truncates a float to an integer, so there the rounding
    shows: it is given a second time with every operation rounded to the
    nearest double ([binary64], [Rounded.get_branch_color]), and it is this
    one that is compared with the specification.  [math.radians],
    [math.cos] and [math.sin] are parameters of the development, and so is
    the sequence of samples that [random.random()] returns. *)

From Stdlib Require Import ZArith QArith Qcanon Qround String Ascii List Lia.
From stdpp Require Import base list numbers strings.
From Corelib Require PrimFloat FloatOps SpecFloat Uint63Axioms.

Local Open Scope Z_scope.

(** ** Python values and built-ins *)

Inductive exn : Set := IndexError | ValueError | ZeroDivisionError.

Inductive result (A : Type) : Type :=
| Ok (a : A)
| Raise (e : exn).
Arguments Ok {A} a.
Arguments Raise {A} e.

Definition rbind {A B} (r : result A) (k : A -> result B) : result B :=
  match r with
  | Ok a => k a
  | Raise e => Raise e
  end.

Notation "'let?' x ':=' r 'in' k" := (rbind r (fun x => k))
  (at level 10, x pattern, r at level 200, k at level 200).

(** A float literal [n/d]. *)
Definition qc (n : Z) (d : positive) : Qc := Q2Qc (n # d).

(** [int(x)] on a float: truncation toward zero. *)
Definition py_int (x : Qc) : Z := Z.quot (Qnum x) (Zpos (Qden x)).

(** [max(a, b)]: the first argument unless the second is strictly larger. *)
Definition py_max (a b : Qc) : Qc := if decide (a < b)%Qc then b else a.

(** [min(a, b)] on integers: the first argument unless the second is
    strictly smaller. *)
Definition py_min (a b : Z) : Z := if decide (b < a) then b else a.

(** [b ** e] for an integer exponent [e]. *)
Definition py_pow (b : Qc) (e : Z) : result Qc :=
  if decide (0 <= e) then Ok (b ^ Z.to_nat e)%Qc
  else if decide (b = 0%Qc) then Raise ZeroDivisionError
  else Ok (/ (b ^ Z.to_nat (- e)))%Qc.

(** [a / b] on two integers (true division). *)
Definition py_truediv (a b : Z) : result Qc :=
  if decide (b = 0) then Raise ZeroDivisionError
  else Ok (Qc_of_Z a / Qc_of_Z b)%Qc.

(** [l[i]] with Python's negative indices. *)
Definition py_getitem {A} (l : list A) (i : Z) : result A :=
  let n := Z.of_nat (length l) in
  let j := if decide (i < 0) then i + n else i in
  if decide (0 <= j) then
    match l !! Z.to_nat j with
    | Some a => Ok a
    | None => Raise IndexError
    end
  else Raise IndexError.

(** [s[i:j]] for [0 <= i <= j]. *)
Definition py_slice (s : string) (i j : nat) : string :=
  String.substring i (j - i) s.

(** One hexadecimal digit, either case. *)
Definition hex_digit (a : ascii) : option Z :=
  let n := Z.of_N (N_of_ascii a) in
  if (48 <=? n) && (n <=? 57) then Some (n - 48)
  else if (97 <=? n) && (n <=? 102) then Some (n - 87)
  else if (65 <=? n) && (n <=? 70) then Some (n - 55)
  else None.

Fixpoint int16_digits (s : string) (acc : Z) : option Z :=
  match s with
  | EmptyString => Some acc
  | String a s' =>
      match hex_digit a with
      | Some d => int16_digits s' (acc * 16 + d)
      | None => None
      end
  end.

(** [int(s, 16)] on a string of hexadecimal digits.  Python also accepts
    surrounding white space, a sign, a [0x] prefix and single underscores
    between digits; those spellings raise [ValueError] here. *)
Definition int16 (s : string) : result Z :=
  match s with
  | EmptyString => Raise ValueError
  | _ => match int16_digits s 0 with
         | Some v => Ok v
         | None => Raise ValueError
         end
  end.

Definition hex_char (d : Z) : ascii :=
  ascii_of_N (Z.to_N (if d <? 10 then 48 + d else 87 + d)).

Fixpoint hex_digits (fuel : nat) (n : Z) (acc : string) : string :=
  match fuel with
  | O => acc
  | S fuel' =>
      let acc' := String (hex_char (n mod 16)) acc in
      if n <? 16 then acc' else hex_digits fuel' (n / 16) acc'
  end.

(** [format(n, 'x')] for [0 <= n]. *)
Definition format_x (n : Z) : string :=
  hex_digits (S (Z.to_nat (Z.log2 n))) n EmptyString.

(** [format(n, '02x')]: lower-case hexadecimal, zero-padded to width 2; a
    negative number carries its sign, which counts in the width. *)
Definition format_02x (n : Z) : string :=
  if n <? 0 then String "-" (format_x (- n))
  else
    let s := format_x n in
    if (String.length s <? 2)%nat then String "0" s else s.

(** ** Data model *)

(** The entries of [self.params] that the engine reads.  [max_depth] is an
    integer (8 by default; the settings slider moves it in steps of 1);
    lengths, angles and factors may be integers or floats and are all read
    as rationals. *)
Record Params : Type := {
  trunk_color : string;
  leaf_colors : list string;
  base_length : Qc;
  angle_variation : Qc;
  length_factor : Qc;
  max_depth : Z;
  trunk_thickness : Qc;
  thickness_factor : Qc;
  randomness : Qc;
  upward_angle : bool
}.

(** A branch: the dictionary built by [plant_trunk] and [grow_one_level]. *)
Module Branch.
Record t : Type := {
  id : Z;
  parent_id : option Z;
  start : Qc * Qc;
  end_ : Qc * Qc;
  depth : Z;
  length : Qc;
  angle : Qc;
  thickness : Qc;
  color : string
}.
End Branch.

(** The state variables of a [FractalTree] object, and beside them the
    number of samples already taken from the random source. *)
Record FractalTree : Type := {
  params : Params;
  click_count : Z;
  current_depth : Z;
  branches : list Branch.t;
  next_id : Z;
  tree_center : Qc * Qc;
  random_state : nat
}.

(** ** Colour and thickness *)

(** The three colour channels [int(c[1:3], 16)], [int(c[3:5], 16)],
    [int(c[5:7], 16)]. *)
Definition channels (c : string) : result (Z * Z * Z) :=
  let? r := int16 (py_slice c 1 3) in
  let? g := int16 (py_slice c 3 5) in
  let? b := int16 (py_slice c 5 7) in
  Ok (r, g, b).

Definition hex_string (r g b : Z) : string :=
  String "#" (format_02x r ++ format_02x g ++ format_02x b)%string.

Definition interpolate_color (color1 color2 : string) (factor : Qc)
  : result string :=
  let? (r1, g1, b1) := channels color1 in
  let? (r2, g2, b2) := channels color2 in
  let r := py_int (Qc_of_Z r1 + Qc_of_Z (r2 - r1) * factor)%Qc in
  let g := py_int (Qc_of_Z g1 + Qc_of_Z (g2 - g1) * factor)%Qc in
  let b := py_int (Qc_of_Z b1 + Qc_of_Z (b2 - b1) * factor)%Qc in
  Ok (hex_string r g b).

Definition get_branch_color (p : Params) (depth : Z) : result string :=
  if decide (depth = 0) then Ok (trunk_color p)
  else if decide (max_depth p <= depth) then py_getitem (leaf_colors p) (-1)
  else
    let? progress := py_truediv depth (max_depth p) in
    let last := Z.of_nat (length (leaf_colors p)) - 1 in
    let color_index := (progress * Qc_of_Z last)%Qc in
    let idx1 := py_int color_index in
    let idx2 := py_min (idx1 + 1) last in
    let factor := (color_index - Qc_of_Z idx1)%Qc in
    let? color1 := py_getitem (leaf_colors p) idx1 in
    let? color2 := py_getitem (leaf_colors p) idx2 in
    interpolate_color color1 color2 factor.

Definition calculate_thickness (p : Params) (depth : Z) : result Qc :=
  let base := trunk_thickness p in
  let factor := thickness_factor p in
  let? pw := py_pow factor depth in
  Ok (py_max 1%Qc (base * pw)%Qc).

Definition default_params : Params := {|
  trunk_color := "#7c2d12";
  leaf_colors := ["#166534"; "#22c55e"; "#f59e0b"]%string;
  base_length := Qc_of_Z 180;
  angle_variation := Qc_of_Z 35;
  length_factor := qc 65 100;
  max_depth := 8;
  trunk_thickness := Qc_of_Z 20;
  thickness_factor := qc 75 100;
  randomness := qc 1 10;
  upward_angle := true
|}.

(** ** The engine: state and exceptions

    A method is a function from the object's state to an outcome: it returns
    a value, or raises, and in both cases leaves a state behind. *)

Inductive outcome (A : Type) : Type :=
| Returned (a : A) (st : FractalTree)
| Raised (e : exn) (st : FractalTree).
Arguments Returned {A} a st.
Arguments Raised {A} e st.

Definition state_of {A} (o : outcome A) : FractalTree :=
  match o with
  | Returned _ st => st
  | Raised _ st => st
  end.

(** The value a call returned, if it returned. *)
Definition reported {A} (o : outcome A) : option A :=
  match o with
  | Returned a _ => Some a
  | Raised _ _ => None
  end.

Definition M (A : Type) : Type := FractalTree -> outcome A.

Definition ret {A} (a : A) : M A := fun st => Returned a st.

Definition bind {A B} (m : M A) (k : A -> M B) : M B :=
  fun st =>
    match m st with
    | Returned a st' => k a st'
    | Raised e st' => Raised e st'
    end.

Notation "'do' x <- m ; k" := (bind m (fun x => k))
  (at level 10, x pattern, m at level 200, k at level 200).
Notation "m ;; k" := (bind m (fun _ => k))
  (at level 100, k at level 200, right associativity).

(** A pure computation that may raise. *)
Definition lift {A} (r : result A) : M A :=
  fun st =>
    match r with
    | Ok a => Returned a st
    | Raise e => Raised e st
    end.

Definition gets {A} (f : FractalTree -> A) : M A := fun st => Returned (f st) st.

Definition set_click_count (v : Z) : M unit := fun st =>
  Returned tt {| params := params st; click_count := v;
                 current_depth := current_depth st; branches := branches st;
                 next_id := next_id st; tree_center := tree_center st;
                 random_state := random_state st |}.

Definition set_current_depth (v : Z) : M unit := fun st =>
  Returned tt {| params := params st; click_count := click_count st;
                 current_depth := v; branches := branches st;
                 next_id := next_id st; tree_center := tree_center st;
                 random_state := random_state st |}.

Definition set_branches (v : list Branch.t) : M unit := fun st =>
  Returned tt {| params := params st; click_count := click_count st;
                 current_depth := current_depth st; branches := v;
                 next_id := next_id st; tree_center := tree_center st;
                 random_state := random_state st |}.

Definition set_next_id (v : Z) : M unit := fun st =>
  Returned tt {| params := params st; click_count := click_count st;
                 current_depth := current_depth st; branches := branches st;
                 next_id := v; tree_center := tree_center st;
                 random_state := random_state st |}.

Definition set_tree_center (v : Qc * Qc) : M unit := fun st =>
  Returned tt {| params := params st; click_count := click_count st;
                 current_depth := current_depth st; branches := branches st;
                 next_id := next_id st; tree_center := v;
                 random_state := random_state st |}.

Definition set_random_state (v : nat) : M unit := fun st =>
  Returned tt {| params := params st; click_count := click_count st;
                 current_depth := current_depth st; branches := branches st;
                 next_id := next_id st; tree_center := tree_center st;
                 random_state := v |}.

(** [for x in l: acc = body(acc, x)]. *)
Fixpoint for_each {A B} (l : list A) (body : B -> A -> M B) (acc : B) : M B :=
  match l with
  | [] => ret acc
  | x :: l' => do acc' <- body acc x ; for_each l' body acc'
  end.

(** What a call of [grow_one_level] or [grow_full_tree] reports: the text of
    the information box it shows before returning early, or that it ran to
    its end. *)
Inductive report : Set :=
| PlantTrunkFirst     (* "Please plant trunk first!" *)
| MaximumDepthReached (* "Maximum depth reached!" *)
| Done.

Section Engine.

(** [math.radians], [math.cos], [math.sin]. *)
Variables math_radians math_cos math_sin : Qc -> Qc.

(** [random_random n] is the sample returned by the [n]-th call of
    [random.random()], counting from 0. *)
Variable random_random : nat -> Qc.

Definition random : M Qc :=
  do n <- gets random_state ;
  set_random_state (S n) ;;
  ret (random_random n).

Definition plant_trunk (x y : Qc) : M unit :=
  set_branches [] ;;
  set_next_id 0 ;;
  set_current_depth 0 ;;
  set_tree_center (x, y) ;;
  do p <- gets params ;
  let start_y := y in
  let '(end_y, base_angle) :=
    if upward_angle p then ((y - base_length p)%Qc, Qc_of_Z 270)
    else ((y + base_length p)%Qc, Qc_of_Z 90) in
  do nid <- gets next_id ;
  let trunk := {|
    Branch.id := nid;
    Branch.parent_id := None;
    Branch.start := (x, start_y);
    Branch.end_ := (x, end_y);
    Branch.depth := 0;
    Branch.length := base_length p;
    Branch.angle := base_angle;
    Branch.thickness := trunk_thickness p;
    Branch.color := trunk_color p
  |} in
  do bs <- gets branches ;
  set_branches (bs ++ [trunk]) ;;
  do nid <- gets next_id ;
  set_next_id (nid + 1).

(** The body of the inner loop of [grow_one_level]: one child of [parent]
    for the offset [angle_offset], appended to [new_branches]. *)
Definition grow_child (parent : Branch.t) (new_branches : list Branch.t)
    (angle_offset : Qc) : M (list Branch.t) :=
  let '(px, py) := Branch.end_ parent in
  do p <- gets params ;
  do u <- random ;
  let angle_variation :=
    (angle_offset * (1 + (u - qc 1 2) * randomness p * Qc_of_Z 2))%Qc in
  let new_angle := (Branch.angle parent + angle_variation)%Qc in
  let new_length := (Branch.length parent * length_factor p)%Qc in
  do u' <- random ;
  let new_length := (new_length * (1 + (u' - qc 1 2) * randomness p))%Qc in
  let rad_angle := math_radians new_angle in
  let end_x := (px + math_cos rad_angle * new_length)%Qc in
  let end_y := (py + math_sin rad_angle * new_length)%Qc in
  do nid <- gets next_id ;
  do d <- gets current_depth ;
  do th <- lift (calculate_thickness p (d + 1)) ;
  do col <- lift (get_branch_color p (d + 1)) ;
  let new_branch := {|
    Branch.id := nid;
    Branch.parent_id := Some (Branch.id parent);
    Branch.start := (px, py);
    Branch.end_ := (end_x, end_y);
    Branch.depth := d + 1;
    Branch.length := new_length;
    Branch.angle := new_angle;
    Branch.thickness := th;
    Branch.color := col
  |} in
  do nid <- gets next_id ;
  set_next_id (nid + 1) ;;
  ret (new_branches ++ [new_branch]).

(** The body of the outer loop: the two children of [parent]. *)
Definition grow_children (new_branches : list Branch.t) (parent : Branch.t)
  : M (list Branch.t) :=
  do p <- gets params ;
  for_each [(- angle_variation p)%Qc; angle_variation p]
           (grow_child parent) new_branches.

Definition grow_one_level : M report :=
  do bs <- gets branches ;
  if decide (length bs = 0%nat) then ret PlantTrunkFirst
  else
    do d <- gets current_depth ;
    do p <- gets params ;
    if decide (max_depth p <= d) then ret MaximumDepthReached
    else
      let terminal_branches := filter (fun b => Branch.depth b = d) bs in
      do new_branches <- for_each terminal_branches grow_children [] ;
      for_each new_branches
        (fun _ branch => do bs <- gets branches ; set_branches (bs ++ [branch]))
        tt ;;
      do d <- gets current_depth ;
      set_current_depth (d + 1) ;;
      ret Done.

(** [while self.current_depth < self.params['max_depth']: grow_one_level()],
    run for at most [fuel] rounds. *)
Fixpoint grow_loop (fuel : nat) : M report :=
  match fuel with
  | O => ret Done
  | S fuel' =>
      do d <- gets current_depth ;
      do p <- gets params ;
      if decide (d < max_depth p) then grow_one_level ;; grow_loop fuel'
      else ret Done
  end.

(** The loop of [grow_full_tree] raises the depth counter by one in every
    round, so [max_depth - current_depth] rounds are enough (see
    [grow_loop_exits]). *)
Definition grow_full_tree : M report :=
  do bs <- gets branches ;
  if decide (length bs = 0%nat) then ret PlantTrunkFirst
  else
    do d <- gets current_depth ;
    do p <- gets params ;
    grow_loop (Z.to_nat (max_depth p - d)).

Definition reset_tree : M unit :=
  set_click_count 0 ;;
  set_current_depth 0 ;;
  set_branches [] ;;
  set_next_id 0.

(** The object after [__init__]. *)
Definition new_tree (p : Params) : FractalTree := {|
  params := p;
  click_count := 0;
  current_depth := 0;
  branches := [];
  next_id := 0;
  tree_center := (0%Qc, 0%Qc);
  random_state := 0
|}.

(** The state after some children were built: the identifier counter and
    the random source have advanced, nothing else has changed. *)
Definition advanced (st : FractalTree) (k : Z) (r : nat) : FractalTree := {|
  params := params st;
  click_count := click_count st;
  current_depth := current_depth st;
  branches := branches st;
  next_id := next_id st + k;
  tree_center := tree_center st;
  random_state := random_state st + r
|}.

(** The child that [grow_child] builds, as a function of what it reads:
    the parameters, the depth counter, the thickness and colour of the new
    generation, the parent, the offset, the identifier and the two
    samples. *)
Definition child_of (p : Params) (d : Z) (th : Qc) (col : string)
    (parent : Branch.t) (angle_offset : Qc) (nid : Z) (u u' : Qc)
  : Branch.t :=
  let new_angle :=
    (Branch.angle parent
     + angle_offset * (1 + (u - qc 1 2) * randomness p * Qc_of_Z 2))%Qc in
  let new_length :=
    (Branch.length parent * length_factor p
     * (1 + (u' - qc 1 2) * randomness p))%Qc in
  {| Branch.id := nid;
     Branch.parent_id := Some (Branch.id parent);
     Branch.start := Branch.end_ parent;
     Branch.end_ :=
       ((Branch.end_ parent).1 + math_cos (math_radians new_angle) * new_length,
        (Branch.end_ parent).2 + math_sin (math_radians new_angle) * new_length)%Qc;
     Branch.depth := d + 1;
     Branch.length := new_length;
     Branch.angle := new_angle;
     Branch.thickness := th;
     Branch.color := col |}.

(** The children of the parents [ps], two for each, in the order in which
    [grow_one_level] builds them; [nid] is the first identifier and [r] the
    index of the first sample. *)
Fixpoint children_of (p : Params) (d : Z) (th : Qc) (col : string)
    (ps : list Branch.t) (nid : Z) (r : nat) : list Branch.t :=
  match ps with
  | [] => []
  | parent :: ps' =>
      child_of p d th col parent (- angle_variation p)%Qc nid
        (random_random r) (random_random (S r))
      :: child_of p d th col parent (angle_variation p) (nid + 1)
           (random_random (S (S r))) (random_random (S (S (S r))))
      :: children_of p d th col ps' (nid + 2) (4 + r)
  end.

(** The branches of depth [current_depth]. *)
Definition terminal_branches (st : FractalTree) : list Branch.t :=
  filter (fun b => Branch.depth b = current_depth st) (branches st).

(** The state after a call of [grow_one_level] that ran to its end, when
    the new generation has thickness [th] and colour [col]. *)
Definition grown (st : FractalTree) (th : Qc) (col : string) : FractalTree := {|
  params := params st;
  click_count := click_count st;
  current_depth := current_depth st + 1;
  branches :=
    branches st
    ++ children_of (params st) (current_depth st) th col
         (terminal_branches st) (next_id st) (random_state st);
  next_id := next_id st + 2 * Z.of_nat (length (terminal_branches st));
  tree_center := tree_center st;
  random_state := random_state st + 4 * length (terminal_branches st)
|}.

(** *** Growing level by level *)

(** [n] calls of [grow_one_level] in a row, with what each reported. *)
Fixpoint grow_times (n : nat) : M (list report) :=
  match n with
  | O => ret []
  | S n' =>
      do r <- grow_one_level ;
      do rs <- grow_times n' ;
      ret (r :: rs)
  end.

(** *** Sequences of calls *)

Inductive op : Type :=
| PlantTrunk (x y : Qc)
| GrowOneLevel
| GrowFullTree
| ResetTree.

(** The state a call leaves behind, whether it returned or raised. *)
Definition call (o : op) (st : FractalTree) : FractalTree :=
  match o with
  | PlantTrunk x y => state_of (plant_trunk x y st)
  | GrowOneLevel => state_of (grow_one_level st)
  | GrowFullTree => state_of (grow_full_tree st)
  | ResetTree => state_of (reset_tree st)
  end.

Definition calls (os : list op) (st : FractalTree) : FractalTree :=
  fold_left (fun s o => call o s) os st.

(** *** The geometry rule in the words of the specification *)

(** [offset' = offset * (1 + (U - 0.5) * 2 * R)]. *)
Definition spec_jittered_offset (offset U R : Qc) : Qc :=
  (offset * (1 + (U - qc 1 2) * Qc_of_Z 2 * R))%Qc.

(** Child angle [= p.angle + offset']. *)
Definition spec_child_angle (p : Branch.t) (offset' : Qc) : Qc :=
  (Branch.angle p + offset')%Qc.

(** [length' = p.length * lengthFactor * (1 + (U2 - 0.5) * R)]. *)
Definition spec_child_length (p : Branch.t) (lengthFactor U2 R : Qc) : Qc :=
  (Branch.length p * lengthFactor * (1 + (U2 - qc 1 2) * R))%Qc.

(** Child end [= p.end + length' * (cos(rad(angle)), sin(rad(angle)))]. *)
Definition spec_child_end (p : Branch.t) (length' angle : Qc) : Qc * Qc :=
  ((Branch.end_ p).1 + length' * math_cos (math_radians angle),
   (Branch.end_ p).2 + length' * math_sin (math_radians angle))%Qc.

End Engine.


(** *** Colour and thickness in the words of the specification *)

(** [m] is the larger of [a] and [b]. *)
Definition is_max (a b m : Qc) : Prop :=
  (a <= m)%Qc /\ (b <= m)%Qc /\ (m = a \/ m = b).

(** [trunkThickness * thicknessFactor ^ depth]. *)
Definition spec_decay (p : Params) (depth : Z) : Qc :=
  (trunk_thickness p * thickness_factor p ^ Z.to_nat depth)%Qc.

(** Rounding toward zero: down for a number that is not negative, up for
    a negative one. *)
Definition round_toward_zero (x : Qc) : Z :=
  if decide (0 <= x)%Qc then Qfloor x else Qceiling x.

Definition palette_size (p : Params) : Z := Z.of_nat (length (leaf_colors p)).

(** [position = (depth / maxDepth) * (paletteSize - 1)]. *)
Definition spec_position (p : Params) (depth : Z) : Qc :=
  (Qc_of_Z depth / Qc_of_Z (max_depth p) * Qc_of_Z (palette_size p - 1))%Qc.

(** [lowerIndex = floor(position)]. *)
Definition spec_lower_index (p : Params) (depth : Z) : Z :=
  Qfloor (spec_position p depth).

(** [upperIndex = min(lowerIndex + 1, paletteSize - 1)]. *)
Definition spec_upper_index (p : Params) (depth : Z) : Z :=
  Z.min (spec_lower_index p depth + 1) (palette_size p - 1).

(** [fraction = position - lowerIndex]. *)
Definition spec_fraction (p : Params) (depth : Z) : Qc :=
  (spec_position p depth - Qc_of_Z (spec_lower_index p depth))%Qc.

(** One channel of the linear interpolation between [c1] and [c2] by
    [fraction], rounded toward zero. *)
Definition spec_blend (c1 c2 : Z) (fraction : Qc) : Z :=
  round_toward_zero ((1 - fraction) * Qc_of_Z c1 + fraction * Qc_of_Z c2)%Qc.

(** A palette the colour rule can work with: it is not empty and the three
    channels of each entry can be read. *)
Definition valid_palette (p : Params) : Prop :=
  leaf_colors p <> []
  /\ forall c : string, c ∈ leaf_colors p -> exists rgb, channels c = Ok rgb.

(** [format(v, '02x')] is two characters that [int(_, 16)] reads back as
    [v]. *)
Definition two_digits_read_back (v : Z) : bool :=
  match format_02x v with
  | String a (String b EmptyString) =>
      match int16 (String a (String b EmptyString)) with
      | Ok v' => v' =? v
      | Raise _ => false
      end
  | _ => false
  end.

(** ** Double precision *)

(** [2 ^ e] for an exponent of either sign. *)
Definition pow2 (e : Z) : Qc :=
  if decide (0 <= e) then Qc_of_Z (2 ^ e) else (/ Qc_of_Z (2 ^ (- e)))%Qc.

(** The binary order of magnitude of a positive number:
    [2 ^ ilog2 x <= x < 2 ^ (ilog2 x + 1)]. *)
Definition ilog2 (x : Qc) : Z :=
  let k := Z.log2 (Qnum x) - Z.log2 (Zpos (Qden x)) in
  if decide (pow2 k <= x)%Qc then k else k - 1.

(** Rounding to the nearest integer, a tie to the even neighbour. *)
Definition rne (x : Qc) : Z :=
  let f := Qfloor x in
  let r := (x - Qc_of_Z f)%Qc in
  if decide (r < qc 1 2)%Qc then f
  else if decide (qc 1 2 < r)%Qc then f + 1
  else if Z.even f then f else f + 1.

(** The exponent of the unit in the last place of the doubles around
    [x > 0]: 53 significant bits, and [2 ^ -1074] is the smallest spacing
    (the subnormal range). *)
Definition ulp_exponent (x : Qc) : Z := Z.max (ilog2 x - 52) (-1074).

(** The double nearest to [x >= 0]. *)
Definition round_magnitude (x : Qc) : Qc :=
  let e := ulp_exponent x in
  (Qc_of_Z (rne (x / pow2 e)) * pow2 e)%Qc.

(** The double nearest to [x], a tie to the one with an even significand
    (IEEE 754 binary64, the default rounding, which CPython's [float]
    uses).  Magnitudes from [2 ^ 1024] on, where a double overflows, are
    rounded with the same spacing instead. *)
Definition binary64 (x : Qc) : Qc :=
  if decide (0 <= x)%Qc then round_magnitude x
  else (- round_magnitude (- x))%Qc.

(** *** The doubles of the machine *)

(** The number a finite machine double holds. *)
Definition machine_value (f : PrimFloat.float) : option Qc :=
  match FloatOps.Prim2SF f with
  | SpecFloat.S754_zero _ => Some 0%Qc
  | SpecFloat.S754_finite s m e =>
      let v := (Qc_of_Z (Zpos m) * pow2 e)%Qc in
      Some (if s then (- v)%Qc else v)
  | _ => None
  end.

(** The machine double of an integer of magnitude below [2 ^ 63]. *)
Definition machine_int (k : Z) : PrimFloat.float :=
  if k <? 0 then PrimFloat.opp (PrimFloat.of_uint63 (Uint63Axioms.of_Z (- k)))
  else PrimFloat.of_uint63 (Uint63Axioms.of_Z k).

Definition same_value (f : PrimFloat.float) (x : Qc) : bool :=
  match machine_value f with
  | Some y => Qeq_bool y x
  | None => false
  end.

(** On the integers [a], [b], [c]: the quotient [a / b], its product with
    [c], the distance of the product from [c] and the sum of the product
    and [c] are the same in the machine's arithmetic and when the exact
    result is rounded by [binary64]. *)
Definition agree (a b c : Z) : bool :=
  let q := PrimFloat.div (machine_int a) (machine_int b) in
  let q' := binary64 (Qc_of_Z a / Qc_of_Z b)%Qc in
  let m := PrimFloat.mul q (machine_int c) in
  let m' := binary64 (q' * Qc_of_Z c)%Qc in
  same_value q q'
  && same_value m m'
  && same_value (PrimFloat.sub m (machine_int c)) (binary64 (m' - Qc_of_Z c)%Qc)
  && same_value (PrimFloat.add (machine_int c) m) (binary64 (Qc_of_Z c + m')%Qc).

(** ** The colour rule in rounded arithmetic *)

(** [get_branch_color] and [interpolate_color] once more, with every
    float operation rounded by [rnd]: the result of an operation is the
    exact result rounded, and an integer operand of a float operation is
    converted first.  With [rnd := binary64] this is the arithmetic of
    CPython's [float]; with the identity it is the exact reading of
    [get_branch_color] above. *)
Module Rounded.
Section Arithmetic.

Variable rnd : Qc -> Qc.

(** [float(k)]. *)
Definition of_int (k : Z) : Qc := rnd (Qc_of_Z k).

(** [a / b] on two integers: the quotient itself is rounded.  (Python
    raises [OverflowError] for a quotient of magnitude [2 ^ 1024] or more;
    no quotient of [get_branch_color] at a depth from 0 on is that
    large.) *)
Definition truediv (a b : Z) : result Qc :=
  if decide (b = 0) then Raise ZeroDivisionError
  else Ok (rnd (Qc_of_Z a / Qc_of_Z b)%Qc).

Definition add (x y : Qc) : Qc := rnd (x + y)%Qc.
Definition sub (x y : Qc) : Qc := rnd (x - y)%Qc.
Definition mul (x y : Qc) : Qc := rnd (x * y)%Qc.

Definition interpolate_color (color1 color2 : string) (factor : Qc)
  : result string :=
  let? (r1, g1, b1) := channels color1 in
  let? (r2, g2, b2) := channels color2 in
  let r := py_int (add (of_int r1) (mul (of_int (r2 - r1)) factor)) in
  let g := py_int (add (of_int g1) (mul (of_int (g2 - g1)) factor)) in
  let b := py_int (add (of_int b1) (mul (of_int (b2 - b1)) factor)) in
  Ok (hex_string r g b).

Definition get_branch_color (p : Params) (depth : Z) : result string :=
  if decide (depth = 0) then Ok (trunk_color p)
  else if decide (max_depth p <= depth) then py_getitem (leaf_colors p) (-1)
  else
    let? progress := truediv depth (max_depth p) in
    let last := Z.of_nat (length (leaf_colors p)) - 1 in
    let color_index := mul progress (of_int last) in
    let idx1 := py_int color_index in
    let idx2 := py_min (idx1 + 1) last in
    let factor := sub color_index (of_int idx1) in
    let? color1 := py_getitem (leaf_colors p) idx1 in
    let? color2 := py_getitem (leaf_colors p) idx2 in
    interpolate_color color1 color2 factor.

(** *** The same rule in the words of the specification *)

(** [progress = depth / maxDepth]. *)
Definition spec_progress (p : Params) (depth : Z) : Qc :=
  rnd (Qc_of_Z depth / Qc_of_Z (max_depth p))%Qc.

(** [position = progress * (paletteSize - 1)]. *)
Definition spec_position (p : Params) (depth : Z) : Qc :=
  mul (spec_progress p depth) (of_int (palette_size p - 1)).

(** [lowerIndex = floor(position)]. *)
Definition spec_lower_index (p : Params) (depth : Z) : Z :=
  Qfloor (spec_position p depth).

(** [upperIndex = min(lowerIndex + 1, paletteSize - 1)]. *)
Definition spec_upper_index (p : Params) (depth : Z) : Z :=
  Z.min (spec_lower_index p depth + 1) (palette_size p - 1).

(** [fraction = position - lowerIndex]. *)
Definition spec_fraction (p : Params) (depth : Z) : Qc :=
  sub (spec_position p depth) (of_int (spec_lower_index p depth)).

(** One channel of the interpolation from [c1] to [c2] by [fraction]:
    [c1] moved by the [fraction] of the way to [c2], rounded toward
    zero. *)
Definition spec_blend (c1 c2 : Z) (fraction : Qc) : Z :=
  round_toward_zero (add (of_int c1) (mul (of_int (c2 - c1)) fraction)).

End Arithmetic.
End Rounded.

(** The colour rule as CPython computes it. *)
Module Double.
Definition interpolate_color := Rounded.interpolate_color binary64.
Definition get_branch_color := Rounded.get_branch_color binary64.
Definition spec_position := Rounded.spec_position binary64.
Definition spec_lower_index := Rounded.spec_lower_index binary64.
Definition spec_upper_index := Rounded.spec_upper_index binary64.
Definition spec_fraction := Rounded.spec_fraction binary64.
Definition spec_blend := Rounded.spec_blend binary64.
End Double.

(** ** Counting branches *)

(** [2^0 + 2^1 + ... + 2^d]. *)
Fixpoint sum_of_powers (d : nat) : Z :=
  match d with
  | O => 1
  | S d' => sum_of_powers d' + 2 ^ Z.of_nat (S d')
  end.

Definition branches_at_depth (st : FractalTree) (k : Z) : list Branch.t :=
  filter (fun b => Branch.depth b = k) (branches st).

(** The tree is complete down to level [n]: the depth counter is [n], level
    [k] holds [2^k] branches for every [k] up to [n], and there is no
    branch at another depth. *)
Definition full_levels (n : nat) (st : FractalTree) : Prop :=
  current_depth st = Z.of_nat n
  /\ Z.of_nat (length (branches st)) = sum_of_powers n
  /\ (forall k : nat, (k <= n)%nat ->
      Z.of_nat (length (branches_at_depth st (Z.of_nat k))) = 2 ^ Z.of_nat k)
  /\ (forall b, b ∈ branches st -> 0 <= Branch.depth b <= Z.of_nat n).

(** The exception that building a child of the generation at depth [d]
    raises, if any: it is decided by the parameters and the depth alone.
    The thickness is computed before the colour. *)
Definition generation_error (p : Params) (d : Z) : option exn :=
  match calculate_thickness p d with
  | Raise e => Some e
  | Ok _ =>
      match get_branch_color p d with
      | Raise e => Some e
      | Ok _ => None
      end
  end.

(** ** Shape of the branch list *)

(** Identifiers are positions, and the next identifier is the length. *)
Definition ids_are_positions (st : FractalTree) : Prop :=
  next_id st = Z.of_nat (length (branches st))
  /\ forall (i : nat) (b : Branch.t),
       branches st !! i = Some b -> Branch.id b = Z.of_nat i.

Definition is_trunk (b : Branch.t) : Prop :=
  Branch.depth b = 0 /\ Branch.parent_id b = None.

Global Instance is_trunk_dec b : Decision (is_trunk b).
Proof. unfold is_trunk. apply _. Defined.

(** [b] has a parent in [bs], one level up. *)
Definition has_parent_in (bs : list Branch.t) (b : Branch.t) : Prop :=
  exists parent : Branch.t,
    parent ∈ bs
    /\ Branch.parent_id b = Some (Branch.id parent)
    /\ Branch.depth parent = Branch.depth b - 1.

(** Follow the [parent_id] links [n] times, looking each identifier up in
    [bs]. *)
Fixpoint climb (bs : list Branch.t) (n : nat) (b : Branch.t)
  : option Branch.t :=
  match n with
  | O => Some b
  | S n' =>
      match Branch.parent_id b with
      | None => None
      | Some pid =>
          match list_find (fun q => Branch.id q = pid) bs with
          | Some (_, q) => climb bs n' q
          | None => None
          end
      end
  end.

(** The invariant that the engine's calls maintain: identifiers are
    positions, the depth counter is not negative, the branch at position 0
    is a trunk, and every other branch is at least at depth 1 with its
    parent recorded by position. *)
Definition tree_invariant (st : FractalTree) : Prop :=
  ids_are_positions st
  /\ 0 <= current_depth st
  /\ forall (i : nat) (b : Branch.t),
       branches st !! i = Some b ->
       (i = 0%nat /\ is_trunk b)
       \/ (i <> 0%nat /\ 1 <= Branch.depth b
           /\ exists (j : nat) (q : Branch.t),
                Branch.parent_id b = Some (Z.of_nat j)
                /\ branches st !! j = Some q
                /\ Branch.depth q = Branch.depth b - 1).

(** ** More of the shape of a grown tree *)

(** What the stored attributes of a branch at depth [d] must be under the
    parameters [p]: the trunk carries the trunk parameters as they are, a
    later branch the thickness and colour that the rules give for its
    depth. *)
Definition attributes_by_depth (p : Params) (b : Branch.t) : Prop :=
  (Branch.depth b = 0 ->
     Branch.thickness b = trunk_thickness p
     /\ Branch.color b = trunk_color p
     /\ Branch.length b = base_length p)
  /\ (Branch.depth b <> 0 ->
     calculate_thickness p (Branch.depth b) = Ok (Branch.thickness b)
     /\ get_branch_color p (Branch.depth b) = Ok (Branch.color b)).

(** The branch list is empty with the depth counter at 0, or complete down
    to the level of the depth counter. *)
Definition empty_or_full (st : FractalTree) : Prop :=
  (branches st = [] /\ current_depth st = 0)
  \/ full_levels (Z.to_nat (current_depth st)) st.

(** Every branch but the first starts where an earlier branch ends, and
    that branch is its parent. *)
Definition connected (st : FractalTree) : Prop :=
  forall (i : nat) (b : Branch.t),
    branches st !! i = Some b -> i <> 0%nat ->
    exists (j : nat) (q : Branch.t),
      (j < i)%nat
      /\ branches st !! j = Some q
      /\ Branch.parent_id b = Some (Branch.id q)
      /\ Branch.start b = Branch.end_ q.

(** The invariant behind the facts on grown trees, for an object created
    with the parameters [p]. *)
Definition grown_invariant (p : Params) (st : FractalTree) : Prop :=
  params st = p
  /\ 0 <= current_depth st <= Z.max 0 (max_depth p)
  /\ empty_or_full st
  /\ ids_are_positions st
  /\ connected st
  /\ forall b, b ∈ branches st -> attributes_by_depth p b.

(** The generation a call adds has the thickness and colour of its depth,
    unless there was no terminal branch to grow from. *)
Definition generation_of (st : FractalTree) (th : Qc) (col : string) : Prop :=
  terminal_branches st <> [] ->
  calculate_thickness (params st) (current_depth st + 1) = Ok th
  /\ get_branch_color (params st) (current_depth st + 1) = Ok col.

(** At most a trunk: what a tree looks like that could never grow. *)
Definition at_most_trunk (st : FractalTree) : Prop :=
  current_depth st = 0
  /\ (branches st = [] \/ exists t, branches st = [t] /\ is_trunk t).

(** ** The rest of the interface *)

(** *** Drawing a branch

    [draw_branch] makes one [create_line] call on the canvas; this is the
    call.  [smooth_lines] is the entry of that name in [self.params]; the
    option [smooth] is only passed when it is set. *)

Inductive tk_constant : Set := ROUND.

Record create_line : Type := {
  line_from : Qc * Qc;
  line_to : Qc * Qc;
  line_width : Qc;
  line_fill : string;
  line_capstyle : tk_constant;
  line_joinstyle : tk_constant;
  line_smooth : option bool
}.

Definition draw_branch (smooth_lines : bool) (branch : Branch.t) : create_line :=
  let '(x1, y1) := Branch.start branch in
  let '(x2, y2) := Branch.end_ branch in
  {| line_from := (x1, y1);
     line_to := (x2, y2);
     line_width := py_max 1%Qc (Branch.thickness branch);
     line_fill := Branch.color branch;
     line_capstyle := ROUND;
     line_joinstyle := ROUND;
     line_smooth := if smooth_lines then Some true else None |}.

(** *** Saving the image

    For every branch [save_tree] reads the colour, takes a whole number of
    pixels as thickness and draws that many lines of width 1 side by side.
    [save_lines] is this part of the loop body: the [draw.line] calls for
    one branch.  The file dialog and the image library are left out. *)

(** [s.lstrip('#')]. *)
Fixpoint lstrip_hash (s : string) : string :=
  match s with
  | EmptyString => EmptyString
  | String a s' => if Ascii.eqb a "#" then lstrip_hash s' else String a s'
  end.

(** [tuple(int(color[i:i + 2], 16) for i in (0, 2, 4))] after
    [color = branch['color'].lstrip('#')]. *)
Definition save_rgb (color : string) : result (Z * Z * Z) :=
  let color := lstrip_hash color in
  let? r := int16 (py_slice color 0 2) in
  let? g := int16 (py_slice color 2 4) in
  let? b := int16 (py_slice color 4 6) in
  Ok (r, g, b).

(** [max(a, b)] on integers. *)
Definition py_max_int (a b : Z) : Z := if decide (a < b) then b else a.

(** [range(n)]. *)
Definition py_range (n : Z) : list Z := map Z.of_nat (seq 0 (Z.to_nat n)).

Record draw_line : Type := {
  draw_from : Qc * Qc;
  draw_to : Qc * Qc;
  draw_fill : Z * Z * Z;
  draw_width : Z
}.

Definition save_lines (branch : Branch.t) : result (list draw_line) :=
  let '(x1, y1) := Branch.start branch in
  let '(x2, y2) := Branch.end_ branch in
  let? rgb := save_rgb (Branch.color branch) in
  let thickness := py_max_int 1 (py_int (Branch.thickness branch)) in
  Ok (map (fun i =>
             let offset := i - thickness / 2 in
             {| draw_from := ((x1 + Qc_of_Z offset)%Qc, y1);
                draw_to := ((x2 + Qc_of_Z offset)%Qc, y2);
                draw_fill := rgb;
                draw_width := 1 |})
          (py_range thickness)).

(** *** Clicks and random colours *)

Definition set_params (v : Params) : M unit := fun st =>
  Returned tt {| params := v; click_count := click_count st;
                 current_depth := current_depth st; branches := branches st;
                 next_id := next_id st; tree_center := tree_center st;
                 random_state := random_state st |}.

(** [x % 1.0] on a float. *)
Definition py_mod_1 (x : Qc) : Qc := (x - Qc_of_Z (Qfloor x))%Qc.

Section Interface.

Variables math_radians math_cos math_sin : Qc -> Qc.
Variable random_random : nat -> Qc.

(** [colorsys.hsv_to_rgb]. *)
Variable colorsys_hsv_to_rgb : Qc -> Qc -> Qc -> Qc * Qc * Qc.

(** A click on the canvas at the pixel [(x, y)]: the first click plants the
    trunk there, every later one grows a level.  ([update_display] only
    rewrites the labels.) *)
Definition on_canvas_click (x y : Z) : M unit :=
  do n <- gets click_count ;
  (if decide (n = 0) then plant_trunk (Qc_of_Z x) (Qc_of_Z y)
   else grow_one_level math_radians math_cos math_sin random_random ;; ret tt) ;;
  do n <- gets click_count ;
  set_click_count (n + 1).

(** The state after a series of clicks, whether they returned or raised. *)
Definition clicks (points : list (Z * Z)) (st : FractalTree) : FractalTree :=
  fold_left (fun s point => state_of (on_canvas_click point.1 point.2 s))
            points st.

(** The body of the loop of [randomize_colors]: the [i]-th leaf colour,
    appended to [leaf_colors]. *)
Definition random_leaf_color (base_hue : Qc) (leaf_colors : list string)
    (i : Z) : M (list string) :=
  let hue := py_mod_1 (base_hue + Qc_of_Z i * qc 1 10)%Qc in
  do u <- random random_random ;
  let saturation := (qc 6 10 + u * qc 3 10)%Qc in
  do u' <- random random_random ;
  let value := (qc 5 10 + u' * qc 3 10)%Qc in
  let '(r, g, b) := colorsys_hsv_to_rgb hue saturation value in
  let hex_color :=
    hex_string (py_int (r * Qc_of_Z 255)%Qc) (py_int (g * Qc_of_Z 255)%Qc)
               (py_int (b * Qc_of_Z 255)%Qc) in
  ret (leaf_colors ++ [hex_color]).

(** [randomize_colors], up to the redrawing of the canvas. *)
Definition randomize_colors : M unit :=
  do base_hue <- random random_random ;
  do p <- gets params ;
  set_params {| trunk_color := "#8B4513";
                leaf_colors := leaf_colors p;
                base_length := base_length p;
                angle_variation := angle_variation p;
                length_factor := length_factor p;
                max_depth := max_depth p;
                trunk_thickness := trunk_thickness p;
                thickness_factor := thickness_factor p;
                randomness := randomness p;
                upward_angle := upward_angle p |} ;;
  do leaf_colors <- for_each (py_range 3) (random_leaf_color base_hue) [] ;
  do p <- gets params ;
  set_params {| trunk_color := trunk_color p;
                leaf_colors := leaf_colors;
                base_length := base_length p;
                angle_variation := angle_variation p;
                length_factor := length_factor p;
                max_depth := max_depth p;
                trunk_thickness := trunk_thickness p;
                thickness_factor := thickness_factor p;
                randomness := randomness p;
                upward_angle := upward_angle p |}.

End Interface.

(** A colour string written from three bytes. *)
Definition byte_colour (c : string) : Prop :=
  exists r g b,
    c = hex_string r g b /\ 0 <= r < 256 /\ 0 <= g < 256 /\ 0 <= b < 256.

(** *** How long a branch can be, and how far it can turn *)

(** The length that [grow_one_level] gives a child of [q] when the sample
    of the random source is [u]. *)
Definition child_length_at (p : Params) (q : Branch.t) (u : Qc) : Qc :=
  (Branch.length q * length_factor p * (1 + (u - qc 1 2) * randomness p))%Qc.

(** The angle that [grow_one_level] gives the child of [q] for the offset
    [off] when the sample of the random source is [u]. *)
Definition child_angle_at (p : Params) (q : Branch.t) (off u : Qc) : Qc :=
  (Branch.angle q + off * (1 + (u - qc 1 2) * randomness p * Qc_of_Z 2))%Qc.

(** [x] lies between [a] and [b], whichever of the two is the larger. *)
Definition between (a x b : Qc) : Prop :=
  ((a <= x)%Qc /\ (x <= b)%Qc) \/ ((b <= x)%Qc /\ (x <= a)%Qc).

(** The length of the child [b] of [q] is at least the length for the
    sample 0 and at most the length for the sample 1. *)
Definition length_between_samples (p : Params) (q b : Branch.t) : Prop :=
  (child_length_at p q 0 <= Branch.length b)%Qc
  /\ (Branch.length b <= child_length_at p q 1)%Qc.

(** The angle of the child [b] of [q] lies, for one of the two offsets,
    between the angle for the sample 0 and the angle for the sample 1. *)
Definition angle_between_samples (p : Params) (q b : Branch.t) : Prop :=
  exists off : Qc,
    (off = (- angle_variation p)%Qc \/ off = angle_variation p)
    /\ between (child_angle_at p q off 0) (Branch.angle b)
         (child_angle_at p q off 1).

(** Every branch but the first has its parent earlier in the list and is
    related to it by [R]. *)
Definition children_related (R : Branch.t -> Branch.t -> Prop)
    (st : FractalTree) : Prop :=
  forall (i : nat) (b : Branch.t),
    branches st !! i = Some b -> i <> 0%nat ->
    exists (j : nat) (q : Branch.t),
      (j < i)%nat
      /\ branches st !! j = Some q
      /\ Branch.parent_id b = Some (Branch.id q)
      /\ R q b.

(** *** Stored geometry *)

(** The trunk is vertical: it ends [length] above its start at angle 270
    when the growth is upward, below it at angle 90 otherwise. *)
Definition trunk_geometry (p : Params) (b : Branch.t) : Prop :=
  (Branch.end_ b).1 = (Branch.start b).1
  /\ if upward_angle p
     then Branch.angle b = Qc_of_Z 270
          /\ (Branch.end_ b).2 = ((Branch.start b).2 - Branch.length b)%Qc
     else Branch.angle b = Qc_of_Z 90
          /\ (Branch.end_ b).2 = ((Branch.start b).2 + Branch.length b)%Qc.

Section StoredGeometry.

Variables math_radians math_cos math_sin : Qc -> Qc.

(** The end of [b] is its start moved by its length in the direction of
    its angle. *)
Definition end_from_polar (b : Branch.t) : Prop :=
  Branch.end_ b =
  ((Branch.start b).1 + math_cos (math_radians (Branch.angle b)) * Branch.length b,
   (Branch.start b).2 + math_sin (math_radians (Branch.angle b)) * Branch.length b)%Qc.

Definition stored_geometry (p : Params) (b : Branch.t) : Prop :=
  (Branch.depth b = 0 -> trunk_geometry p b)
  /\ (Branch.depth b <> 0 -> end_from_polar b).

End StoredGeometry.

(** *** Children *)

(** The branches of [bs] whose parent is [q]. *)
Definition children_in (bs : list Branch.t) (q : Branch.t) : list Branch.t :=
  filter (fun b => Branch.parent_id b = Some (Branch.id q)) bs.

(** Every branch above the terminal level has two children, a terminal
    branch has none. *)
Definition binary (st : FractalTree) : Prop :=
  forall q, q ∈ branches st ->
    length (children_in (branches st) q) =
    if decide (Branch.depth q < current_depth st) then 2%nat else 0%nat.

(** ** More concrete inputs for the examples *)

(** The default parameters with a maximum depth of 2. *)
Definition shallow_params : Params := {|
  trunk_color := trunk_color default_params;
  leaf_colors := leaf_colors default_params;
  base_length := base_length default_params;
  angle_variation := angle_variation default_params;
  length_factor := length_factor default_params;
  max_depth := 2;
  trunk_thickness := trunk_thickness default_params;
  thickness_factor := thickness_factor default_params;
  randomness := randomness default_params;
  upward_angle := upward_angle default_params
|}.

(** The default parameters without any leaf colour. *)
Definition bare_params : Params := {|
  trunk_color := trunk_color default_params;
  leaf_colors := [];
  base_length := base_length default_params;
  angle_variation := angle_variation default_params;
  length_factor := length_factor default_params;
  max_depth := max_depth default_params;
  trunk_thickness := trunk_thickness default_params;
  thickness_factor := thickness_factor default_params;
  randomness := randomness default_params;
  upward_angle := upward_angle default_params
|}.

(** The trunk that [plant_trunk] builds at (600, 700) under the default
    parameters. *)
Definition example_trunk : Branch.t := {|
  Branch.id := 0;
  Branch.parent_id := None;
  Branch.start := (Qc_of_Z 600, Qc_of_Z 700);
  Branch.end_ := (Qc_of_Z 600, (Qc_of_Z 700 - base_length default_params)%Qc);
  Branch.depth := 0;
  Branch.length := base_length default_params;
  Branch.angle := Qc_of_Z 270;
  Branch.thickness := trunk_thickness default_params;
  Branch.color := trunk_color default_params
|}.

(** A stand-in for [colorsys.hsv_to_rgb]: the grey of the given value. *)
Definition grey (h s v : Qc) : Qc * Qc * Qc := (v, v, v).

(** ** Concrete inputs for the examples *)

(** A stand-in for [math.radians], [math.cos] and [math.sin]. *)
Definition same (x : Qc) : Qc := x.

(** Two random sources: one always delivers 1/2, the other 1/4, 3/4, 1/4,
    3/4, ... *)
Definition samples_half (n : nat) : Qc := qc 1 2.
Definition samples_quarters (n : nat) : Qc :=
  if Nat.even n then qc 1 4 else qc 3 4.

(** The default parameters with the randomness switched off, as in the
    scenario of the specification. *)
Definition steady_params : Params := {|
  trunk_color := trunk_color default_params;
  leaf_colors := leaf_colors default_params;
  base_length := base_length default_params;
  angle_variation := angle_variation default_params;
  length_factor := length_factor default_params;
  max_depth := max_depth default_params;
  trunk_thickness := trunk_thickness default_params;
  thickness_factor := thickness_factor default_params;
  randomness := 0%Qc;
  upward_angle := upward_angle default_params
|}.

(** A palette of one colour, written with capital digits. *)
Definition gold_params : Params := {|
  trunk_color := "#8B4513";
  leaf_colors := ["#FFD700"]%string;
  base_length := base_length default_params;
  angle_variation := angle_variation default_params;
  length_factor := length_factor default_params;
  max_depth := max_depth default_params;
  trunk_thickness := trunk_thickness default_params;
  thickness_factor := thickness_factor default_params;
  randomness := randomness default_params;
  upward_angle := upward_angle default_params
|}.

(** A trunk planted at (600, 700). *)
Definition planted (p : Params) : FractalTree :=
  state_of (plant_trunk (Qc_of_Z 600) (Qc_of_Z 700) (new_tree p)).

(** The planted tree after one call of [grow_one_level]. *)
Definition grown_once (p : Params) : FractalTree :=
  state_of (grow_one_level same same same samples_quarters (planted p)).

Arguments qc : simpl never.
Arguments Qc_of_Z : simpl never.

(** The palette of [example_2], with the maximum depth moved to 12 in the
    settings dialog. *)
Definition example_2_params : Params :=
  {| trunk_color := "#5C4033";
     leaf_colors := ["#2E8B57"; "#3CB371"; "#FFA500"]%string;
     base_length := Qc_of_Z 200;
     angle_variation := Qc_of_Z 40;
     length_factor := qc 7 10;
     max_depth := 12;
     trunk_thickness := Qc_of_Z 25;
     thickness_factor := qc 8 10;
     randomness := qc 15 100;
     upward_angle := true |}.

(** ** Evaluating the monad *)

Ltac run_step :=
  cbv beta delta [bind ret gets lift random set_click_count set_current_depth
                  set_branches set_next_id set_tree_center set_random_state]
    iota;
  cbn [params click_count current_depth branches next_id tree_center
       random_state state_of].

Lemma advanced_0 st : advanced st 0 0 = st.
Proof.
  destruct st; unfold advanced; cbn. f_equal; [lia | apply Nat.add_0_r].
Qed.

Lemma advanced_advanced st k r k' r' :
  advanced (advanced st k r) k' r' = advanced st (k + k') (r + r').
Proof. unfold advanced; cbn. f_equal; lia. Qed.

(** ** Thickness *)

Lemma py_pow_nonneg (b : Qc) (e : Z) :
  0 <= e -> py_pow b e = Ok (b ^ Z.to_nat e)%Qc.
Proof. intros He. unfold py_pow. destruct (decide (0 <= e)); [reflexivity|lia]. Qed.

Lemma py_max_is_max (a b : Qc) : is_max a b (py_max a b).
Proof.
  unfold is_max, py_max. destruct (decide (a < b)%Qc) as [Hlt|Hge].
  - repeat split; auto using Qclt_le_weak, Qcle_refl.
  - repeat split; auto using Qcle_refl. apply Qcnot_lt_le, Hge.
Qed.

Lemma py_max_mono (a x y : Qc) : (x <= y)%Qc -> (py_max a x <= py_max a y)%Qc.
Proof.
  intros Hxy. unfold py_max.
  destruct (decide (a < x)%Qc) as [Hx|Hx], (decide (a < y)%Qc) as [Hy|Hy].
  - exact Hxy.
  - exfalso. apply Hy. eapply Qclt_le_trans; eassumption.
  - apply Qclt_le_weak, Hy.
  - apply Qcle_refl.
Qed.

Lemma Qcpower_le_1_step (f : Qc) (n : nat) :
  (0 <= f)%Qc -> (f <= 1)%Qc -> (f ^ S n <= f ^ n)%Qc.
Proof.
  intros H0 H1. cbn [Qcpower].
  rewrite <- (Qcmult_1_l (f ^ n)) at 2.
  apply Qcmult_le_compat_r; [exact H1 | apply Qcpower_pos, H0].
Qed.

Lemma Qcpower_antitone (f : Qc) (n m : nat) :
  (0 <= f)%Qc -> (f <= 1)%Qc -> (n <= m)%nat -> (f ^ m <= f ^ n)%Qc.
Proof.
  intros H0 H1 Hnm. induction Hnm as [|m Hnm IH]; [apply Qcle_refl|].
  eapply Qcle_trans; [apply Qcpower_le_1_step; assumption | exact IH].
Qed.

(** C6: for a depth that is not negative, [calculate_thickness] returns the
    larger of 1 and [trunk_thickness * thickness_factor ^ depth], so a value
    of at least 1; and when [0 < thickness_factor < 1] and
    [0 < trunk_thickness], a larger depth never gives a larger thickness. *)
Theorem calculate_thickness_spec (p : Params) (d1 d2 : Z) :
  0 <= d1 <= d2 ->
  exists t1 t2 : Qc,
    calculate_thickness p d1 = Ok t1
    /\ calculate_thickness p d2 = Ok t2
    /\ is_max 1%Qc (spec_decay p d1) t1
    /\ is_max 1%Qc (spec_decay p d2) t2
    /\ (1 <= t1)%Qc /\ (1 <= t2)%Qc
    /\ ((0 < thickness_factor p)%Qc /\ (thickness_factor p < 1)%Qc
        /\ (0 < trunk_thickness p)%Qc ->
        (t2 <= t1)%Qc).
Proof.
  intros [H1 H2]. unfold calculate_thickness.
  rewrite !py_pow_nonneg by lia. cbn [rbind].
  do 2 eexists. split; [reflexivity|]. split; [reflexivity|].
  fold (spec_decay p d1). fold (spec_decay p d2).
  split; [apply py_max_is_max|]. split; [apply py_max_is_max|].
  split; [apply py_max_is_max|]. split; [apply py_max_is_max|].
  intros (Hf0 & Hf1 & Ht). apply py_max_mono. unfold spec_decay.
  rewrite !(Qcmult_comm (trunk_thickness p)).
  apply Qcmult_le_compat_r; [|apply Qclt_le_weak, Ht].
  apply Qcpower_antitone; auto using Qclt_le_weak. lia.
Qed.

(** ** Colour *)

Lemma py_int_Qc_of_Z (z : Z) : py_int (Qc_of_Z z) = z.
Proof. unfold py_int, Qc_of_Z. cbn. apply Z.quot_1_r. Qed.

Lemma Qc_nonneg_num (x : Qc) : (0 <= x)%Qc <-> 0 <= Qnum x.
Proof.
  unfold Qcle, Qle. cbn. rewrite Z.mul_1_r. reflexivity.
Qed.

Lemma py_int_floor (x : Qc) : (0 <= x)%Qc -> py_int x = Qfloor x.
Proof.
  intros H%Qc_nonneg_num. unfold py_int, Qfloor.
  destruct x as [[n d] Hc]. cbn in *. apply Z.quot_div_nonneg; lia.
Qed.

Lemma py_int_ceiling (x : Qc) : ~ (0 <= x)%Qc -> py_int x = Qceiling x.
Proof.
  intros H. rewrite Qc_nonneg_num in H. unfold py_int, Qceiling, Qfloor.
  destruct x as [[n d] Hc]. cbn in *.
  rewrite <- (Z.opp_involutive n) at 1. rewrite Z.quot_opp_l by lia.
  f_equal. apply Z.quot_div_nonneg; lia.
Qed.

Lemma py_int_round_toward_zero (x : Qc) : py_int x = round_toward_zero x.
Proof.
  unfold round_toward_zero. destruct (decide (0 <= x)%Qc).
  - apply py_int_floor; assumption.
  - apply py_int_ceiling; assumption.
Qed.

Lemma Qfloor_between (x : Qc) (n : Z) :
  (0 <= x)%Qc -> (x <= Qc_of_Z n)%Qc -> 0 <= Qfloor x <= n.
Proof.
  intros H0 Hn. split.
  - change 0 with (Qfloor (inject_Z 0)) at 1. apply Qfloor_resp_le. exact H0.
  - rewrite <- (Qfloor_Z n). apply Qfloor_resp_le. exact Hn.
Qed.

Lemma py_getitem_in_range {A} (l : list A) (i : Z) :
  0 <= i < Z.of_nat (length l) ->
  exists x, l !! Z.to_nat i = Some x /\ py_getitem l i = Ok x.
Proof.
  intros Hi. unfold py_getitem.
  destruct (decide (i < 0)); [lia|]. destruct (decide (0 <= i)); [|lia].
  destruct (lookup_lt_is_Some_2 l (Z.to_nat i) ltac:(lia)) as [x Hx].
  exists x. rewrite Hx. auto.
Qed.

Lemma py_getitem_last {A} (l : list A) :
  l <> [] -> exists x, last l = Some x /\ py_getitem l (-1) = Ok x.
Proof.
  intros Hne. unfold py_getitem.
  assert (Hlen : (0 < length l)%nat) by (destruct l; [congruence | cbn; lia]).
  destruct (decide (-1 < 0)); [|lia].
  destruct (decide (0 <= -1 + Z.of_nat (length l))); [|lia].
  replace (Z.to_nat (-1 + Z.of_nat (length l))) with (pred (length l)) by lia.
  rewrite <- last_lookup. destruct (last l) as [x|] eqn:Hlast.
  - eauto.
  - apply last_None in Hlast. congruence.
Qed.

Lemma Qc_of_Z_le (n m : Z) : n <= m -> (Qc_of_Z n <= Qc_of_Z m)%Qc.
Proof. intros H. exact (proj1 (Z2Qc_inj_le n m) H). Qed.

Lemma Qc_of_Z_nonneg (n : Z) : 0 <= n -> (0 <= Qc_of_Z n)%Qc.
Proof. intros H. rewrite <- Z2Qc_inj_0. apply Qc_of_Z_le, H. Qed.

Lemma Qc_of_Z_pos (n : Z) : 0 < n -> (0 < Qc_of_Z n)%Qc.
Proof. intros H. rewrite <- Z2Qc_inj_0. exact (proj1 (Z2Qc_inj_lt 0 n) H). Qed.

(** Between the trunk and the maximum depth the position in the palette is
    not negative and does not pass the last index. *)
Lemma spec_position_range (p : Params) (depth : Z) :
  leaf_colors p <> [] -> 0 < depth < max_depth p ->
  (0 <= spec_position p depth)%Qc
  /\ (spec_position p depth <= Qc_of_Z (palette_size p - 1))%Qc.
Proof.
  intros Hne [Hd Hm]. unfold spec_position, palette_size.
  assert (Hlen : 0 <= Z.of_nat (length (leaf_colors p)) - 1).
  { destruct (leaf_colors p); [congruence | cbn [length]; lia]. }
  set (n := Z.of_nat (length (leaf_colors p)) - 1) in *.
  pose proof (Qc_of_Z_nonneg n Hlen) as Hlast.
  pose proof (Qc_of_Z_pos (max_depth p) ltac:(lia)) as Hmax.
  assert (Hinv : (0 <= / Qc_of_Z (max_depth p))%Qc)
    by apply Qclt_le_weak, Qcinv_pos, Hmax.
  assert (Hprog0 : (0 <= Qc_of_Z depth / Qc_of_Z (max_depth p))%Qc).
  { apply Qcmult_nonneg_nonneg; [|exact Hinv]. apply Qc_of_Z_nonneg. lia. }
  assert (Hprog1 : (Qc_of_Z depth / Qc_of_Z (max_depth p) <= 1)%Qc).
  { rewrite <- (Qcmult_inv_r (Qc_of_Z (max_depth p))).
    - apply Qcmult_le_compat_r; [|exact Hinv]. apply Qc_of_Z_le. lia.
    - intros H0. rewrite H0 in Hmax. revert Hmax. apply Qcle_not_lt, Qcle_refl. }
  split.
  - apply Qcmult_nonneg_nonneg; assumption.
  - rewrite <- (Qcmult_1_l (Qc_of_Z n)) at 2.
    apply Qcmult_le_compat_r; assumption.
Qed.

Lemma interpolate_color_returns c1 c2 r1 g1 b1 r2 g2 b2 (factor : Qc) :
  channels c1 = Ok (r1, g1, b1) -> channels c2 = Ok (r2, g2, b2) ->
  interpolate_color c1 c2 factor =
  Ok (hex_string (spec_blend r1 r2 factor) (spec_blend g1 g2 factor)
        (spec_blend b1 b2 factor)).
Proof.
  intros H1 H2. unfold interpolate_color. rewrite H1, H2. cbn [rbind].
  unfold spec_blend. rewrite <- !py_int_round_toward_zero.
  rewrite !Z2Qc_inj_sub.
  f_equal. f_equal; f_equal; ring.
Qed.

Lemma py_min_min (a b : Z) : py_min a b = Z.min a b.
Proof. unfold py_min. destruct (decide (b < a)); lia. Qed.

Lemma get_branch_color_between (p : Params) (depth : Z) :
  valid_palette p -> 0 < depth < max_depth p ->
  exists c1 c2 r1 g1 b1 r2 g2 b2,
    0 <= spec_lower_index p depth
    /\ 0 <= spec_upper_index p depth
    /\ leaf_colors p !! Z.to_nat (spec_lower_index p depth) = Some c1
    /\ leaf_colors p !! Z.to_nat (spec_upper_index p depth) = Some c2
    /\ channels c1 = Ok (r1, g1, b1)
    /\ channels c2 = Ok (r2, g2, b2)
    /\ get_branch_color p depth =
       Ok (hex_string (spec_blend r1 r2 (spec_fraction p depth))
             (spec_blend g1 g2 (spec_fraction p depth))
             (spec_blend b1 b2 (spec_fraction p depth))).
Proof.
  intros [Hne Hch] Hd.
  destruct (spec_position_range p depth Hne Hd) as [Hpos0 Hpos1].
  pose proof (Qfloor_between _ _ Hpos0 Hpos1) as Hlow.
  fold (spec_lower_index p depth) in Hlow.
  assert (Hup : 0 <= spec_upper_index p depth <= palette_size p - 1)
    by (unfold spec_upper_index; lia).
  unfold palette_size in Hlow, Hup.
  destruct (py_getitem_in_range (leaf_colors p) (spec_lower_index p depth)
              ltac:(lia)) as (c1 & Hc1 & Hget1).
  destruct (py_getitem_in_range (leaf_colors p) (spec_upper_index p depth)
              ltac:(lia)) as (c2 & Hc2 & Hget2).
  destruct (Hch c1 (list_elem_of_lookup_2 _ _ _ Hc1)) as [[[r1 g1] b1] Hrgb1].
  destruct (Hch c2 (list_elem_of_lookup_2 _ _ _ Hc2)) as [[[r2 g2] b2] Hrgb2].
  exists c1, c2, r1, g1, b1, r2, g2, b2.
  repeat (split; [first [lia | assumption]|]).
  unfold get_branch_color, py_truediv.
  destruct (decide (depth = 0)); [lia|].
  destruct (decide (max_depth p <= depth)); [lia|].
  destruct (decide (max_depth p = 0)); [lia|]. cbn [rbind].
  change (Z.of_nat (length (leaf_colors p))) with (palette_size p).
  fold (spec_position p depth).
  rewrite (py_int_floor _ Hpos0). fold (spec_lower_index p depth).
  rewrite py_min_min. fold (spec_upper_index p depth).
  fold (spec_fraction p depth).
  rewrite Hget1, Hget2. cbn [rbind].
  apply interpolate_color_returns; assumption.
Qed.

(** With a valid palette the colour of every depth from 0 on is defined. *)
Lemma get_branch_color_returns (p : Params) (depth : Z) :
  valid_palette p -> 0 <= depth -> exists col, get_branch_color p depth = Ok col.
Proof.
  intros Hvalid Hd.
  destruct (decide (depth = 0)) as [->|H0].
  { eexists. reflexivity. }
  destruct (decide (max_depth p <= depth)) as [Hm|Hm].
  - destruct (py_getitem_last (leaf_colors p) (proj1 Hvalid)) as (c & _ & Hget).
    exists c. unfold get_branch_color.
    destruct (decide (depth = 0)); [lia|].
    destruct (decide (max_depth p <= depth)); [exact Hget|lia].
  - destruct (get_branch_color_between p depth Hvalid ltac:(lia))
      as (c1 & c2 & r1 & g1 & b1 & r2 & g2 & b2 & H).
    eexists. apply H.
Qed.

(** *** Reading back what [hex_string] writes *)

Lemma hex_digit_range (a : ascii) (d : Z) :
  hex_digit a = Some d -> 0 <= d < 16.
Proof.
  unfold hex_digit. set (n := Z.of_N (N_of_ascii a)).
  destruct (andb _ _) eqn:H1; [intros [= <-]; lia|].
  destruct (andb _ _) eqn:H2 in |- *; [intros [= <-]; lia|].
  destruct (andb _ _) eqn:H3 in |- *; [intros [= <-]; lia|].
  discriminate.
Qed.

Lemma substring_length_le (s : string) : forall n m,
  (String.length (String.substring n m s) <= m)%nat.
Proof.
  induction s as [|a s IH]; intros [|n] [|m]; cbn; try lia.
  - specialize (IH 0%nat m). lia.
  - apply IH.
  - apply IH.
Qed.

Lemma int16_two_chars (s : string) (v : Z) :
  (String.length s <= 2)%nat -> int16 s = Ok v -> 0 <= v < 256.
Proof.
  intros Hlen. unfold int16.
  destruct s as [|a [|b [|c s]]]; [discriminate| | |cbn in Hlen; lia].
  - cbn. destruct (hex_digit a) as [d|] eqn:Ha; [|discriminate].
    apply hex_digit_range in Ha. intros [= <-]. lia.
  - cbn. destruct (hex_digit a) as [d|] eqn:Ha; [|discriminate].
    destruct (hex_digit b) as [e|] eqn:Hb; [|discriminate].
    apply hex_digit_range in Ha, Hb. intros [= <-]. lia.
Qed.

Lemma channels_range (c : string) (r g b : Z) :
  channels c = Ok (r, g, b) ->
  0 <= r < 256 /\ 0 <= g < 256 /\ 0 <= b < 256.
Proof.
  unfold channels, py_slice.
  destruct (int16 (String.substring 1 (3 - 1) c)) as [r'|] eqn:Hr; [|discriminate].
  destruct (int16 (String.substring 3 (5 - 3) c)) as [g'|] eqn:Hg; [|discriminate].
  destruct (int16 (String.substring 5 (7 - 5) c)) as [b'|] eqn:Hb; [|discriminate].
  cbn [rbind]. intros [= <- <- <-].
  repeat split;
    first [ eapply (int16_two_chars _ _ (substring_length_le c _ _) Hr)
          | eapply (int16_two_chars _ _ (substring_length_le c _ _) Hg)
          | eapply (int16_two_chars _ _ (substring_length_le c _ _) Hb) ].
Qed.

Lemma two_digits_all :
  forallb two_digits_read_back (map Z.of_nat (seq 0 256)) = true.
Proof. vm_compute. reflexivity. Qed.

Lemma format_02x_read_back (v : Z) :
  0 <= v < 256 ->
  exists a b, format_02x v = String a (String b EmptyString)
              /\ int16 (String a (String b EmptyString)) = Ok v.
Proof.
  intros Hv. pose proof two_digits_all as Hall.
  rewrite forallb_forall in Hall. specialize (Hall v).
  assert (Hin : In v (map Z.of_nat (seq 0 256))).
  { apply in_map_iff. exists (Z.to_nat v). split; [lia|].
    apply in_seq. lia. }
  apply Hall in Hin. unfold two_digits_read_back in Hin.
  destruct (format_02x v) as [|a [|b [|? ?]]]; try discriminate.
  destruct (int16 (String a (String b EmptyString))) as [v'|] eqn:Hread;
    [|discriminate].
  apply Z.eqb_eq in Hin as ->. eauto.
Qed.

Lemma channels_hex_string (r g b : Z) :
  0 <= r < 256 -> 0 <= g < 256 -> 0 <= b < 256 ->
  channels (hex_string r g b) = Ok (r, g, b).
Proof.
  intros Hr Hg Hb.
  destruct (format_02x_read_back r Hr) as (r1 & r2 & Hfr & Hir).
  destruct (format_02x_read_back g Hg) as (g1 & g2 & Hfg & Hig).
  destruct (format_02x_read_back b Hb) as (b1 & b2 & Hfb & Hib).
  unfold hex_string, channels, py_slice. rewrite Hfr, Hfg, Hfb.
  cbv [String.append String.substring Nat.sub].
  rewrite Hir, Hig, Hib. reflexivity.
Qed.

(** *** A palette of one colour *)

Lemma spec_blend_same (c : Z) : spec_blend c c 0%Qc = c.
Proof.
  unfold spec_blend. rewrite <- py_int_round_toward_zero.
  replace ((1 - 0) * Qc_of_Z c + 0 * Qc_of_Z c)%Qc with (Qc_of_Z c) by ring.
  apply py_int_Qc_of_Z.
Qed.

Lemma single_palette_position (p : Params) (c : string) (depth : Z) :
  leaf_colors p = [c] ->
  spec_lower_index p depth = 0 /\ spec_upper_index p depth = 0
  /\ spec_fraction p depth = 0%Qc.
Proof.
  intros Hp.
  assert (Hpos : spec_position p depth = 0%Qc).
  { unfold spec_position, palette_size. rewrite Hp. cbn [length].
    change (Z.of_nat 1 - 1) with 0. rewrite Z2Qc_inj_0. ring. }
  assert (Hlow : spec_lower_index p depth = 0).
  { unfold spec_lower_index. rewrite Hpos. reflexivity. }
  split; [exact Hlow|]. split.
  - unfold spec_upper_index, palette_size. rewrite Hlow, Hp. reflexivity.
  - unfold spec_fraction. rewrite Hpos, Hlow, Z2Qc_inj_0. ring.
Qed.

(** C9: with a palette of exactly one colour whose channels are [r], [g],
    [b], [get_branch_color] returns the trunk colour at depth 0 and, at
    every depth from 1 on, a colour with the channels [r], [g], [b]: the
    palette entry itself from the maximum depth on, and below it the
    string [hex_string r g b], which is the palette entry again when the
    entry is written with two lower-case digits for each channel. *)
Theorem single_colour_palette (p : Params) (c : string) (r g b depth : Z) :
  leaf_colors p = [c] -> channels c = Ok (r, g, b) ->
  get_branch_color p 0 = Ok (trunk_color p)
  /\ (1 <= depth ->
      exists s,
        get_branch_color p depth = Ok s
        /\ channels s = Ok (r, g, b)
        /\ (max_depth p <= depth -> s = c)
        /\ (depth < max_depth p -> s = hex_string r g b)
        /\ (c = hex_string r g b -> s = c)).
Proof.
  intros Hp Hc. split; [reflexivity|]. intros Hd.
  assert (Hvalid : valid_palette p).
  { split; [rewrite Hp; discriminate|]. intros c' Hc'. rewrite Hp in Hc'.
    apply list_elem_of_singleton in Hc' as ->. eauto. }
  destruct (channels_range c r g b Hc) as (Hr & Hg & Hb).
  destruct (decide (max_depth p <= depth)) as [Hm|Hm].
  - exists c. unfold get_branch_color.
    destruct (decide (depth = 0)); [lia|].
    destruct (decide (max_depth p <= depth)); [|lia].
    rewrite Hp. repeat split; auto. lia.
  - destruct (get_branch_color_between p depth Hvalid ltac:(lia))
      as (c1 & c2 & r1 & g1 & b1 & r2 & g2 & b2
          & _ & _ & Hc1 & Hc2 & Hrgb1 & Hrgb2 & Hget).
    destruct (single_palette_position p c depth Hp) as (Hlow & Hup & Hfr).
    rewrite Hlow, Hp in Hc1. rewrite Hup, Hp in Hc2.
    injection Hc1 as <-. injection Hc2 as <-.
    rewrite Hc in Hrgb1, Hrgb2.
    injection Hrgb1 as <- <- <-. injection Hrgb2 as <- <- <-.
    rewrite Hfr, !spec_blend_same in Hget.
    exists (hex_string r g b). split; [exact Hget|].
    split; [apply channels_hex_string; assumption|].
    repeat split; auto. lia.
Qed.

Section EngineFacts.

Variables math_radians math_cos math_sin : Qc -> Qc.
Variable random_random : nat -> Qc.

Abbreviation grow_child := (grow_child math_radians math_cos math_sin random_random).
Abbreviation grow_children :=
  (grow_children math_radians math_cos math_sin random_random).
Abbreviation grow_one_level :=
  (grow_one_level math_radians math_cos math_sin random_random).
Abbreviation grow_loop := (grow_loop math_radians math_cos math_sin random_random).
Abbreviation grow_full_tree :=
  (grow_full_tree math_radians math_cos math_sin random_random).
Abbreviation child_of := (child_of math_radians math_cos math_sin).
Abbreviation children_of :=
  (children_of math_radians math_cos math_sin random_random).
Abbreviation grown := (grown math_radians math_cos math_sin random_random).
Abbreviation spec_child_end := (spec_child_end math_radians math_cos math_sin).
Abbreviation call := (call math_radians math_cos math_sin random_random).
Abbreviation grow_times :=
  (grow_times math_radians math_cos math_sin random_random).
Abbreviation calls := (calls math_radians math_cos math_sin random_random).

Lemma grow_child_returns st parent acc off th col :
  calculate_thickness (params st) (current_depth st + 1) = Ok th ->
  get_branch_color (params st) (current_depth st + 1) = Ok col ->
  grow_child parent acc off st =
  Returned
    (acc ++ [child_of (params st) (current_depth st) th col parent off
               (next_id st) (random_random (random_state st))
               (random_random (S (random_state st)))])
    (advanced st 1 2).
Proof.
  intros Hth Hcol. unfold grow_child, child_of.
  destruct (Branch.end_ parent) as [px py].
  run_step. rewrite Hth. run_step. rewrite Hcol. run_step.
  unfold advanced. do 2 f_equal. lia.
Qed.

Lemma grow_child_raises st parent acc off e :
  generation_error (params st) (current_depth st + 1) = Some e ->
  grow_child parent acc off st = Raised e (advanced st 0 2).
Proof.
  unfold generation_error, grow_child. intros H.
  destruct (Branch.end_ parent) as [px py]. run_step.
  destruct (calculate_thickness _ _) as [th|e1]; run_step.
  - destruct (get_branch_color _ _) as [col|e2]; [discriminate|].
    injection H as ->. run_step. unfold advanced. do 2 f_equal; lia.
  - injection H as ->. unfold advanced. do 2 f_equal; lia.
Qed.

Lemma grow_children_returns st parent acc th col :
  calculate_thickness (params st) (current_depth st + 1) = Ok th ->
  get_branch_color (params st) (current_depth st + 1) = Ok col ->
  grow_children acc parent st =
  Returned
    (acc ++ children_of (params st) (current_depth st) th col
              [parent] (next_id st) (random_state st))
    (advanced st 2 4).
Proof.
  intros Hth Hcol. unfold grow_children. run_step. cbn [for_each]. run_step.
  rewrite (grow_child_returns st parent acc _ th col Hth Hcol).
  rewrite (grow_child_returns (advanced st 1 2) parent _ _ th col Hth Hcol).
  rewrite advanced_advanced. cbn [children_of advanced next_id random_state].
  rewrite <- app_assoc. cbn [app].
  replace (random_state st + 2)%nat with (S (S (random_state st))) by lia.
  reflexivity.
Qed.

Lemma for_each_parents_returns ps : forall st acc th col,
  calculate_thickness (params st) (current_depth st + 1) = Ok th ->
  get_branch_color (params st) (current_depth st + 1) = Ok col ->
  for_each ps grow_children acc st =
  Returned
    (acc ++ children_of (params st) (current_depth st) th col
              ps (next_id st) (random_state st))
    (advanced st (2 * Z.of_nat (length ps)) (4 * length ps)).
Proof.
  induction ps as [|parent ps IH]; intros st acc th col Hth Hcol.
  - cbn. run_step. rewrite app_nil_r, advanced_0. reflexivity.
  - cbn [for_each]. unfold bind at 1.
    rewrite (grow_children_returns st parent acc th col Hth Hcol).
    rewrite (IH (advanced st 2 4) _ th col Hth Hcol).
    rewrite advanced_advanced. cbn [children_of advanced params current_depth
      next_id random_state length].
    rewrite <- app_assoc. cbn [app].
    replace (4 + random_state st)%nat with (random_state st + 4)%nat by lia.
    do 2 f_equal; lia.
Qed.

Lemma for_each_parents_raises parent ps st acc e :
  generation_error (params st) (current_depth st + 1) = Some e ->
  for_each (parent :: ps) grow_children acc st = Raised e (advanced st 0 2).
Proof.
  intros H. cbn [for_each]. unfold bind at 1, grow_children at 1.
  run_step. cbn [for_each]. unfold bind at 1.
  rewrite (grow_child_raises st parent acc _ e H). reflexivity.
Qed.

Lemma for_each_append new : forall st,
  for_each new
    (fun (_ : unit) branch =>
       do bs <- gets branches ; set_branches (bs ++ [branch])) tt st =
  Returned tt
    {| params := params st; click_count := click_count st;
       current_depth := current_depth st; branches := branches st ++ new;
       next_id := next_id st; tree_center := tree_center st;
       random_state := random_state st |}.
Proof.
  induction new as [|b new IH]; intros st.
  - cbn. run_step. rewrite app_nil_r. destruct st; reflexivity.
  - cbn [for_each]. unfold bind at 1. run_step. rewrite IH. run_step.
    rewrite <- app_assoc. reflexivity.
Qed.

(** *** The four ways a call of [grow_one_level] can end *)

Lemma grow_one_level_empty st :
  branches st = [] -> grow_one_level st = Returned PlantTrunkFirst st.
Proof.
  intros H. unfold grow_one_level. run_step. rewrite H. reflexivity.
Qed.

Lemma grow_one_level_max st :
  branches st <> [] -> max_depth (params st) <= current_depth st ->
  grow_one_level st = Returned MaximumDepthReached st.
Proof.
  intros Hne Hmax. unfold grow_one_level. run_step.
  destruct (decide (length (branches st) = 0%nat)) as [H0|_].
  { destruct (branches st); [congruence | discriminate]. }
  destruct (decide (max_depth (params st) <= current_depth st)); [|lia].
  reflexivity.
Qed.

Lemma grow_one_level_grows st th col :
  branches st <> [] -> current_depth st < max_depth (params st) ->
  calculate_thickness (params st) (current_depth st + 1) = Ok th ->
  get_branch_color (params st) (current_depth st + 1) = Ok col ->
  grow_one_level st = Returned Done (grown st th col).
Proof.
  intros Hne Hlt Hth Hcol. unfold grow_one_level. run_step.
  destruct (decide (length (branches st) = 0%nat)) as [H0|_].
  { destruct (branches st); [congruence | discriminate]. }
  destruct (decide (max_depth (params st) <= current_depth st)); [lia|].
  fold (terminal_branches st).
  rewrite (for_each_parents_returns _ st [] th col Hth Hcol).
  rewrite for_each_append. run_step. unfold advanced, grown.
  cbn [params click_count current_depth branches next_id tree_center
       random_state app].
  reflexivity.
Qed.

Lemma grow_one_level_no_terminal st th col :
  branches st <> [] -> current_depth st < max_depth (params st) ->
  terminal_branches st = [] ->
  grow_one_level st = Returned Done (grown st th col).
Proof.
  intros Hne Hlt Hnil. unfold grow_one_level. run_step.
  destruct (decide (length (branches st) = 0%nat)) as [H0|_].
  { destruct (branches st); [congruence | discriminate]. }
  destruct (decide (max_depth (params st) <= current_depth st)); [lia|].
  fold (terminal_branches st). unfold grown. rewrite Hnil.
  cbn [for_each]. run_step. cbn [children_of length].
  rewrite app_nil_r. do 2 f_equal; lia.
Qed.

Lemma grow_one_level_raises st e :
  branches st <> [] -> current_depth st < max_depth (params st) ->
  terminal_branches st <> [] ->
  generation_error (params st) (current_depth st + 1) = Some e ->
  grow_one_level st = Raised e (advanced st 0 2).
Proof.
  intros Hne Hlt Hterm H. unfold grow_one_level. run_step.
  destruct (decide (length (branches st) = 0%nat)) as [H0|_].
  { destruct (branches st); [congruence | discriminate]. }
  destruct (decide (max_depth (params st) <= current_depth st)); [lia|].
  fold (terminal_branches st).
  destruct (terminal_branches st) as [|parent ps]; [congruence|].
  rewrite (for_each_parents_raises parent ps st [] e H). reflexivity.
Qed.

(** Every call ends in one of these ways. *)
Lemma grow_one_level_cases st :
  (branches st = [] /\ grow_one_level st = Returned PlantTrunkFirst st)
  \/ (branches st <> [] /\ max_depth (params st) <= current_depth st
      /\ grow_one_level st = Returned MaximumDepthReached st)
  \/ (branches st <> [] /\ current_depth st < max_depth (params st)
      /\ exists th col, grow_one_level st = Returned Done (grown st th col))
  \/ (branches st <> [] /\ current_depth st < max_depth (params st)
      /\ exists e, grow_one_level st = Raised e (advanced st 0 2)).
Proof.
  destruct (decide (branches st = [])) as [He|Hne].
  { left. split; [assumption | apply grow_one_level_empty; assumption]. }
  destruct (decide (max_depth (params st) <= current_depth st)) as [Hm|Hm].
  { right; left. repeat split; try assumption.
    apply grow_one_level_max; assumption. }
  assert (Hlt : current_depth st < max_depth (params st)) by lia.
  destruct (decide (terminal_branches st = [])) as [Ht|Ht].
  { right; right; left. repeat split; try assumption.
    exists 0%Qc, EmptyString. apply grow_one_level_no_terminal; assumption. }
  destruct (calculate_thickness (params st) (current_depth st + 1))
    as [th|e] eqn:Hth.
  - destruct (get_branch_color (params st) (current_depth st + 1))
      as [col|e] eqn:Hcol.
    + right; right; left. repeat split; try assumption.
      exists th, col. apply grow_one_level_grows; assumption.
    + right; right; right. repeat split; try assumption.
      exists e. apply grow_one_level_raises; try assumption.
      unfold generation_error. rewrite Hth, Hcol. reflexivity.
  - right; right; right. repeat split; try assumption.
    exists e. apply grow_one_level_raises; try assumption.
    unfold generation_error. rewrite Hth. reflexivity.
Qed.

(** *** Rejected calls *)

(** C4: [grow_one_level] stops with "Please plant trunk first!" exactly when
    the branch list is empty and, when the list is not empty, with "Maximum
    depth reached!" exactly when the depth counter has reached [max_depth];
    a call that stops with either message leaves the whole state as it was,
    and a call that does not run to its end for any reason (a message or an
    exception) leaves the branch list, the depth counter and the identifier
    counter as they were. *)
Theorem grow_one_level_rejections st :
  (reported (grow_one_level st) = Some PlantTrunkFirst <-> branches st = [])
  /\ (branches st <> [] ->
      (reported (grow_one_level st) = Some MaximumDepthReached
       <-> max_depth (params st) <= current_depth st))
  /\ (reported (grow_one_level st) = Some PlantTrunkFirst
      \/ reported (grow_one_level st) = Some MaximumDepthReached ->
      state_of (grow_one_level st) = st)
  /\ (reported (grow_one_level st) <> Some Done ->
      branches (state_of (grow_one_level st)) = branches st
      /\ current_depth (state_of (grow_one_level st)) = current_depth st
      /\ next_id (state_of (grow_one_level st)) = next_id st).
Proof.
  destruct (grow_one_level_cases st)
    as [[He H]|[(Hne & Hm & H)|[(Hne & Hlt & th & col & H)|(Hne & Hlt & e & H)]]];
    rewrite H; cbn [reported state_of];
    repeat split; intros; try discriminate; try congruence; try lia;
    try match goal with
        | Hor : _ \/ _ |- _ => destruct Hor; discriminate
        end.
  unfold advanced; cbn; lia.
Qed.

(** *** The new generation *)

Lemma children_of_length p d th col ps : forall nid r,
  length (children_of p d th col ps nid r) = (2 * length ps)%nat.
Proof.
  induction ps as [|parent ps IH]; intros nid r; cbn [children_of length].
  - reflexivity.
  - rewrite IH. lia.
Qed.

Lemma children_of_lookup p d th col ps : forall nid r k parent,
  ps !! k = Some parent ->
  children_of p d th col ps nid r !! (2 * k)%nat =
    Some (child_of p d th col parent (- angle_variation p)%Qc
            (nid + 2 * Z.of_nat k)
            (random_random (r + 4 * k)) (random_random (r + 4 * k + 1)))
  /\ children_of p d th col ps nid r !! (2 * k + 1)%nat =
    Some (child_of p d th col parent (angle_variation p)
            (nid + 2 * Z.of_nat k + 1)
            (random_random (r + 4 * k + 2)) (random_random (r + 4 * k + 3))).
Proof.
  induction ps as [|q ps IH]; intros nid r k parent Hk; [discriminate|].
  destruct k as [|k].
  - cbn in Hk. injection Hk as ->. cbn [children_of].
    replace (r + 4 * 0)%nat with r by lia.
    replace (r + 1)%nat with (S r) by lia.
    replace (r + 2)%nat with (S (S r)) by lia.
    replace (r + 3)%nat with (S (S (S r))) by lia.
    replace (nid + 2 * Z.of_nat 0) with nid by lia.
    split; reflexivity.
  - cbn in Hk. cbn [children_of].
    replace (2 * S k)%nat with (S (S (2 * k))) by lia.
    replace (S (S (2 * k)) + 1)%nat with (S (S (2 * k + 1))) by lia.
    destruct (IH (nid + 2) (4 + r)%nat k parent Hk) as [H1 H2].
    split.
    + etransitivity; [|etransitivity; [exact H1|]]; [reflexivity|].
      f_equal. f_equal; [lia | f_equal; lia | f_equal; lia].
    + etransitivity; [|etransitivity; [exact H2|]]; [reflexivity|].
      f_equal. f_equal; [lia | f_equal; lia | f_equal; lia].
Qed.

Lemma child_of_geometry p d th col parent offset nid u u' :
  let child := child_of p d th col parent offset nid u u' in
  Branch.parent_id child = Some (Branch.id parent)
  /\ Branch.angle child =
     spec_child_angle parent (spec_jittered_offset offset u (randomness p))
  /\ Branch.length child =
     spec_child_length parent (length_factor p) u' (randomness p)
  /\ Branch.start child = Branch.end_ parent
  /\ Branch.end_ child =
     spec_child_end parent (Branch.length child) (Branch.angle child).
Proof.
  cbv zeta. unfold child_of, spec_child_end, spec_child_angle,
    spec_jittered_offset, spec_child_length.
  cbn [Branch.parent_id Branch.angle Branch.length Branch.start Branch.end_].
  repeat split.
  - f_equal. ring.
  - f_equal; ring.
Qed.

Lemma grow_one_level_done st st' :
  grow_one_level st = Returned Done st' ->
  exists th col, st' = grown st th col.
Proof.
  intros Hrun.
  destruct (grow_one_level_cases st)
    as [[_ H]|[(_ & _ & H)|[(_ & _ & th & col & H)|(_ & _ & e & H)]]];
    rewrite H in Hrun; try discriminate.
  injection Hrun as <-. eauto.
Qed.

(** C1: after a call of [grow_one_level] that ran to its end, the branch
    list is the old list followed by two children for each terminal branch,
    in order.  The child of the [k]-th terminal branch [parent] for the
    offset [-A] (then [+A]) has [parent] as its parent, starts at
    [parent]'s end, has angle [parent.angle + offset * (1 + (U - 0.5) * 2 * R)],
    length [parent.length * lengthFactor * (1 + (U2 - 0.5) * R)] and ends at
    [parent.end + length * (cos(rad(angle)), sin(rad(angle)))] for its own
    angle and length, where [U] and [U2] are two successive samples of the
    random source that no other child uses. *)
Theorem grow_one_level_geometry st st' :
  grow_one_level st = Returned Done st' ->
  exists new_branches,
    branches st' = branches st ++ new_branches
    /\ length new_branches = (2 * length (terminal_branches st))%nat
    /\ forall (k : nat) (parent : Branch.t),
        terminal_branches st !! k = Some parent ->
        forall j : nat, (j < 2)%nat ->
          let A := angle_variation (params st) in
          let R := randomness (params st) in
          let offset := if decide (j = 0%nat) then (- A)%Qc else A in
          let U := random_random (random_state st + 4 * k + 2 * j) in
          let U2 := random_random (random_state st + 4 * k + 2 * j + 1) in
          exists child,
            new_branches !! (2 * k + j)%nat = Some child
            /\ Branch.parent_id child = Some (Branch.id parent)
            /\ Branch.angle child =
               spec_child_angle parent (spec_jittered_offset offset U R)
            /\ Branch.length child =
               spec_child_length parent (length_factor (params st)) U2 R
            /\ Branch.start child = Branch.end_ parent
            /\ Branch.end_ child =
               spec_child_end parent (Branch.length child) (Branch.angle child).
Proof.
  intros Hrun. destruct (grow_one_level_done st st' Hrun) as (th & col & ->).
  eexists. split; [reflexivity|]. split; [apply children_of_length|].
  intros k parent Hk j Hj. cbv zeta.
  destruct (children_of_lookup (params st) (current_depth st) th col
              (terminal_branches st) (next_id st) (random_state st) k parent Hk)
    as [H0 H1].
  destruct (decide (j = 0%nat)) as [->|Hj0].
  - eexists. split.
    + replace (2 * k + 0)%nat with (2 * k)%nat by lia. exact H0.
    + replace (random_state st + 4 * k + 2 * 0)%nat
        with (random_state st + 4 * k)%nat by lia.
      apply child_of_geometry.
  - assert (j = 1%nat) as -> by lia.
    eexists. split.
    + exact H1.
    + replace (random_state st + 4 * k + 2 * 1)%nat
        with (random_state st + 4 * k + 2)%nat by lia.
      replace (random_state st + 4 * k + 2 + 1)%nat
        with (random_state st + 4 * k + 3)%nat by lia.
      apply child_of_geometry.
Qed.

(** *** What the calls do to the state *)

Lemma plant_trunk_state x y st :
  plant_trunk x y st =
  Returned tt {|
    params := params st;
    click_count := click_count st;
    current_depth := 0;
    branches :=
      [{| Branch.id := 0;
          Branch.parent_id := None;
          Branch.start := (x, y);
          Branch.end_ :=
            (x, if upward_angle (params st) then (y - base_length (params st))%Qc
                else (y + base_length (params st))%Qc);
          Branch.depth := 0;
          Branch.length := base_length (params st);
          Branch.angle :=
            if upward_angle (params st) then Qc_of_Z 270 else Qc_of_Z 90;
          Branch.thickness := trunk_thickness (params st);
          Branch.color := trunk_color (params st) |}];
    next_id := 1;
    tree_center := (x, y);
    random_state := random_state st |}.
Proof.
  unfold plant_trunk. run_step.
  destruct (upward_angle (params st)); run_step; reflexivity.
Qed.

Lemma reset_tree_state st :
  reset_tree st =
  Returned tt {|
    params := params st; click_count := 0; current_depth := 0;
    branches := []; next_id := 0; tree_center := tree_center st;
    random_state := random_state st |}.
Proof. reflexivity. Qed.

Lemma grow_one_level_state st :
  state_of (grow_one_level st) = st
  \/ (branches st <> [] /\ current_depth st < max_depth (params st)
      /\ exists th col, grow_one_level st = Returned Done (grown st th col))
  \/ state_of (grow_one_level st) = advanced st 0 2.
Proof.
  destruct (grow_one_level_cases st)
    as [[_ H]|[(_ & _ & H)|[(Hne & Hlt & th & col & H)|(_ & _ & e & H)]]].
  - left. rewrite H. reflexivity.
  - left. rewrite H. reflexivity.
  - right; left. eauto 6.
  - right; right. rewrite H. reflexivity.
Qed.

(** A property of states that survives every way [grow_one_level] can end
    survives the loop of [grow_full_tree]. *)
Lemma grow_loop_preserves (P : FractalTree -> Prop) :
  (forall st th col, P st -> P (grown st th col)) ->
  (forall st, P st -> P (advanced st 0 2)) ->
  forall fuel st, P st -> P (state_of (grow_loop fuel st)).
Proof.
  intros Hgrown Hadv. induction fuel as [|fuel IH]; intros st HP.
  - exact HP.
  - cbn [grow_loop]. run_step.
    destruct (decide (current_depth st < max_depth (params st))); [|exact HP].
    unfold bind.
    destruct (grow_one_level_state st) as [H|[(_ & _ & th & col & H)|H]].
    + destruct (grow_one_level st) as [r st'|e st'] eqn:Hrun;
        cbn [state_of] in H; subst st'; [apply IH|]; exact HP.
    + rewrite H. apply IH, Hgrown, HP.
    + destruct (grow_one_level st) as [r st'|e st'] eqn:Hrun;
        cbn [state_of] in H; subst st'; [apply IH|]; apply Hadv, HP.
Qed.

Lemma call_preserves (P : FractalTree -> Prop) :
  (forall st x y, P (state_of (plant_trunk x y st))) ->
  (forall st, P (state_of (reset_tree st))) ->
  (forall st th col, P st -> P (grown st th col)) ->
  (forall st, P st -> P (advanced st 0 2)) ->
  forall o st, P st -> P (call o st).
Proof.
  intros Hplant Hreset Hgrown Hadv o st HP. destruct o as [x y| | |]; cbn [call].
  - apply Hplant.
  - destruct (grow_one_level_state st) as [H|[(_ & _ & th & col & H)|H]];
      rewrite H; auto. cbn [state_of]. auto.
  - unfold grow_full_tree. run_step.
    destruct (decide (length (branches st) = 0%nat)); [exact HP|].
    apply grow_loop_preserves; assumption.
  - apply Hreset.
Qed.

Lemma calls_preserve (P : FractalTree -> Prop) :
  (forall o st, P st -> P (call o st)) ->
  forall os st, P st -> P (calls os st).
Proof.
  intros Hcall. induction os as [|o os IH]; intros st HP; cbn.
  - exact HP.
  - apply IH, Hcall, HP.
Qed.

(** *** Identifiers and parents *)

Lemma children_of_lookup_inv p d th col ps : forall nid r m c,
  children_of p d th col ps nid r !! m = Some c ->
  exists parent off u u',
    parent ∈ ps
    /\ c = child_of p d th col parent off (nid + Z.of_nat m) u u'.
Proof.
  induction ps as [|q ps IH]; intros nid r m c Hm; [discriminate|].
  cbn [children_of] in Hm. destruct m as [|[|m]].
  - injection Hm as <-. exists q. do 3 eexists. split; [left|].
    f_equal. lia.
  - injection Hm as <-. exists q. do 3 eexists. split; [left|].
    f_equal.
  - change (children_of p d th col ps (nid + 2) (4 + r) !! m = Some c) in Hm.
    destruct (IH _ _ _ _ Hm) as (parent & off & u & u' & Hin & ->).
    exists parent, off, u, u'. split; [right; exact Hin|].
    f_equal. lia.
Qed.

Lemma ids_are_positions_plant st x y :
  ids_are_positions (state_of (plant_trunk x y st)).
Proof.
  rewrite plant_trunk_state. split; [reflexivity|].
  intros [|i] b Hb; [|discriminate]. injection Hb as <-. reflexivity.
Qed.

Lemma ids_are_positions_reset st :
  ids_are_positions (state_of (reset_tree st)).
Proof. split; [reflexivity|]. intros i b Hb. discriminate. Qed.

Lemma ids_are_positions_grown st th col :
  ids_are_positions st -> ids_are_positions (grown st th col).
Proof.
  intros [Hnext Hids]. split.
  - cbn [grown next_id branches]. rewrite length_app, children_of_length. lia.
  - intros i b Hb. cbn [grown branches] in Hb.
    apply lookup_app_Some in Hb as [Hb|[Hle Hb]]; [eauto|].
    apply children_of_lookup_inv in Hb as (parent & off & u & u' & _ & ->).
    unfold child_of. cbn [Branch.id]. lia.
Qed.

Lemma ids_are_positions_advanced st :
  ids_are_positions st -> ids_are_positions (advanced st 0 2).
Proof.
  intros [Hnext Hids]. split; [|exact Hids].
  cbn [advanced next_id branches]. lia.
Qed.

Lemma ids_are_positions_call o st :
  ids_are_positions st -> ids_are_positions (call o st).
Proof.
  apply call_preserves;
    auto using ids_are_positions_plant, ids_are_positions_reset,
      ids_are_positions_grown, ids_are_positions_advanced.
Qed.

Lemma tree_invariant_plant st x y :
  tree_invariant (state_of (plant_trunk x y st)).
Proof.
  split; [apply ids_are_positions_plant|].
  rewrite plant_trunk_state. cbn [state_of current_depth branches].
  split; [lia|].
  intros [|i] b Hb; [|discriminate]. injection Hb as <-.
  left. split; [reflexivity|]. split; reflexivity.
Qed.

Lemma tree_invariant_reset st : tree_invariant (state_of (reset_tree st)).
Proof.
  split; [apply ids_are_positions_reset|]. cbn. split; [lia|].
  intros i b Hb. discriminate.
Qed.

Lemma terminal_branch_position st parent :
  ids_are_positions st -> parent ∈ terminal_branches st ->
  exists j : nat,
    branches st !! j = Some parent
    /\ Branch.id parent = Z.of_nat j
    /\ Branch.depth parent = current_depth st.
Proof.
  intros [_ Hids] Hin. unfold terminal_branches in Hin.
  apply list_elem_of_filter in Hin as [Hdepth Hin].
  apply list_elem_of_lookup in Hin as [j Hj].
  exists j. repeat split; auto.
Qed.

Lemma tree_invariant_grown st th col :
  tree_invariant st -> tree_invariant (grown st th col).
Proof.
  intros (Hids & Hdepth & Hshape).
  split; [apply ids_are_positions_grown, Hids|].
  split; [cbn [grown current_depth]; lia|].
  intros i b Hb. cbn [grown branches] in *.
  apply lookup_app_Some in Hb as [Hb|[Hle Hb]].
  - destruct (Hshape i b Hb) as [?|(Hi & Hd & j & q & Hp & Hq & Hdq)];
      [left; assumption|].
    right. split; [exact Hi|]. split; [exact Hd|].
    exists j, q. repeat split; auto. apply lookup_app_l_Some, Hq.
  - pose proof (lookup_lt_Some _ _ _ Hb) as Hlen.
    apply children_of_lookup_inv in Hb as (parent & off & u & u' & Hin & ->).
    destruct (terminal_branch_position st parent Hids Hin) as (j & Hj & Hid & Hd).
    right. unfold child_of. cbn [Branch.depth Branch.parent_id].
    split.
    { pose proof (lookup_lt_Some _ _ _ Hj). lia. }
    split; [lia|].
    exists j, parent. rewrite Hid. repeat split.
    + apply lookup_app_l_Some, Hj.
    + lia.
Qed.

Lemma tree_invariant_advanced st :
  tree_invariant st -> tree_invariant (advanced st 0 2).
Proof.
  intros (Hids & Hdepth & Hshape).
  split; [apply ids_are_positions_advanced, Hids|].
  split; assumption.
Qed.

Lemma tree_invariant_call o st :
  tree_invariant st -> tree_invariant (call o st).
Proof.
  apply call_preserves;
    auto using tree_invariant_plant, tree_invariant_reset,
      tree_invariant_grown, tree_invariant_advanced.
Qed.

Lemma tree_invariant_new p : tree_invariant (new_tree p).
Proof.
  split; [split; [reflexivity | intros i b Hb; discriminate]|].
  cbn. split; [lia|]. intros i b Hb. discriminate.
Qed.

Lemma find_by_id (bs : list Branch.t) (j : nat) (q : Branch.t) :
  (forall (i : nat) (b : Branch.t), bs !! i = Some b -> Branch.id b = Z.of_nat i) ->
  bs !! j = Some q ->
  list_find (fun x => Branch.id x = Z.of_nat j) bs = Some (j, q).
Proof.
  intros Hids Hj. apply list_find_Some. split; [exact Hj|].
  split; [apply Hids, Hj|].
  intros j' y Hy Hlt Hid. apply Hids in Hy. lia.
Qed.

Lemma climb_reaches_trunk st :
  tree_invariant st ->
  forall (n i : nat) (b : Branch.t),
    branches st !! i = Some b -> Branch.depth b = Z.of_nat n ->
    exists trunk,
      branches st !! 0%nat = Some trunk /\ is_trunk trunk
      /\ climb (branches st) n b = Some trunk.
Proof.
  intros ([_ Hids] & _ & Hshape).
  induction n as [|n IH]; intros i b Hb Hn.
  - destruct (Hshape i b Hb) as [[-> Htrunk]|(_ & Hd & _)]; [|lia].
    exists b. auto.
  - destruct (Hshape i b Hb) as [[_ [Hd _]]|(_ & _ & j & q & Hp & Hq & Hdq)];
      [lia|].
    destruct (IH j q Hq ltac:(lia)) as (trunk & H0 & Htrunk & Hclimb).
    exists trunk. repeat split; try assumption; try apply Htrunk.
    cbn [climb]. rewrite Hp, (find_by_id _ j q Hids Hq). exact Hclimb.
Qed.

Lemma filter_none {A} (P : A -> Prop) `{!forall x, Decision (P x)} (l : list A) :
  (forall x, x ∈ l -> ~ P x) -> filter P l = [].
Proof.
  induction l as [|x l IH]; intros Hl; [reflexivity|].
  rewrite filter_cons_False by (apply Hl; left).
  apply IH. intros y Hy. apply Hl. right. exact Hy.
Qed.

Lemma one_trunk st :
  tree_invariant st -> branches st <> [] ->
  length (filter is_trunk (branches st)) = 1%nat.
Proof.
  intros (_ & _ & Hshape) Hne.
  destruct (branches st) as [|t rest] eqn:Hbs; [congruence|].
  destruct (Hshape 0%nat t eq_refl) as [[_ Ht]|[Hi _]]; [|congruence].
  rewrite filter_cons_True by exact Ht.
  rewrite filter_none; [reflexivity|].
  intros b Hb [Hd _]. apply list_elem_of_lookup in Hb as [i Hi].
  destruct (Hshape (S i) b Hi) as [[Hi0 _]|(_ & Hd1 & _)]; [discriminate|lia].
Qed.

Lemma parent_present st (b : Branch.t) :
  tree_invariant st -> b ∈ branches st -> ~ is_trunk b ->
  has_parent_in (branches st) b.
Proof.
  intros ([_ Hids] & _ & Hshape) Hb Hnt.
  apply list_elem_of_lookup in Hb as [i Hi].
  destruct (Hshape i b Hi) as [[_ Ht]|(_ & _ & j & q & Hp & Hq & Hdq)];
    [contradiction|].
  exists q. split; [eapply list_elem_of_lookup_2, Hq|].
  split; [|exact Hdq]. rewrite (Hids j q Hq). exact Hp.
Qed.

Lemma tree_invariant_calls p os : tree_invariant (calls os (new_tree p)).
Proof.
  apply calls_preserve; [apply tree_invariant_call | apply tree_invariant_new].
Qed.

(** C7: after any sequence of [plant_trunk], [grow_one_level],
    [grow_full_tree] and [reset_tree] calls on a new object, if the branch
    list is not empty then exactly one branch has depth 0 and no parent,
    every other branch has a parent in the list whose depth is one less
    than its own, and following the parent links from any branch, as many
    times as its depth, ends at a branch of depth 0 without parent. *)
Theorem tree_shape p os :
  let st := calls os (new_tree p) in
  branches st <> [] ->
  length (filter is_trunk (branches st)) = 1%nat
  /\ (forall b, b ∈ branches st -> ~ is_trunk b ->
      has_parent_in (branches st) b)
  /\ (forall b, b ∈ branches st ->
      exists trunk,
        trunk ∈ branches st /\ is_trunk trunk
        /\ climb (branches st) (Z.to_nat (Branch.depth b)) b = Some trunk).
Proof.
  intros st Hne. pose proof (tree_invariant_calls p os) as Hinv.
  fold st in Hinv. split; [apply one_trunk; assumption|].
  split; [intros b; apply parent_present; assumption|].
  intros b Hb. apply list_elem_of_lookup in Hb as [i Hi].
  assert (Hd : 0 <= Branch.depth b).
  { destruct Hinv as (_ & _ & Hshape).
    destruct (Hshape i b Hi) as [[_ [Hd _]]|(_ & Hd & _)]; lia. }
  destruct (climb_reaches_trunk st Hinv (Z.to_nat (Branch.depth b)) i b Hi
              ltac:(lia)) as (trunk & H0 & Ht & Hclimb).
  exists trunk. split; [eapply list_elem_of_lookup_2, H0|]. split; assumption.
Qed.

(** C10: a new object has its identifiers at their positions and its next
    identifier equal to the length of the branch list; every call keeps
    this; so it holds after any sequence of calls. *)
Theorem ids_are_positions_always p :
  ids_are_positions (new_tree p)
  /\ (forall o st, ids_are_positions st -> ids_are_positions (call o st))
  /\ (forall os, ids_are_positions (calls os (new_tree p))).
Proof.
  assert (Hnew : ids_are_positions (new_tree p)).
  { split; [reflexivity|]. intros i b Hb. discriminate. }
  split; [exact Hnew|]. split; [apply ids_are_positions_call|].
  intros os. apply calls_preserve; [apply ids_are_positions_call | exact Hnew].
Qed.

(** *** Planting *)

(** C3: [plant_trunk x y] returns, whatever the state before.  It leaves a
    branch list of exactly one branch: identifier 0, no parent, depth 0,
    from [(x, y)] to [(x, y - base_length)] at angle 270 when the growth
    direction is upward and to [(x, y + base_length)] at angle 90 otherwise,
    with length [base_length], thickness [trunk_thickness] and colour
    [trunk_color].  The depth counter is 0, the identifier counter has been
    reset and stands at 1 after the trunk took identifier 0, and [(x, y)]
    is recorded as the centre of the tree. *)
Theorem plant_trunk_spec (x y : Qc) (st : FractalTree) :
  exists trunk st',
    plant_trunk x y st = Returned tt st'
    /\ branches st' = [trunk]
    /\ current_depth st' = 0
    /\ next_id st' = 1
    /\ tree_center st' = (x, y)
    /\ params st' = params st
    /\ Branch.id trunk = 0
    /\ Branch.parent_id trunk = None
    /\ Branch.depth trunk = 0
    /\ Branch.start trunk = (x, y)
    /\ Branch.end_ trunk =
       (if upward_angle (params st) then (x, (y - base_length (params st))%Qc)
        else (x, (y + base_length (params st))%Qc))
    /\ Branch.angle trunk =
       (if upward_angle (params st) then Qc_of_Z 270 else Qc_of_Z 90)
    /\ Branch.length trunk = base_length (params st)
    /\ Branch.thickness trunk = trunk_thickness (params st)
    /\ Branch.color trunk = trunk_color (params st).
Proof.
  do 2 eexists. split; [apply plant_trunk_state|].
  cbn [branches current_depth next_id tree_center params].
  repeat (split; [reflexivity|]).
  cbn [Branch.end_ Branch.angle Branch.length Branch.thickness Branch.color].
  destruct (upward_angle (params st)); repeat split; reflexivity.
Qed.

(** *** Full levels *)

Lemma sum_of_powers_closed (d : nat) : sum_of_powers d = 2 ^ Z.of_nat (S d) - 1.
Proof.
  induction d as [|d IH]; [reflexivity|].
  cbn [sum_of_powers]. rewrite IH.
  rewrite (Nat2Z.inj_succ (S d)), Z.pow_succ_r by lia. lia.
Qed.

Lemma filter_all {A} (P : A -> Prop) `{!forall x, Decision (P x)} (l : list A) :
  (forall x, x ∈ l -> P x) -> filter P l = l.
Proof.
  induction l as [|x l IH]; intros Hl; [reflexivity|].
  rewrite filter_cons_True by (apply Hl; left).
  f_equal. apply IH. intros y Hy. apply Hl. right. exact Hy.
Qed.

Lemma children_of_depth p d th col ps nid r c :
  c ∈ children_of p d th col ps nid r -> Branch.depth c = d + 1.
Proof.
  intros Hc. apply list_elem_of_lookup in Hc as [m Hm].
  apply children_of_lookup_inv in Hm as (parent & off & u & u' & _ & ->).
  reflexivity.
Qed.

Lemma full_levels_plant x y st :
  full_levels 0 (state_of (plant_trunk x y st)).
Proof.
  rewrite plant_trunk_state. cbn [state_of]. unfold full_levels.
  cbn [current_depth branches].
  split; [reflexivity|]. split; [reflexivity|]. split.
  - intros k Hk. assert (k = 0%nat) as -> by lia. reflexivity.
  - intros b Hb. apply list_elem_of_singleton in Hb as ->. cbn. lia.
Qed.

Lemma full_levels_grown n st th col :
  full_levels n st -> full_levels (S n) (grown st th col).
Proof.
  intros (Hd & Hlen & Hcount & Hdepths).
  assert (Hterm : Z.of_nat (length (terminal_branches st)) = 2 ^ Z.of_nat n).
  { unfold terminal_branches. rewrite Hd. apply (Hcount n). lia. }
  assert (Hpow : 2 ^ Z.of_nat (S n) = 2 * 2 ^ Z.of_nat n).
  { rewrite Nat2Z.inj_succ, Z.pow_succ_r by lia. reflexivity. }
  unfold full_levels. cbn [grown current_depth branches].
  split; [lia|]. split; [|split].
  - rewrite length_app, children_of_length. cbn [sum_of_powers]. lia.
  - intros k Hk. unfold branches_at_depth. cbn [grown branches].
    rewrite filter_app, length_app.
    destruct (decide (k = S n)) as [->|Hne].
    + rewrite filter_none.
      2:{ intros b Hb Hdb. apply Hdepths in Hb. lia. }
      rewrite filter_all.
      2:{ intros c Hc. apply children_of_depth in Hc. lia. }
      rewrite children_of_length. cbn [length]. lia.
    + rewrite (filter_none _ (children_of _ _ _ _ _ _ _)).
      2:{ intros c Hc Hdc. apply children_of_depth in Hc. lia. }
      cbn [length]. rewrite Nat.add_0_r. apply (Hcount k). lia.
  - intros b Hb. apply elem_of_app in Hb as [Hb|Hb].
    + apply Hdepths in Hb. lia.
    + apply children_of_depth in Hb. lia.
Qed.

Lemma full_levels_nonempty n st : full_levels n st -> branches st <> [].
Proof.
  intros (_ & Hlen & _) Hnil. rewrite Hnil, sum_of_powers_closed in Hlen.
  cbn [length] in Hlen.
  assert (0 < 2 ^ Z.of_nat (S n)) by (apply Z.pow_pos_nonneg; lia).
  assert (2 ^ Z.of_nat (S n) <> 1).
  { rewrite Nat2Z.inj_succ, Z.pow_succ_r by lia.
    assert (0 < 2 ^ Z.of_nat n) by (apply Z.pow_pos_nonneg; lia). lia. }
  lia.
Qed.

Lemma grow_times_full n : forall m st,
  valid_palette (params st) ->
  Z.of_nat (m + n) <= max_depth (params st) ->
  full_levels m st ->
  exists st',
    grow_times n st = Returned (replicate n Done) st'
    /\ params st' = params st
    /\ full_levels (m + n) st'.
Proof.
  induction n as [|n IH]; intros m st Hvalid Hmax Hfull.
  - exists st. rewrite Nat.add_0_r. auto.
  - pose proof Hfull as (Hd & _).
    destruct (get_branch_color_returns (params st) (current_depth st + 1) Hvalid
                ltac:(lia)) as [col Hcol].
    assert (Hth : exists th,
      calculate_thickness (params st) (current_depth st + 1) = Ok th).
    { unfold calculate_thickness. rewrite py_pow_nonneg by lia. eauto. }
    destruct Hth as [th Hth].
    pose proof (grow_one_level_grows st th col
                  (full_levels_nonempty m st Hfull) ltac:(lia) Hth Hcol) as Hrun.
    destruct (IH (S m) (grown st th col) Hvalid ltac:(cbn [grown params]; lia)
                (full_levels_grown m st th col Hfull))
      as (st' & Hrest & Hparams & Hfull').
    exists st'. cbn [grow_times]. unfold bind at 1. rewrite Hrun.
    unfold bind at 1. rewrite Hrest. cbn [replicate].
    replace (m + S n)%nat with (S m + n)%nat by lia. auto.
Qed.

(** C2: with a valid palette and [max_depth = d], [plant_trunk] followed by
    [d] calls of [grow_one_level] returns, every call running to its end;
    afterwards the depth counter is [d], the branch list holds
    [2^0 + ... + 2^d] branches, and [2^k] of them are at depth [k] for every
    [k] from 0 to [d]. *)
Theorem grown_tree_size (d : nat) (x y : Qc) (st : FractalTree) :
  valid_palette (params st) -> max_depth (params st) = Z.of_nat d ->
  exists st',
    (plant_trunk x y ;; grow_times d) st = Returned (replicate d Done) st'
    /\ current_depth st' = Z.of_nat d
    /\ Z.of_nat (length (branches st')) = sum_of_powers d
    /\ forall k : nat, (k <= d)%nat ->
         Z.of_nat (length (branches_at_depth st' (Z.of_nat k))) = 2 ^ Z.of_nat k.
Proof.
  intros Hvalid Hmax.
  pose proof (full_levels_plant x y st) as Hfull.
  assert (Hparams : params (state_of (plant_trunk x y st)) = params st)
    by (rewrite plant_trunk_state; reflexivity).
  destruct (grow_times_full d 0%nat (state_of (plant_trunk x y st))
              ltac:(rewrite Hparams; exact Hvalid)
              ltac:(rewrite Hparams; cbn [Nat.add]; lia) Hfull)
    as (st' & Hrun & _ & (Hd & Hlen & Hcount & _)).
  exists st'. unfold bind at 1.
  rewrite plant_trunk_state in Hrun |- *. cbn [state_of] in Hrun.
  rewrite Hrun. auto.
Qed.

(** *** The loop of [grow_full_tree] comes to its end *)

(** With at least [max_depth - current_depth] rounds of fuel the loop stops
    because its condition has become false, unless a call raised. *)
Lemma grow_loop_exits fuel : forall st,
  branches st <> [] ->
  max_depth (params st) - current_depth st <= Z.of_nat fuel ->
  match grow_loop fuel st with
  | Returned r st' => r = Done /\ max_depth (params st') <= current_depth st'
  | Raised _ _ => True
  end.
Proof.
  induction fuel as [|fuel IH]; intros st Hne Hfuel.
  - cbn. split; [reflexivity | lia].
  - cbn [grow_loop]. run_step.
    destruct (decide (current_depth st < max_depth (params st))) as [Hlt|Hge];
      [|split; [reflexivity | lia]].
    unfold bind.
    destruct (grow_one_level_cases st)
      as [[He _]|[(_ & Hm & _)|[(_ & _ & th & col & H)|(_ & _ & e & H)]]];
      [congruence | lia | |]; rewrite H; [|exact I].
    apply IH.
    + cbn [grown branches]. intros Happ. apply app_eq_nil in Happ as [? _].
      congruence.
    + cbn [grown params current_depth]. lia.
Qed.

Lemma grow_full_tree_exits st :
  match grow_full_tree st with
  | Returned PlantTrunkFirst st' => branches st = [] /\ st' = st
  | Returned MaximumDepthReached _ => False
  | Returned Done st' => max_depth (params st') <= current_depth st'
  | Raised _ _ => True
  end.
Proof.
  unfold grow_full_tree. run_step.
  destruct (decide (length (branches st) = 0%nat)) as [H0|Hne].
  { split; [|reflexivity]. destruct (branches st); [reflexivity|discriminate]. }
  assert (Hne' : branches st <> []) by (intros H; rewrite H in Hne; auto).
  pose proof (grow_loop_exits
                (Z.to_nat (max_depth (params st) - current_depth st)) st Hne'
                ltac:(lia)) as Hexit.
  destruct (grow_loop _ st) as [r st'|e st']; [|exact I].
  destruct Hexit as [-> Hexit]. exact Hexit.
Qed.

Lemma grow_one_level_params st :
  params (state_of (grow_one_level st)) = params st.
Proof.
  destruct (grow_one_level_state st) as [H|[(_ & _ & th & col & H)|H]];
    rewrite H; reflexivity.
Qed.

Lemma call_params o st : params (call o st) = params st.
Proof.
  destruct o as [x y| | |]; cbn [call].
  - rewrite plant_trunk_state. reflexivity.
  - apply grow_one_level_params.
  - unfold grow_full_tree. run_step.
    destruct (decide (length (branches st) = 0%nat)); [reflexivity|].
    apply (grow_loop_preserves (fun s => params s = params st)); auto.
  - reflexivity.
Qed.

End EngineFacts.

(** ** Two runs with different random samples *)

Section Determinism.

Variables math_radians math_cos math_sin : Qc -> Qc.
Variables random1 random2 : nat -> Qc.

Abbreviation grow1 := (grow_one_level math_radians math_cos math_sin random1).
Abbreviation grow2 := (grow_one_level math_radians math_cos math_sin random2).
Abbreviation loop1 := (grow_loop math_radians math_cos math_sin random1).
Abbreviation loop2 := (grow_loop math_radians math_cos math_sin random2).
Abbreviation call1 := (call math_radians math_cos math_sin random1).
Abbreviation call2 := (call math_radians math_cos math_sin random2).
Abbreviation calls1 := (calls math_radians math_cos math_sin random1).
Abbreviation calls2 := (calls math_radians math_cos math_sin random2).

Lemma child_of_without_randomness p d th col parent off nid u u' v v' :
  randomness p = 0%Qc ->
  child_of math_radians math_cos math_sin p d th col parent off nid u u' =
  child_of math_radians math_cos math_sin p d th col parent off nid v v'.
Proof.
  intros Hr. unfold child_of. rewrite Hr.
  assert (Hangle : forall w : Qc,
    (off * (1 + (w - qc 1 2) * 0 * Qc_of_Z 2))%Qc = off) by (intros w; ring).
  assert (Hlength : forall w : Qc,
    (Branch.length parent * length_factor p * (1 + (w - qc 1 2) * 0))%Qc =
    (Branch.length parent * length_factor p)%Qc) by (intros w; ring).
  rewrite !Hangle, !Hlength. reflexivity.
Qed.

Lemma children_of_without_randomness p d th col ps : forall nid r,
  randomness p = 0%Qc ->
  children_of math_radians math_cos math_sin random1 p d th col ps nid r =
  children_of math_radians math_cos math_sin random2 p d th col ps nid r.
Proof.
  induction ps as [|parent ps IH]; intros nid r Hr; [reflexivity|].
  cbn [children_of]. rewrite (IH _ _ Hr).
  f_equal; [|f_equal]; apply child_of_without_randomness, Hr.
Qed.

Lemma grown_without_randomness st th col :
  randomness (params st) = 0%Qc ->
  grown math_radians math_cos math_sin random1 st th col =
  grown math_radians math_cos math_sin random2 st th col.
Proof.
  intros Hr. unfold grown.
  rewrite (children_of_without_randomness _ _ _ _ _ _ _ Hr). reflexivity.
Qed.

Lemma grow_one_level_without_randomness st :
  randomness (params st) = 0%Qc -> grow1 st = grow2 st.
Proof.
  intros Hr.
  destruct (decide (branches st = [])) as [He|Hne].
  { rewrite !grow_one_level_empty by assumption. reflexivity. }
  destruct (decide (max_depth (params st) <= current_depth st)) as [Hm|Hm].
  { rewrite !grow_one_level_max by assumption. reflexivity. }
  assert (Hlt : current_depth st < max_depth (params st)) by lia.
  destruct (decide (terminal_branches st = [])) as [Ht|Ht].
  { rewrite !(grow_one_level_no_terminal _ _ _ _ st 0%Qc EmptyString)
      by assumption.
    rewrite grown_without_randomness by assumption. reflexivity. }
  destruct (generation_error (params st) (current_depth st + 1)) as [e|] eqn:Hg.
  - rewrite !(grow_one_level_raises _ _ _ _ st e) by assumption. reflexivity.
  - unfold generation_error in Hg.
    destruct (calculate_thickness _ _) as [th|] eqn:Hth; [|discriminate].
    destruct (get_branch_color _ _) as [col|] eqn:Hcol; [|discriminate].
    rewrite !(grow_one_level_grows _ _ _ _ st th col) by assumption.
    rewrite grown_without_randomness by assumption. reflexivity.
Qed.

Lemma grow_loop_without_randomness fuel : forall st,
  randomness (params st) = 0%Qc -> loop1 fuel st = loop2 fuel st.
Proof.
  induction fuel as [|fuel IH]; intros st Hr; [reflexivity|].
  cbn [grow_loop]. run_step.
  destruct (decide (current_depth st < max_depth (params st))); [|reflexivity].
  unfold bind. rewrite <- (grow_one_level_without_randomness st Hr).
  pose proof (grow_one_level_params math_radians math_cos math_sin random1 st)
    as Hp.
  destruct (grow1 st) as [r st'|e st']; [|reflexivity].
  apply IH. cbn [state_of] in Hp. rewrite Hp. exact Hr.
Qed.

Lemma call_without_randomness o st :
  randomness (params st) = 0%Qc -> call1 o st = call2 o st.
Proof.
  intros Hr. destruct o as [x y| | |]; cbn [call].
  - reflexivity.
  - rewrite (grow_one_level_without_randomness st Hr). reflexivity.
  - unfold grow_full_tree. run_step.
    destruct (decide (length (branches st) = 0%nat)); [reflexivity|].
    rewrite (grow_loop_without_randomness _ st Hr). reflexivity.
  - reflexivity.
Qed.

Lemma calls_without_randomness os : forall st,
  randomness (params st) = 0%Qc -> calls1 os st = calls2 os st.
Proof.
  induction os as [|o os IH]; intros st Hr; [reflexivity|].
  cbn [calls fold_left].
  rewrite <- (call_without_randomness o st Hr).
  apply IH. rewrite call_params. exact Hr.
Qed.

(** C8: with [randomness = 0], two objects created with the same parameters
    and given the same sequence of calls (so the same planting points) end
    in the same state, whatever samples their random sources deliver: the
    branch lists are equal, branch for branch, in the same order. *)
Theorem deterministic_without_randomness (p : Params) (os : list op) :
  randomness p = 0%Qc ->
  calls1 os (new_tree p) = calls2 os (new_tree p)
  /\ branches (calls1 os (new_tree p)) = branches (calls2 os (new_tree p)).
Proof.
  intros Hr.
  assert (H : calls1 os (new_tree p) = calls2 os (new_tree p))
    by (apply calls_without_randomness; exact Hr).
  split; [exact H | rewrite H; reflexivity].
Qed.

End Determinism.

(** ** More on colours *)

Lemma lerp_between_up (a b : Z) (f : Qc) :
  (0 <= f)%Qc -> (f <= 1)%Qc -> a <= b ->
  (Qc_of_Z a <= Qc_of_Z a + Qc_of_Z (b - a) * f)%Qc
  /\ (Qc_of_Z a + Qc_of_Z (b - a) * f <= Qc_of_Z b)%Qc.
Proof.
  intros Hf0 Hf1 Hab.
  pose proof (Qc_of_Z_nonneg (b - a) ltac:(lia)) as Hx.
  split.
  - rewrite <- (Qcplus_0_r (Qc_of_Z a)) at 1.
    apply Qcplus_le_mono_l, Qcmult_nonneg_nonneg; assumption.
  - replace (Qc_of_Z b) with (Qc_of_Z a + Qc_of_Z (b - a) * 1)%Qc.
    + apply Qcplus_le_mono_l, Qcmult_le_mono_nonneg_l; assumption.
    + rewrite Qcmult_1_r, <- Z2Qc_inj_add. f_equal. lia.
Qed.

Lemma lerp_between_down (a b : Z) (f : Qc) :
  (0 <= f)%Qc -> (f <= 1)%Qc -> b <= a ->
  (Qc_of_Z b <= Qc_of_Z a + Qc_of_Z (b - a) * f)%Qc
  /\ (Qc_of_Z a + Qc_of_Z (b - a) * f <= Qc_of_Z a)%Qc.
Proof.
  intros Hf0 Hf1 Hba.
  pose proof (Qc_of_Z_nonneg (a - b) ltac:(lia)) as Hy.
  assert (Hx : Qc_of_Z (b - a) = (- Qc_of_Z (a - b))%Qc).
  { rewrite <- Z2Qc_inj_opp. f_equal. lia. }
  rewrite Hx.
  assert (H0 : (0 <= Qc_of_Z (a - b) * f)%Qc)
    by (apply Qcmult_nonneg_nonneg; assumption).
  assert (H1 : (Qc_of_Z (a - b) * f <= Qc_of_Z (a - b))%Qc).
  { rewrite <- (Qcmult_1_r (Qc_of_Z (a - b))) at 2.
    apply Qcmult_le_mono_nonneg_l; assumption. }
  replace (- Qc_of_Z (a - b) * f)%Qc with (- (Qc_of_Z (a - b) * f))%Qc by ring.
  split.
  - replace (Qc_of_Z b) with (Qc_of_Z a + - Qc_of_Z (a - b))%Qc.
    + apply Qcplus_le_mono_l, Qcopp_le_compat, H1.
    + rewrite <- Z2Qc_inj_opp, <- Z2Qc_inj_add. f_equal. lia.
  - rewrite <- (Qcplus_0_r (Qc_of_Z a)) at 2.
    apply Qcplus_le_mono_l. change 0%Qc with (- 0)%Qc.
    apply Qcopp_le_compat, H0.
Qed.

Lemma py_int_between (lo hi : Z) (v : Qc) :
  0 <= lo -> (Qc_of_Z lo <= v)%Qc -> (v <= Qc_of_Z hi)%Qc ->
  lo <= py_int v <= hi.
Proof.
  intros Hlo Hv1 Hv2.
  assert (H0 : (0 <= v)%Qc)
    by (eapply Qcle_trans; [apply Qc_of_Z_nonneg, Hlo | exact Hv1]).
  rewrite (py_int_floor v H0). split.
  - rewrite <- (Qfloor_Z lo). apply Qfloor_resp_le. exact Hv1.
  - rewrite <- (Qfloor_Z hi). apply Qfloor_resp_le. exact Hv2.
Qed.

Lemma channel_between (a b : Z) (f : Qc) :
  0 <= a -> 0 <= b -> (0 <= f)%Qc -> (f <= 1)%Qc ->
  Z.min a b <= py_int (Qc_of_Z a + Qc_of_Z (b - a) * f)%Qc <= Z.max a b.
Proof.
  intros Ha Hb Hf0 Hf1. destruct (Z.le_ge_cases a b) as [Hab|Hba].
  - destruct (lerp_between_up a b f Hf0 Hf1 Hab) as [H1 H2].
    rewrite Z.min_l, Z.max_r by lia. apply py_int_between; assumption.
  - destruct (lerp_between_down a b f Hf0 Hf1 Hba) as [H1 H2].
    rewrite Z.min_r, Z.max_l by lia. apply py_int_between; assumption.
Qed.

Lemma channel_at_0 (a b : Z) : py_int (Qc_of_Z a + Qc_of_Z (b - a) * 0)%Qc = a.
Proof.
  replace (Qc_of_Z a + Qc_of_Z (b - a) * 0)%Qc with (Qc_of_Z a) by ring.
  apply py_int_Qc_of_Z.
Qed.

Lemma channel_at_1 (a b : Z) : py_int (Qc_of_Z a + Qc_of_Z (b - a) * 1)%Qc = b.
Proof.
  replace (Qc_of_Z a + Qc_of_Z (b - a) * 1)%Qc with (Qc_of_Z b).
  - apply py_int_Qc_of_Z.
  - rewrite Qcmult_1_r, <- Z2Qc_inj_add. f_equal. lia.
Qed.

(** X1: for two colours whose channels can be read and a factor between 0
    and 1, [interpolate_color] returns a colour string that can itself be
    read back, channel by channel, and each of its channels lies between the
    corresponding channels of the two colours; at factor 0 the channels are
    those of the first colour, at factor 1 those of the second. *)
Theorem interpolate_color_between (c1 c2 : string) (r1 g1 b1 r2 g2 b2 : Z)
    (factor : Qc) :
  channels c1 = Ok (r1, g1, b1) -> channels c2 = Ok (r2, g2, b2) ->
  (0 <= factor)%Qc -> (factor <= 1)%Qc ->
  exists r g b,
    interpolate_color c1 c2 factor = Ok (hex_string r g b)
    /\ channels (hex_string r g b) = Ok (r, g, b)
    /\ Z.min r1 r2 <= r <= Z.max r1 r2
    /\ Z.min g1 g2 <= g <= Z.max g1 g2
    /\ Z.min b1 b2 <= b <= Z.max b1 b2
    /\ (factor = 0%Qc -> (r, g, b) = (r1, g1, b1))
    /\ (factor = 1%Qc -> (r, g, b) = (r2, g2, b2)).
Proof.
  intros Hc1 Hc2 Hf0 Hf1.
  destruct (channels_range c1 r1 g1 b1 Hc1) as (Hr1 & Hg1 & Hb1).
  destruct (channels_range c2 r2 g2 b2 Hc2) as (Hr2 & Hg2 & Hb2).
  pose proof (channel_between r1 r2 factor ltac:(lia) ltac:(lia) Hf0 Hf1) as Hr.
  pose proof (channel_between g1 g2 factor ltac:(lia) ltac:(lia) Hf0 Hf1) as Hg.
  pose proof (channel_between b1 b2 factor ltac:(lia) ltac:(lia) Hf0 Hf1) as Hb.
  do 3 eexists. split.
  { unfold interpolate_color. rewrite Hc1, Hc2. cbn [rbind]. reflexivity. }
  split; [apply channels_hex_string; lia|].
  repeat (split; [assumption|]). split.
  - intros ->. rewrite !channel_at_0. reflexivity.
  - intros ->. rewrite !channel_at_1. reflexivity.
Qed.

(** *** An empty palette *)

Lemma py_getitem_nil {A} (i : Z) : py_getitem (@nil A) i = Raise IndexError.
Proof.
  unfold py_getitem. cbn [length].
  destruct (decide (i < 0)); destruct (decide _); reflexivity.
Qed.

Lemma empty_palette_raises_from_1 (p : Params) (depth : Z) :
  leaf_colors p = [] -> 1 <= depth -> get_branch_color p depth = Raise IndexError.
Proof.
  intros He Hd. unfold get_branch_color, py_truediv.
  destruct (decide (depth = 0)); [lia|]. rewrite He.
  destruct (decide (max_depth p <= depth)); [apply py_getitem_nil|].
  destruct (decide (max_depth p = 0)); [lia|]. cbn [rbind].
  rewrite py_getitem_nil. reflexivity.
Qed.

(** ** Double precision *)

(** *** Powers of two *)

Lemma pow2_nonneg_exp (e : Z) : 0 <= e -> pow2 e = Qc_of_Z (2 ^ e).
Proof. intros H. unfold pow2. destruct (decide (0 <= e)); [reflexivity|lia]. Qed.

Lemma Qc_of_Z_nonzero (n : Z) : n <> 0 -> Qc_of_Z n <> 0%Qc.
Proof. intros H E. rewrite <- Z2Qc_inj_0 in E. apply Z2Qc_inj in E. lia. Qed.

Lemma pow2_scale (e n : Z) :
  0 <= n -> 0 <= n + e -> (pow2 e * Qc_of_Z (2 ^ n) = Qc_of_Z (2 ^ (n + e)))%Qc.
Proof.
  intros Hn Hne. unfold pow2. destruct (decide (0 <= e)).
  - rewrite <- Z2Qc_inj_mul, <- Z.pow_add_r by lia. f_equal. f_equal. lia.
  - replace n with ((n + e) + (- e)) at 1 by lia.
    rewrite Z.pow_add_r, Z2Qc_inj_mul by lia.
    assert (Hnz : Qc_of_Z (2 ^ (- e)) <> 0%Qc).
    { apply Qc_of_Z_nonzero. apply Z.pow_nonzero; lia. }
    field. exact Hnz.
Qed.

Lemma pow2_pos (e : Z) : (0 < pow2 e)%Qc.
Proof.
  unfold pow2. destruct (decide (0 <= e)).
  - apply Qc_of_Z_pos. apply Z.pow_pos_nonneg; lia.
  - apply Qcinv_pos, Qc_of_Z_pos. apply Z.pow_pos_nonneg; lia.
Qed.

Lemma pow2_nonzero (e : Z) : pow2 e <> 0%Qc.
Proof.
  intros E. pose proof (pow2_pos e) as H. rewrite E in H.
  revert H. apply Qcle_not_lt, Qcle_refl.
Qed.

Lemma Qcmult_cancel_r (x y c : Qc) : c <> 0%Qc -> (x * c = y * c)%Qc -> x = y.
Proof.
  intros Hc E.
  rewrite <- (Qcmult_1_r x), <- (Qcmult_1_r y), <- (Qcmult_inv_r c Hc).
  rewrite !Qcmult_assoc, E. reflexivity.
Qed.

Lemma pow2_add (a b : Z) : pow2 (a + b) = (pow2 a * pow2 b)%Qc.
Proof.
  set (n := Z.abs a + Z.abs b).
  apply Qcmult_cancel_r with (Qc_of_Z (2 ^ n) * Qc_of_Z (2 ^ n))%Qc.
  { intros E. apply Qcmult_integral in E.
    destruct E as [E|E]; revert E; apply Qc_of_Z_nonzero, Z.pow_nonzero; lia. }
  replace (pow2 a * pow2 b * (Qc_of_Z (2 ^ n) * Qc_of_Z (2 ^ n)))%Qc
    with ((pow2 a * Qc_of_Z (2 ^ n)) * (pow2 b * Qc_of_Z (2 ^ n)))%Qc by ring.
  rewrite !pow2_scale by lia.
  rewrite <- Z2Qc_inj_mul, <- Z.pow_add_r by lia.
  rewrite <- Z2Qc_inj_mul, <- Z.pow_add_r by lia.
  rewrite pow2_scale by lia. f_equal. f_equal. lia.
Qed.

Lemma pow2_0 : pow2 0 = 1%Qc.
Proof. apply Qc_is_canon. reflexivity. Qed.

Lemma pow2_inv_l (e : Z) : (pow2 (- e) * pow2 e = 1)%Qc.
Proof. rewrite <- pow2_add. replace (- e + e) with 0 by lia. apply pow2_0. Qed.

Lemma pow2_div (x : Qc) (e : Z) : (x / pow2 e = x * pow2 (- e))%Qc.
Proof.
  apply Qcmult_cancel_r with (pow2 e); [apply pow2_nonzero|].
  unfold Qcdiv. rewrite <- !Qcmult_assoc, pow2_inv_l.
  rewrite (Qcmult_comm (/ pow2 e)), Qcmult_inv_r by apply pow2_nonzero.
  reflexivity.
Qed.

Lemma pow2_one_le (e : Z) : 0 <= e -> (1 <= pow2 e)%Qc.
Proof.
  intros H. rewrite pow2_nonneg_exp by exact H. rewrite <- Z2Qc_inj_1.
  apply Qc_of_Z_le. pose proof (Z.pow_pos_nonneg 2 e). lia.
Qed.

Lemma pow2_mono (a b : Z) : a <= b -> (pow2 a <= pow2 b)%Qc.
Proof.
  intros H. replace b with (a + (b - a)) by lia. rewrite pow2_add.
  rewrite <- (Qcmult_1_r (pow2 a)) at 1.
  apply Qcmult_le_mono_nonneg_l; [apply Qclt_le_weak, pow2_pos|].
  apply pow2_one_le. lia.
Qed.

Lemma pow2_lt (a b : Z) : a < b -> (pow2 a < pow2 b)%Qc.
Proof.
  intros H. replace b with (a + (b - a)) by lia. rewrite pow2_add.
  rewrite <- (Qcmult_1_r (pow2 a)) at 1.
  apply Qcmult_lt_mono_pos_l; [apply pow2_pos|].
  rewrite pow2_nonneg_exp by lia. rewrite <- Z2Qc_inj_1.
  apply (proj1 (Z2Qc_inj_lt _ _)).
  pose proof (Z.pow_gt_1 2 (b - a)). lia.
Qed.

(** *** The order of magnitude *)

Lemma Qc_num_den (x : Qc) :
  (x * Qc_of_Z (Zpos (Qden x)) = Qc_of_Z (Qnum x))%Qc.
Proof.
  apply Qc_is_canon. unfold Qc_of_Z. cbn. rewrite Qred_correct.
  destruct x as [[n d] Hc]. unfold Qeq, Qmult, inject_Z. cbn. lia.
Qed.

Lemma Qc_pos_num (x : Qc) : (0 < x)%Qc -> 0 < Qnum x.
Proof. unfold Qclt, Qlt. change (this 0%Qc) with 0%Q. cbn. lia. Qed.

Lemma ilog2_spec (x : Qc) :
  (0 < x)%Qc -> (pow2 (ilog2 x) <= x)%Qc /\ (x < pow2 (ilog2 x + 1))%Qc.
Proof.
  intros Hx. pose proof (Qc_pos_num x Hx) as Hn.
  pose proof (Qc_num_den x) as Hnd.
  set (n := Qnum x) in *. set (d := Zpos (Qden x)) in *.
  assert (Hd : 0 < d) by (unfold d; lia).
  destruct (Z.log2_spec n Hn) as [Hn1 Hn2].
  destruct (Z.log2_spec d Hd) as [Hd1 Hd2].
  pose proof (Z.log2_nonneg n) as Hln. pose proof (Z.log2_nonneg d) as Hld.
  pose proof (Qc_of_Z_pos d Hd) as Hdq.
  assert (Hup : (x < pow2 (Z.log2 n - Z.log2 d + 1))%Qc).
  { apply (Qcmult_lt_mono_pos_r _ _ (Qc_of_Z d) Hdq). rewrite Hnd.
    apply Qclt_le_trans
      with (pow2 (Z.log2 n - Z.log2 d + 1) * Qc_of_Z (2 ^ Z.log2 d))%Qc.
    - rewrite pow2_scale by lia.
      apply (proj1 (Z2Qc_inj_lt _ _)).
      replace (Z.log2 d + (Z.log2 n - Z.log2 d + 1)) with (Z.succ (Z.log2 n))
        by lia.
      exact Hn2.
    - apply Qcmult_le_mono_nonneg_l; [apply Qclt_le_weak, pow2_pos|].
      apply Qc_of_Z_le, Hd1. }
  assert (Hlow : (pow2 (Z.log2 n - Z.log2 d - 1) <= x)%Qc).
  { apply (Qcmult_le_mono_pos_r _ _ (Qc_of_Z d) Hdq). rewrite Hnd.
    apply Qcle_trans
      with (pow2 (Z.log2 n - Z.log2 d - 1) * Qc_of_Z (2 ^ Z.succ (Z.log2 d)))%Qc.
    - apply Qcmult_le_mono_nonneg_l; [apply Qclt_le_weak, pow2_pos|].
      apply Qc_of_Z_le. lia.
    - rewrite pow2_scale by lia. apply Qc_of_Z_le.
      replace (Z.succ (Z.log2 d) + (Z.log2 n - Z.log2 d - 1)) with (Z.log2 n)
        by lia.
      exact Hn1. }
  unfold ilog2. fold n d.
  destruct (decide (pow2 (Z.log2 n - Z.log2 d) <= x)%Qc) as [Hk|Hk].
  - split; assumption.
  - split; [exact Hlow|].
    replace (Z.log2 n - Z.log2 d - 1 + 1) with (Z.log2 n - Z.log2 d) by lia.
    apply Qclt_nge, Hk.
Qed.

(** The order of magnitude is the only exponent with the two bounds. *)
Lemma ilog2_unique (x : Qc) (k : Z) :
  (pow2 k <= x)%Qc -> (x < pow2 (k + 1))%Qc -> ilog2 x = k.
Proof.
  intros H1 H2.
  assert (Hx : (0 < x)%Qc) by (eapply Qclt_le_trans; [apply pow2_pos|exact H1]).
  destruct (ilog2_spec x Hx) as [H3 H4].
  destruct (Z.lt_trichotomy (ilog2 x) k) as [Hlt|[Heq|Hgt]]; [|exact Heq|].
  - exfalso. apply (Qclt_not_le _ _ H4).
    apply Qcle_trans with (pow2 k); [apply pow2_mono; lia|exact H1].
  - exfalso. apply (Qclt_not_le _ _ H2).
    apply Qcle_trans with (pow2 (ilog2 x)); [apply pow2_mono; lia|exact H3].
Qed.

Lemma ilog2_mono (x y : Qc) :
  (0 < x)%Qc -> (x <= y)%Qc -> ilog2 x <= ilog2 y.
Proof.
  intros Hx Hxy.
  assert (Hy : (0 < y)%Qc) by (eapply Qclt_le_trans; eassumption).
  destruct (ilog2_spec x Hx) as [H1 _]. destruct (ilog2_spec y Hy) as [_ H2].
  destruct (Z_le_gt_dec (ilog2 x) (ilog2 y)) as [H|H]; [exact H|].
  exfalso. apply (Qclt_not_le _ _ H2).
  apply Qcle_trans with x; [|exact Hxy].
  apply Qcle_trans with (pow2 (ilog2 x)); [apply pow2_mono; lia|exact H1].
Qed.

(** *** Rounding to the nearest integer *)

Lemma Qc_floor_le (x : Qc) : (Qc_of_Z (Qfloor x) <= x)%Qc.
Proof. exact (Qfloor_le x). Qed.

Lemma Qc_lt_floor (x : Qc) : (x < Qc_of_Z (Qfloor x + 1))%Qc.
Proof. exact (Qlt_floor x). Qed.

Lemma Qc_floor_mono (x y : Qc) : (x <= y)%Qc -> Qfloor x <= Qfloor y.
Proof. intros H. apply Qfloor_resp_le. exact H. Qed.

Lemma Qc_floor_Z (k : Z) : Qfloor (Qc_of_Z k) = k.
Proof. exact (Qfloor_Z k). Qed.

Lemma rne_bounds (x : Qc) : Qfloor x <= rne x <= Qfloor x + 1.
Proof.
  unfold rne. repeat destruct (decide _); try destruct (Z.even _); lia.
Qed.

Lemma rne_mono (x y : Qc) : (x <= y)%Qc -> rne x <= rne y.
Proof.
  intros Hxy. pose proof (Qc_floor_mono x y Hxy) as Hf.
  destruct (decide (Qfloor x = Qfloor y)) as [E|E].
  - unfold rne. rewrite <- E.
    assert (Hr : (x - Qc_of_Z (Qfloor x) <= y - Qc_of_Z (Qfloor x))%Qc)
      by (apply Qcplus_le_mono_r; exact Hxy).
    set (rx := (x - Qc_of_Z (Qfloor x))%Qc) in *.
    set (ry := (y - Qc_of_Z (Qfloor x))%Qc) in *.
    destruct (decide (rx < qc 1 2)%Qc) as [H1|H1];
      destruct (decide (ry < qc 1 2)%Qc) as [H2|H2];
      destruct (decide (qc 1 2 < rx)%Qc) as [H3|H3];
      destruct (decide (qc 1 2 < ry)%Qc) as [H4|H4];
      destruct (Z.even (Qfloor x)); try lia; exfalso.
    all: try (apply H1; eapply Qcle_lt_trans; eassumption).
    all: try (apply H4; eapply Qclt_le_trans; eassumption).
  - pose proof (rne_bounds x). pose proof (rne_bounds y). lia.
Qed.

Lemma rne_Z (k : Z) : rne (Qc_of_Z k) = k.
Proof.
  unfold rne. rewrite Qc_floor_Z.
  replace (Qc_of_Z k - Qc_of_Z k)%Qc with 0%Qc by ring.
  destruct (decide (0 < qc 1 2)%Qc) as [H|H]; [reflexivity|].
  exfalso. apply H. reflexivity.
Qed.

(** *** Rounding to the nearest double *)

Lemma rne_nonneg (x : Qc) : (0 <= x)%Qc -> 0 <= rne x.
Proof.
  intros H. rewrite <- (rne_Z 0). apply rne_mono.
  rewrite Z2Qc_inj_0. exact H.
Qed.

Lemma scaled_nonneg (x : Qc) (e : Z) : (0 <= x)%Qc -> (0 <= x / pow2 e)%Qc.
Proof.
  intros H. rewrite pow2_div.
  apply Qcmult_nonneg_nonneg; [exact H | apply Qclt_le_weak, pow2_pos].
Qed.

Lemma scaled_mono (x y : Qc) (e : Z) :
  (x <= y)%Qc -> (x / pow2 e <= y / pow2 e)%Qc.
Proof.
  intros H. rewrite !pow2_div.
  apply Qcmult_le_mono_nonneg_r; [apply Qclt_le_weak, pow2_pos | exact H].
Qed.

Lemma round_magnitude_nonneg (x : Qc) :
  (0 <= x)%Qc -> (0 <= round_magnitude x)%Qc.
Proof.
  intros H. unfold round_magnitude.
  apply Qcmult_nonneg_nonneg; [|apply Qclt_le_weak, pow2_pos].
  apply Qc_of_Z_nonneg, rne_nonneg, scaled_nonneg, H.
Qed.

Lemma round_magnitude_0 : round_magnitude 0 = 0%Qc.
Proof.
  unfold round_magnitude.
  replace (0 / pow2 (ulp_exponent 0))%Qc with (Qc_of_Z 0)
    by (rewrite Z2Qc_inj_0; unfold Qcdiv; ring).
  rewrite rne_Z, Z2Qc_inj_0. ring.
Qed.

(** A multiple of the unit in its own last place is a double. *)
Lemma round_magnitude_exact (x : Qc) (m : Z) :
  x = (Qc_of_Z m * pow2 (ulp_exponent x))%Qc -> round_magnitude x = x.
Proof.
  intros E. unfold round_magnitude.
  set (e := ulp_exponent x) in *.
  replace (x / pow2 e)%Qc with (Qc_of_Z m).
  - rewrite rne_Z. symmetry. exact E.
  - rewrite pow2_div. rewrite E at 1.
    rewrite <- Qcmult_assoc, (Qcmult_comm (pow2 e)), pow2_inv_l. ring.
Qed.

Lemma round_magnitude_mono (x y : Qc) :
  (0 <= x)%Qc -> (x <= y)%Qc -> (round_magnitude x <= round_magnitude y)%Qc.
Proof.
  intros Hx0 Hxy.
  assert (Hy0 : (0 <= y)%Qc) by (eapply Qcle_trans; eassumption).
  destruct (decide (x = 0%Qc)) as [->|Hnz].
  { rewrite round_magnitude_0. apply round_magnitude_nonneg, Hy0. }
  assert (Hx : (0 < x)%Qc).
  { apply Qcle_lt_or_eq in Hx0 as [H|H]; [exact H | congruence]. }
  assert (Hy : (0 < y)%Qc) by (eapply Qclt_le_trans; eassumption).
  pose proof (ilog2_mono x y Hx Hxy) as Hk.
  destruct (ilog2_spec x Hx) as [_ Hx2]. destruct (ilog2_spec y Hy) as [Hy1 _].
  unfold round_magnitude, ulp_exponent.
  set (kx := ilog2 x) in *. set (ky := ilog2 y) in *.
  set (ex := Z.max (kx - 52) (-1074)). set (ey := Z.max (ky - 52) (-1074)).
  destruct (decide (ex = ey)) as [E|E].
  - rewrite E.
    apply Qcmult_le_mono_nonneg_r; [apply Qclt_le_weak, pow2_pos|].
    apply Qc_of_Z_le, rne_mono, scaled_mono, Hxy.
  - assert (Hey : ey = ky - 52) by lia.
    assert (Hlt : kx + 1 <= ky) by lia.
    assert (Hgap : 0 <= ky - ex) by lia.
    apply Qcle_trans with (pow2 ky).
    + replace (pow2 ky) with (pow2 ((ky - ex) + ex)) by (f_equal; lia). rewrite pow2_add.
      apply Qcmult_le_mono_nonneg_r; [apply Qclt_le_weak, pow2_pos|].
      rewrite (pow2_nonneg_exp _ Hgap).
      apply Qc_of_Z_le. rewrite <- (rne_Z (2 ^ (ky - ex))).
      apply rne_mono. rewrite <- (pow2_nonneg_exp _ Hgap).
      rewrite pow2_div.
      replace (ky - ex) with (ky + - ex) by lia. rewrite pow2_add.
      apply Qcmult_le_mono_nonneg_r; [apply Qclt_le_weak, pow2_pos|].
      apply Qclt_le_weak.
      eapply Qclt_le_trans; [exact Hx2 | apply pow2_mono; lia].
    + replace (pow2 ky) with (pow2 (52 + ey)) by (f_equal; lia). rewrite pow2_add.
      apply Qcmult_le_mono_nonneg_r; [apply Qclt_le_weak, pow2_pos|].
      rewrite (pow2_nonneg_exp 52) by lia.
      apply Qc_of_Z_le. rewrite <- (rne_Z (2 ^ 52)) at 1.
      apply rne_mono. rewrite <- (pow2_nonneg_exp 52) by lia.
      rewrite pow2_div.
      replace 52 with (ky + - ey) by lia. rewrite pow2_add.
      apply Qcmult_le_mono_nonneg_r; [apply Qclt_le_weak, pow2_pos|].
      exact Hy1.
Qed.

Lemma ilog2_Z (k : Z) : 0 < k -> ilog2 (Qc_of_Z k) = Z.log2 k.
Proof.
  intros Hk. destruct (Z.log2_spec k Hk) as [H1 H2].
  pose proof (Z.log2_nonneg k) as Hl.
  apply ilog2_unique.
  - rewrite pow2_nonneg_exp by lia. apply Qc_of_Z_le, H1.
  - rewrite pow2_nonneg_exp by lia. apply (proj1 (Z2Qc_inj_lt _ _)).
    replace (Z.log2 k + 1) with (Z.succ (Z.log2 k)) by lia. exact H2.
Qed.

Lemma round_magnitude_Z (k : Z) :
  0 <= k < 2 ^ 53 -> round_magnitude (Qc_of_Z k) = Qc_of_Z k.
Proof.
  intros [H0 H53].
  destruct (decide (k = 0)) as [->|Hnz].
  { rewrite Z2Qc_inj_0. apply round_magnitude_0. }
  assert (Hk : 0 < k) by lia.
  assert (Hl : Z.log2 k < 53) by (apply Z.log2_lt_pow2; lia).
  pose proof (Z.log2_nonneg k) as Hl0.
  apply round_magnitude_exact with (k * 2 ^ (52 - Z.log2 k)).
  unfold ulp_exponent. rewrite (ilog2_Z k Hk).
  replace (Z.max (Z.log2 k - 52) (-1074)) with (- (52 - Z.log2 k)) by lia.
  rewrite Z2Qc_inj_mul, <- (pow2_nonneg_exp (52 - Z.log2 k)) by lia.
  rewrite <- Qcmult_assoc, (Qcmult_comm (pow2 (52 - _))), pow2_inv_l. ring.
Qed.

(** Rounding keeps the order. *)
Lemma binary64_mono (x y : Qc) : (x <= y)%Qc -> (binary64 x <= binary64 y)%Qc.
Proof.
  intros Hxy. unfold binary64.
  destruct (decide (0 <= x)%Qc) as [Hx|Hx];
    destruct (decide (0 <= y)%Qc) as [Hy|Hy].
  - apply round_magnitude_mono; assumption.
  - exfalso. apply Hy. eapply Qcle_trans; eassumption.
  - apply Qcle_trans with 0%Qc; [|apply round_magnitude_nonneg, Hy].
    apply Qclt_nge in Hx.
    change 0%Qc with (- 0)%Qc. apply Qcopp_le_compat.
    apply round_magnitude_nonneg.
    change 0%Qc with (- 0)%Qc. apply Qcopp_le_compat, Qclt_le_weak, Hx.
  - apply Qcopp_le_compat. apply Qclt_nge in Hy.
    apply round_magnitude_mono; [|apply Qcopp_le_compat, Hxy].
    change 0%Qc with (- 0)%Qc. apply Qcopp_le_compat, Qclt_le_weak, Hy.
Qed.

(** An integer of at most 53 bits is a double. *)
Lemma binary64_Z (k : Z) :
  - 2 ^ 53 < k < 2 ^ 53 -> binary64 (Qc_of_Z k) = Qc_of_Z k.
Proof.
  intros Hk. unfold binary64.
  destruct (decide (0 <= Qc_of_Z k)%Qc) as [H|H].
  - apply round_magnitude_Z. rewrite <- Z2Qc_inj_0 in H.
    apply Z2Qc_inj_le in H. lia.
  - rewrite <- Z2Qc_inj_opp, round_magnitude_Z, Z2Qc_inj_opp.
    + apply Qcopp_involutive.
    + assert (k < 0); [|lia].
      destruct (Z_lt_ge_dec k 0) as [Hn|Hn]; [exact Hn|].
      exfalso. apply H, Qc_of_Z_nonneg. lia.
Qed.

(** *** The doubles of the machine *)

(** On these operands the primitive doubles of the kernel, which are the
    doubles of the machine, give the numbers that [binary64] gives. *)
Example binary64_is_the_machine_rounding :
  forallb (fun '(a, b, c) => agree a b c)
    [(8, 12, 2); (1, 3, 195); (1, 10, 3); (7, 8, 255); (-5, 7, 11);
     (1, 3, -195); (2 ^ 52 + 1, 2, 1); (2 ^ 52 + 3, 2, 1); (3, 2 ^ 60, 7);
     (1, 2 ^ 53 - 1, 2 ^ 53 - 1); (2 ^ 53 - 1, 3, 5); (0, 5, 9)] = true.
Proof. vm_compute. reflexivity. Qed.

(** The red channel of the palette of [example_2] at depth 8 of 12, step
    by step: a quotient, the position, the fraction, the product and the
    sum. *)
Example machine_red_channel :
  same_value
    (PrimFloat.add (machine_int 60)
       (PrimFloat.mul (machine_int 195)
          (PrimFloat.sub
             (PrimFloat.mul (PrimFloat.div (machine_int 8) (machine_int 12))
                (machine_int 2))
             (machine_int 1))))
    (Rounded.add binary64 (Qc_of_Z 60)
       (Rounded.mul binary64 (Qc_of_Z 195)
          (Rounded.sub binary64
             (Rounded.mul binary64 (binary64 (Qc_of_Z 8 / Qc_of_Z 12))
                (Qc_of_Z 2))
             (Qc_of_Z 1))))
  = true.
Proof. vm_compute. reflexivity. Qed.

(** ** The colour rule in rounded arithmetic *)

(** Without rounding the rule is [get_branch_color] as the engine uses
    it. *)
Lemma get_branch_color_unrounded (p : Params) (depth : Z) :
  Rounded.get_branch_color (fun x => x) p depth = get_branch_color p depth.
Proof. reflexivity. Qed.

Section RoundedColour.

(** What the facts below need of the rounding: it keeps the order, and an
    integer of at most 53 bits is not changed. *)
Variable rnd : Qc -> Qc.
Hypothesis rnd_mono : forall x y : Qc, (x <= y)%Qc -> (rnd x <= rnd y)%Qc.
Hypothesis rnd_int : forall k : Z,
  - 2 ^ 53 < k < 2 ^ 53 -> rnd (Qc_of_Z k) = Qc_of_Z k.

Lemma rnd_between (a b : Z) (x : Qc) :
  - 2 ^ 53 < a < 2 ^ 53 -> - 2 ^ 53 < b < 2 ^ 53 ->
  (Qc_of_Z a <= x)%Qc -> (x <= Qc_of_Z b)%Qc ->
  (Qc_of_Z a <= rnd x)%Qc /\ (rnd x <= Qc_of_Z b)%Qc.
Proof.
  intros Ha Hb H1 H2. rewrite <- (rnd_int a Ha), <- (rnd_int b Hb).
  split; apply rnd_mono; assumption.
Qed.

Lemma spec_progress_range (p : Params) (depth : Z) :
  0 < depth < max_depth p ->
  (0 <= Rounded.spec_progress rnd p depth)%Qc
  /\ (Rounded.spec_progress rnd p depth <= 1)%Qc.
Proof.
  intros [Hd Hm]. unfold Rounded.spec_progress.
  rewrite <- Z2Qc_inj_0, <- Z2Qc_inj_1.
  pose proof (Qc_of_Z_pos (max_depth p) ltac:(lia)) as Hmax.
  assert (Hinv : (0 <= / Qc_of_Z (max_depth p))%Qc)
    by apply Qclt_le_weak, Qcinv_pos, Hmax.
  apply rnd_between; [lia | lia | |].
  - rewrite Z2Qc_inj_0. apply Qcmult_nonneg_nonneg; [|exact Hinv].
    apply Qc_of_Z_nonneg. lia.
  - rewrite Z2Qc_inj_1. rewrite <- (Qcmult_inv_r (Qc_of_Z (max_depth p))).
    + apply Qcmult_le_compat_r; [|exact Hinv]. apply Qc_of_Z_le. lia.
    + intros H0. rewrite H0 in Hmax. revert Hmax.
      apply Qcle_not_lt, Qcle_refl.
Qed.

(** Between the trunk and the maximum depth the rounded position is not
    negative and does not pass the last index. *)
Lemma rounded_position_range (p : Params) (depth : Z) :
  0 < palette_size p <= 2 ^ 53 -> 0 < depth < max_depth p ->
  (0 <= Rounded.spec_position rnd p depth)%Qc
  /\ (Rounded.spec_position rnd p depth <= Qc_of_Z (palette_size p - 1))%Qc.
Proof.
  intros Hsize Hd.
  destruct (spec_progress_range p depth Hd) as [Hp0 Hp1].
  unfold Rounded.spec_position, Rounded.mul, Rounded.of_int.
  rewrite (rnd_int (palette_size p - 1)) by lia.
  pose proof (Qc_of_Z_nonneg (palette_size p - 1) ltac:(lia)) as Hlast.
  rewrite <- Z2Qc_inj_0.
  apply rnd_between; [lia | lia | |].
  - rewrite Z2Qc_inj_0. apply Qcmult_nonneg_nonneg; assumption.
  - rewrite <- (Qcmult_1_l (Qc_of_Z (palette_size p - 1))) at 2.
    apply Qcmult_le_compat_r; assumption.
Qed.

Lemma rounded_lower_index_range (p : Params) (depth : Z) :
  0 < palette_size p <= 2 ^ 53 -> 0 < depth < max_depth p ->
  0 <= Rounded.spec_lower_index rnd p depth <= palette_size p - 1.
Proof.
  intros Hsize Hd.
  destruct (rounded_position_range p depth Hsize Hd) as [H0 H1].
  unfold Rounded.spec_lower_index. apply Qfloor_between; assumption.
Qed.

(** The fraction is the distance of the position from the index below
    it. *)
Lemma rounded_fraction_range (p : Params) (depth : Z) :
  0 < palette_size p <= 2 ^ 53 -> 0 < depth < max_depth p ->
  (0 <= Rounded.spec_fraction rnd p depth)%Qc
  /\ (Rounded.spec_fraction rnd p depth <= 1)%Qc.
Proof.
  intros Hsize Hd.
  pose proof (rounded_lower_index_range p depth Hsize Hd) as Hlow.
  unfold Rounded.spec_fraction, Rounded.sub, Rounded.of_int.
  rewrite (rnd_int (Rounded.spec_lower_index rnd p depth)) by lia.
  unfold Rounded.spec_lower_index.
  set (x := Rounded.spec_position rnd p depth).
  rewrite <- Z2Qc_inj_0, <- Z2Qc_inj_1.
  apply rnd_between; [lia | lia | |].
  - rewrite Z2Qc_inj_0.
    apply (proj1 (Qcle_minus_iff (Qc_of_Z (Qfloor x)) x)), Qc_floor_le.
  - apply (proj2 (Qcplus_le_mono_r _ _ (Qc_of_Z (Qfloor x)))).
    replace (x - Qc_of_Z (Qfloor x) + Qc_of_Z (Qfloor x))%Qc with x by ring.
    rewrite <- Z2Qc_inj_add, Z.add_comm.
    apply Qclt_le_weak, Qc_lt_floor.
Qed.

(** A channel of the rounded interpolation stays between the two
    channels it is taken from. *)
Lemma rounded_blend_between (c1 c2 : Z) (f : Qc) :
  0 <= c1 < 256 -> 0 <= c2 < 256 -> (0 <= f)%Qc -> (f <= 1)%Qc ->
  Z.min c1 c2 <= Rounded.spec_blend rnd c1 c2 f <= Z.max c1 c2.
Proof.
  intros H1 H2 Hf0 Hf1.
  unfold Rounded.spec_blend, Rounded.add, Rounded.mul, Rounded.of_int.
  rewrite <- py_int_round_toward_zero.
  rewrite (rnd_int c1), (rnd_int (c2 - c1)) by lia.
  destruct (Z.le_ge_cases c1 c2) as [Hle|Hge].
  - rewrite Z.min_l, Z.max_r by lia.
    assert (Hd : (0 <= Qc_of_Z (c2 - c1))%Qc) by (apply Qc_of_Z_nonneg; lia).
    destruct (rnd_between 0 (c2 - c1) (Qc_of_Z (c2 - c1) * f)%Qc)
      as [Ht0 Ht1]; [lia | lia | | |].
    { rewrite Z2Qc_inj_0. apply Qcmult_nonneg_nonneg; assumption. }
    { rewrite <- (Qcmult_1_r (Qc_of_Z (c2 - c1))) at 2.
      apply Qcmult_le_mono_nonneg_l; assumption. }
    rewrite Z2Qc_inj_0 in Ht0.
    set (t := rnd (Qc_of_Z (c2 - c1) * f)%Qc) in *.
    destruct (rnd_between c1 c2 (Qc_of_Z c1 + t)%Qc) as [Hs0 Hs1];
      [lia | lia | | |].
    { rewrite <- (Qcplus_0_r (Qc_of_Z c1)) at 1.
      apply Qcplus_le_mono_l, Ht0. }
    { replace (Qc_of_Z c2) with (Qc_of_Z c1 + Qc_of_Z (c2 - c1))%Qc
        by (rewrite <- Z2Qc_inj_add; f_equal; lia).
      apply Qcplus_le_mono_l, Ht1. }
    apply py_int_between; [lia | assumption | assumption].
  - rewrite Z.min_r, Z.max_l by lia.
    assert (Hd : (0 <= Qc_of_Z (c1 - c2))%Qc) by (apply Qc_of_Z_nonneg; lia).
    assert (Hneg : Qc_of_Z (c2 - c1) = (- Qc_of_Z (c1 - c2))%Qc).
    { rewrite <- Z2Qc_inj_opp. f_equal. lia. }
    destruct (rnd_between (c2 - c1) 0 (Qc_of_Z (c2 - c1) * f)%Qc)
      as [Ht0 Ht1]; [lia | lia | | |].
    { rewrite Hneg.
      replace (- Qc_of_Z (c1 - c2) * f)%Qc
        with (- (Qc_of_Z (c1 - c2) * f))%Qc by ring.
      apply Qcopp_le_compat.
      rewrite <- (Qcmult_1_r (Qc_of_Z (c1 - c2))) at 2.
      apply Qcmult_le_mono_nonneg_l; assumption. }
    { rewrite Z2Qc_inj_0, Hneg.
      replace (- Qc_of_Z (c1 - c2) * f)%Qc
        with (- (Qc_of_Z (c1 - c2) * f))%Qc by ring.
      change 0%Qc with (- 0)%Qc. apply Qcopp_le_compat.
      apply Qcmult_nonneg_nonneg; assumption. }
    rewrite Z2Qc_inj_0 in Ht1.
    set (t := rnd (Qc_of_Z (c2 - c1) * f)%Qc) in *.
    destruct (rnd_between c2 c1 (Qc_of_Z c1 + t)%Qc) as [Hs0 Hs1];
      [lia | lia | | |].
    { replace (Qc_of_Z c2) with (Qc_of_Z c1 + Qc_of_Z (c2 - c1))%Qc
        by (rewrite <- Z2Qc_inj_add; f_equal; lia).
      apply Qcplus_le_mono_l, Ht0. }
    { rewrite <- (Qcplus_0_r (Qc_of_Z c1)) at 2.
      apply Qcplus_le_mono_l, Ht1. }
    apply py_int_between; [lia | assumption | assumption].
Qed.

Lemma rounded_interpolate_color_returns c1 c2 r1 g1 b1 r2 g2 b2 (f : Qc) :
  channels c1 = Ok (r1, g1, b1) -> channels c2 = Ok (r2, g2, b2) ->
  Rounded.interpolate_color rnd c1 c2 f =
  Ok (hex_string (Rounded.spec_blend rnd r1 r2 f)
        (Rounded.spec_blend rnd g1 g2 f) (Rounded.spec_blend rnd b1 b2 f)).
Proof.
  intros H1 H2. unfold Rounded.interpolate_color. rewrite H1, H2.
  cbn [rbind]. unfold Rounded.spec_blend.
  rewrite <- !py_int_round_toward_zero. reflexivity.
Qed.

(** Between the trunk and the maximum depth both indices are in the
    palette, the fraction is between 0 and 1, and the colour returned is
    the rounded interpolation, each channel between the two it is taken
    from. *)
Lemma rounded_get_branch_color_between (p : Params) (depth : Z) :
  valid_palette p -> palette_size p <= 2 ^ 53 -> 0 < depth < max_depth p ->
  exists c1 c2 r1 g1 b1 r2 g2 b2,
    0 <= Rounded.spec_lower_index rnd p depth
    /\ 0 <= Rounded.spec_upper_index rnd p depth
    /\ leaf_colors p !! Z.to_nat (Rounded.spec_lower_index rnd p depth) = Some c1
    /\ leaf_colors p !! Z.to_nat (Rounded.spec_upper_index rnd p depth) = Some c2
    /\ channels c1 = Ok (r1, g1, b1)
    /\ channels c2 = Ok (r2, g2, b2)
    /\ (0 <= Rounded.spec_fraction rnd p depth)%Qc
    /\ (Rounded.spec_fraction rnd p depth <= 1)%Qc
    /\ Rounded.get_branch_color rnd p depth =
       Ok (hex_string
             (Rounded.spec_blend rnd r1 r2 (Rounded.spec_fraction rnd p depth))
             (Rounded.spec_blend rnd g1 g2 (Rounded.spec_fraction rnd p depth))
             (Rounded.spec_blend rnd b1 b2 (Rounded.spec_fraction rnd p depth)))
    /\ Z.min r1 r2
       <= Rounded.spec_blend rnd r1 r2 (Rounded.spec_fraction rnd p depth)
       <= Z.max r1 r2
    /\ Z.min g1 g2
       <= Rounded.spec_blend rnd g1 g2 (Rounded.spec_fraction rnd p depth)
       <= Z.max g1 g2
    /\ Z.min b1 b2
       <= Rounded.spec_blend rnd b1 b2 (Rounded.spec_fraction rnd p depth)
       <= Z.max b1 b2.
Proof.
  intros [Hne Hch] Hbig Hd.
  assert (Hsize : 0 < palette_size p <= 2 ^ 53).
  { split; [|exact Hbig]. unfold palette_size.
    destruct (leaf_colors p); [congruence | cbn [length]; lia]. }
  destruct (rounded_position_range p depth Hsize Hd) as [Hpos0 Hpos1].
  pose proof (rounded_lower_index_range p depth Hsize Hd) as Hlow.
  destruct (rounded_fraction_range p depth Hsize Hd) as [Hf0 Hf1].
  assert (Hup : 0 <= Rounded.spec_upper_index rnd p depth <= palette_size p - 1)
    by (unfold Rounded.spec_upper_index; lia).
  unfold palette_size in Hlow, Hup.
  destruct (py_getitem_in_range (leaf_colors p)
              (Rounded.spec_lower_index rnd p depth) ltac:(lia))
    as (c1 & Hc1 & Hget1).
  destruct (py_getitem_in_range (leaf_colors p)
              (Rounded.spec_upper_index rnd p depth) ltac:(lia))
    as (c2 & Hc2 & Hget2).
  destruct (Hch c1 (list_elem_of_lookup_2 _ _ _ Hc1)) as [[[r1 g1] b1] Hrgb1].
  destruct (Hch c2 (list_elem_of_lookup_2 _ _ _ Hc2)) as [[[r2 g2] b2] Hrgb2].
  destruct (channels_range c1 r1 g1 b1 Hrgb1) as (Hr1 & Hg1 & Hb1).
  destruct (channels_range c2 r2 g2 b2 Hrgb2) as (Hr2 & Hg2 & Hb2).
  exists c1, c2, r1, g1, b1, r2, g2, b2.
  split; [lia|]. split; [lia|].
  split; [exact Hc1|]. split; [exact Hc2|].
  split; [exact Hrgb1|]. split; [exact Hrgb2|].
  split; [exact Hf0|]. split; [exact Hf1|].
  split; [|repeat split; apply rounded_blend_between; assumption].
  unfold Rounded.get_branch_color, Rounded.truediv.
  destruct (decide (depth = 0)); [lia|].
  destruct (decide (max_depth p <= depth)); [lia|].
  destruct (decide (max_depth p = 0)); [lia|]. cbn [rbind].
  change (Z.of_nat (length (leaf_colors p))) with (palette_size p).
  fold (Rounded.spec_progress rnd p depth).
  fold (Rounded.spec_position rnd p depth).
  rewrite (py_int_floor _ Hpos0). fold (Rounded.spec_lower_index rnd p depth).
  rewrite py_min_min. fold (Rounded.spec_upper_index rnd p depth).
  fold (Rounded.spec_fraction rnd p depth).
  rewrite Hget1, Hget2. cbn [rbind].
  apply rounded_interpolate_color_returns; assumption.
Qed.

End RoundedColour.

(** C5: in double precision, for a palette that is not empty, whose
    entries can be read and which has at most [2 ^ 53] of them, a positive
    maximum depth and a depth that is not negative, [get_branch_color]
    returns the trunk colour at depth 0, the last palette entry from the
    maximum depth on, and in between the colour whose channels are the
    interpolation, rounded toward zero, of the channels of the palette
    entries at the lower and the upper index, by the fraction.  Position,
    indices and fraction are those of the specification, computed in
    doubles; a channel of the interpolation is the first channel moved by
    the fraction of the way to the second, in the order of operations of
    [interpolate_color].  Both indices are in the palette, the fraction is
    between 0 and 1 and every channel lies between the two it is taken
    from. *)
Theorem get_branch_color_double (p : Params) (depth : Z) :
  valid_palette p -> palette_size p <= 2 ^ 53 ->
  0 < max_depth p -> 0 <= depth ->
  (depth = 0 -> Double.get_branch_color p depth = Ok (trunk_color p))
  /\ (max_depth p <= depth ->
      exists c, last (leaf_colors p) = Some c
                /\ Double.get_branch_color p depth = Ok c)
  /\ (0 < depth < max_depth p ->
      exists c1 c2 r1 g1 b1 r2 g2 b2,
        0 <= Double.spec_lower_index p depth
        /\ 0 <= Double.spec_upper_index p depth
        /\ leaf_colors p !! Z.to_nat (Double.spec_lower_index p depth) = Some c1
        /\ leaf_colors p !! Z.to_nat (Double.spec_upper_index p depth) = Some c2
        /\ channels c1 = Ok (r1, g1, b1)
        /\ channels c2 = Ok (r2, g2, b2)
        /\ (0 <= Double.spec_fraction p depth)%Qc
        /\ (Double.spec_fraction p depth <= 1)%Qc
        /\ Double.get_branch_color p depth =
           Ok (hex_string
                 (Double.spec_blend r1 r2 (Double.spec_fraction p depth))
                 (Double.spec_blend g1 g2 (Double.spec_fraction p depth))
                 (Double.spec_blend b1 b2 (Double.spec_fraction p depth)))
        /\ Z.min r1 r2
           <= Double.spec_blend r1 r2 (Double.spec_fraction p depth)
           <= Z.max r1 r2
        /\ Z.min g1 g2
           <= Double.spec_blend g1 g2 (Double.spec_fraction p depth)
           <= Z.max g1 g2
        /\ Z.min b1 b2
           <= Double.spec_blend b1 b2 (Double.spec_fraction p depth)
           <= Z.max b1 b2).
Proof.
  intros Hvalid Hbig Hmax Hd. split; [|split].
  - intros ->. reflexivity.
  - intros Hm.
    destruct (py_getitem_last (leaf_colors p) (proj1 Hvalid)) as (c & Hc & Hget).
    exists c. split; [exact Hc|].
    unfold Double.get_branch_color, Rounded.get_branch_color.
    destruct (decide (depth = 0)); [lia|].
    destruct (decide (max_depth p <= depth)); [exact Hget|lia].
  - intros Hbetween.
    exact (rounded_get_branch_color_between binary64 binary64_mono binary64_Z
             p depth Hvalid Hbig Hbetween).
Qed.

(** ** Grown trees *)

Section GrownTrees.

Variables math_radians math_cos math_sin : Qc -> Qc.
Variable random_random : nat -> Qc.

Abbreviation grow_one_level :=
  (grow_one_level math_radians math_cos math_sin random_random).
Abbreviation grow_loop := (grow_loop math_radians math_cos math_sin random_random).
Abbreviation grow_full_tree :=
  (grow_full_tree math_radians math_cos math_sin random_random).
Abbreviation grow_times :=
  (grow_times math_radians math_cos math_sin random_random).
Abbreviation child_of := (child_of math_radians math_cos math_sin).
Abbreviation children_of :=
  (children_of math_radians math_cos math_sin random_random).
Abbreviation grown := (grown math_radians math_cos math_sin random_random).
Abbreviation call := (call math_radians math_cos math_sin random_random).
Abbreviation calls := (calls math_radians math_cos math_sin random_random).

Lemma grow_one_level_outcome st :
  state_of (grow_one_level st) = st
  \/ state_of (grow_one_level st) = advanced st 0 2
  \/ (branches st <> [] /\ current_depth st < max_depth (params st)
      /\ exists th col,
           grow_one_level st = Returned Done (grown st th col)
           /\ generation_of st th col).
Proof.
  destruct (decide (branches st = [])) as [He|Hne].
  { left. rewrite grow_one_level_empty by assumption. reflexivity. }
  destruct (decide (max_depth (params st) <= current_depth st)) as [Hm|Hm].
  { left. rewrite grow_one_level_max by assumption. reflexivity. }
  assert (Hlt : current_depth st < max_depth (params st)) by lia.
  destruct (decide (terminal_branches st = [])) as [Ht|Ht].
  { right; right. repeat split; try assumption. exists 0%Qc, EmptyString.
    split; [apply grow_one_level_no_terminal; assumption|].
    intros Hterm. contradiction. }
  destruct (generation_error (params st) (current_depth st + 1)) as [e|] eqn:Hg.
  - right; left. rewrite (grow_one_level_raises _ _ _ _ st e) by assumption.
    reflexivity.
  - unfold generation_error in Hg.
    destruct (calculate_thickness _ _) as [th|] eqn:Hth; [|discriminate].
    destruct (get_branch_color _ _) as [col|] eqn:Hcol; [|discriminate].
    right; right. repeat split; try assumption. exists th, col.
    split; [apply grow_one_level_grows; assumption|].
    intros _. split; assumption.
Qed.

Section Preservation.

Variable P : FractalTree -> Prop.
Hypothesis P_advanced : forall st, P st -> P (advanced st 0 2).
Hypothesis P_grown : forall st th col,
  P st -> branches st <> [] -> current_depth st < max_depth (params st) ->
  generation_of st th col -> P (grown st th col).

Lemma grow_one_level_keeps st : P st -> P (state_of (grow_one_level st)).
Proof.
  intros HP.
  destruct (grow_one_level_outcome st)
    as [H|[H|(Hne & Hlt & th & col & H & Hgen)]]; rewrite H; auto.
  cbn [state_of]. auto.
Qed.

Lemma grow_loop_keeps fuel : forall st, P st -> P (state_of (grow_loop fuel st)).
Proof.
  induction fuel as [|fuel IH]; intros st HP; [exact HP|].
  cbn [grow_loop]. run_step.
  destruct (decide (current_depth st < max_depth (params st))); [|exact HP].
  unfold bind. pose proof (grow_one_level_keeps st HP) as Hstep.
  destruct (grow_one_level st) as [r st'|e st']; cbn [state_of] in Hstep.
  - apply IH, Hstep.
  - exact Hstep.
Qed.

Lemma grow_full_tree_keeps st : P st -> P (state_of (grow_full_tree st)).
Proof.
  intros HP. unfold grow_full_tree. run_step.
  destruct (decide (length (branches st) = 0%nat)); [exact HP|].
  apply grow_loop_keeps, HP.
Qed.

Hypothesis P_plant : forall st x y, P st -> P (state_of (plant_trunk x y st)).
Hypothesis P_reset : forall st, P st -> P (state_of (reset_tree st)).

Lemma call_keeps o st : P st -> P (call o st).
Proof.
  intros HP. destruct o as [x y| | |]; cbn [call].
  - apply P_plant, HP.
  - apply grow_one_level_keeps, HP.
  - apply grow_full_tree_keeps, HP.
  - apply P_reset, HP.
Qed.

Lemma calls_keep os : forall st, P st -> P (calls os st).
Proof.
  induction os as [|o os IH]; intros st HP; [exact HP|].
  cbn [calls fold_left]. apply IH, call_keeps, HP.
Qed.

End Preservation.

(** *** The invariant of grown trees *)

Lemma full_levels_advanced n st : full_levels n st -> full_levels n (advanced st 0 2).
Proof. intros H. exact H. Qed.

Lemma grown_invariant_new p : 0 <= 0 -> grown_invariant p (new_tree p).
Proof.
  intros _. unfold grown_invariant. cbn [new_tree params current_depth branches].
  split; [reflexivity|]. split; [lia|]. split; [left; auto|].
  split; [split; [reflexivity | intros i b Hb; discriminate]|].
  split; [intros i b Hb; discriminate|].
  intros b Hb. inversion Hb.
Qed.

Lemma grown_invariant_plant p st x y :
  grown_invariant p st -> grown_invariant p (state_of (plant_trunk x y st)).
Proof.
  intros (Hp & _). unfold grown_invariant.
  split; [rewrite plant_trunk_state; exact Hp|].
  split; [rewrite plant_trunk_state; cbn; lia|].
  split.
  { right. replace (current_depth (state_of (plant_trunk x y st))) with 0
      by (rewrite plant_trunk_state; reflexivity).
    apply full_levels_plant. }
  split; [apply ids_are_positions_plant|].
  rewrite plant_trunk_state. cbn [state_of branches]. split.
  - intros [|i] b Hb Hi; [congruence | discriminate].
  - intros b Hb. apply list_elem_of_singleton in Hb as ->.
    split; cbn [Branch.depth Branch.thickness Branch.color Branch.length].
    + intros _. rewrite Hp. auto.
    + congruence.
Qed.

Lemma grown_invariant_reset p st :
  grown_invariant p st -> grown_invariant p (state_of (reset_tree st)).
Proof.
  intros (Hp & _). unfold grown_invariant. cbn.
  split; [exact Hp|]. split; [lia|]. split; [left; auto|].
  split; [split; [reflexivity | intros i b Hb; discriminate]|].
  split; [intros i b Hb; discriminate|].
  intros b Hb. inversion Hb.
Qed.

Lemma grown_invariant_advanced p st :
  grown_invariant p st -> grown_invariant p (advanced st 0 2).
Proof.
  intros (Hp & Hd & Hfull & Hids & Hconn & Hattr). unfold grown_invariant.
  split; [exact Hp|]. split; [exact Hd|]. split; [exact Hfull|].
  split; [apply ids_are_positions_advanced, Hids|]. split; assumption.
Qed.

Lemma grown_invariant_grown p st th col :
  grown_invariant p st -> branches st <> [] ->
  current_depth st < max_depth (params st) -> generation_of st th col ->
  grown_invariant p (grown st th col).
Proof.
  intros (Hp & Hd & Hfull & Hids & Hconn & Hattr) Hne Hlt Hgen.
  unfold grown_invariant.
  split; [exact Hp|].
  split; [cbn [grown current_depth]; rewrite Hp in Hlt; lia|].
  split.
  { right. destruct Hfull as [[He _]|Hfull]; [congruence|].
    replace (Z.to_nat (current_depth (grown st th col)))
      with (S (Z.to_nat (current_depth st))) by (cbn [grown current_depth]; lia).
    apply full_levels_grown, Hfull. }
  split; [apply ids_are_positions_grown, Hids|].
  split.
  - intros i b Hb Hi. cbn [grown branches] in Hb |- *.
    apply lookup_app_Some in Hb as [Hb|[Hle Hb]].
    + destruct (Hconn i b Hb Hi) as (j & q & Hji & Hq & Hpar & Hstart).
      exists j, q. repeat split; auto. apply lookup_app_l_Some, Hq.
    + apply children_of_lookup_inv in Hb as (parent & off & u & u' & Hin & ->).
      destruct (terminal_branch_position st parent Hids Hin) as (j & Hj & _ & _).
      exists j, parent. pose proof (lookup_lt_Some _ _ _ Hj).
      repeat split; [lia | apply lookup_app_l_Some, Hj].
  - intros b Hb. cbn [grown branches] in Hb.
    apply elem_of_app in Hb as [Hb|Hb]; [apply Hattr, Hb|].
    assert (Hterm : terminal_branches st <> []).
    { intros Hnil. rewrite Hnil in Hb. inversion Hb. }
    destruct (Hgen Hterm) as [Hth Hcol].
    apply list_elem_of_lookup in Hb as [m Hm].
    apply children_of_lookup_inv in Hm as (parent & off & u & u' & _ & ->).
    split; cbn [child_of Branch.depth Branch.thickness Branch.color].
    + lia.
    + intros _. rewrite <- Hp. split; assumption.
Qed.

Lemma grown_invariant_calls p os : grown_invariant p (calls os (new_tree p)).
Proof.
  apply (calls_keep (grown_invariant p)).
  - apply grown_invariant_advanced.
  - apply grown_invariant_grown.
  - intros st x y. apply grown_invariant_plant.
  - apply grown_invariant_reset.
  - apply grown_invariant_new. lia.
Qed.

(** X2: after any sequence of calls on a new object the branch list is
    empty or a complete binary tree down to the depth counter [d]: it holds
    [2^(d+1) - 1] branches, [2^k] of them at each depth [k] from 0 to [d],
    and none at another depth; so there is always a terminal branch to grow
    from. *)
Theorem complete_levels_always (p : Params) (os : list op) :
  let st := calls os (new_tree p) in
  branches st = []
  \/ (Z.of_nat (length (branches st)) = 2 ^ (current_depth st + 1) - 1
      /\ (forall k, 0 <= k <= current_depth st ->
          Z.of_nat (length (branches_at_depth st k)) = 2 ^ k)
      /\ (forall b, b ∈ branches st -> 0 <= Branch.depth b <= current_depth st)
      /\ terminal_branches st <> []).
Proof.
  intros st. destruct (grown_invariant_calls p os)
    as (_ & [Hd _] & [[He _]|(Hcd & Hlen & Hcount & Hdepths)] & _);
    fold st in Hd |- *; [left; exact He|right].
  fold st in Hcd, Hlen, Hcount, Hdepths.
  assert (Hk : forall k, 0 <= k <= current_depth st ->
    Z.of_nat (length (branches_at_depth st k)) = 2 ^ k).
  { intros k Hk. rewrite <- (Z2Nat.id k) by lia. apply Hcount. lia. }
  split.
  { rewrite Hlen, sum_of_powers_closed. do 2 f_equal. lia. }
  split; [exact Hk|]. split.
  { intros b Hb. apply Hdepths in Hb. lia. }
  intros Hnil. specialize (Hk (current_depth st) ltac:(lia)).
  unfold branches_at_depth in Hk. unfold terminal_branches in Hnil.
  rewrite Hnil in Hk. cbn [length] in Hk.
  assert (0 < 2 ^ current_depth st) by (apply Z.pow_pos_nonneg; lia). lia.
Qed.

(** X3: after any sequence of calls on a new object the depth counter is
    between 0 and [max_depth] (0 when [max_depth] is negative): growth
    never passes the configured ceiling. *)
Theorem depth_within_ceiling (p : Params) (os : list op) :
  0 <= current_depth (calls os (new_tree p)) <= Z.max 0 (max_depth p).
Proof. apply (grown_invariant_calls p os). Qed.

(** X4: after any sequence of calls on a new object every stored branch
    carries the attributes of its depth: the trunk has the trunk thickness,
    trunk colour and base length of the parameters, and every other branch
    has the thickness [calculate_thickness] and the colour
    [get_branch_color] give for its depth; so two branches of the same depth
    have the same colour and thickness. *)
Theorem attributes_follow_depth (p : Params) (os : list op) (b : Branch.t) :
  b ∈ branches (calls os (new_tree p)) ->
  attributes_by_depth p b
  /\ forall b', b' ∈ branches (calls os (new_tree p)) ->
       Branch.depth b' = Branch.depth b ->
       Branch.thickness b' = Branch.thickness b
       /\ Branch.color b' = Branch.color b.
Proof.
  intros Hb. destruct (grown_invariant_calls p os) as (_ & _ & _ & _ & _ & Hattr).
  split; [apply Hattr, Hb|]. intros b' Hb' Hd.
  destruct (Hattr b Hb) as [H0 Hpos], (Hattr b' Hb') as [H0' Hpos'].
  destruct (decide (Branch.depth b = 0)) as [Hz|Hnz].
  - destruct (H0 Hz) as (-> & -> & _).
    destruct (H0' ltac:(lia)) as (-> & -> & _). auto.
  - destruct (Hpos Hnz) as [Hth Hcol].
    destruct (Hpos' ltac:(lia)) as [Hth' Hcol'].
    rewrite Hd in Hth', Hcol'. split; congruence.
Qed.

(** X5: after any sequence of calls on a new object every branch but the
    first starts exactly where its parent ends, and the parent stands
    earlier in the list than the child. *)
Theorem branches_connected (p : Params) (os : list op) :
  connected (calls os (new_tree p)).
Proof. apply (grown_invariant_calls p os). Qed.

(** *** Growing to the maximum depth *)

Lemma grow_one_level_valid st :
  valid_palette (params st) -> branches st <> [] ->
  0 <= current_depth st < max_depth (params st) ->
  exists th col, grow_one_level st = Returned Done (grown st th col).
Proof.
  intros Hvalid Hne [H0 Hlt].
  destruct (get_branch_color_returns (params st) (current_depth st + 1) Hvalid
              ltac:(lia)) as [col Hcol].
  exists (py_max 1%Qc
            (trunk_thickness (params st)
             * thickness_factor (params st) ^ Z.to_nat (current_depth st + 1))%Qc),
    col.
  apply grow_one_level_grows; try assumption.
  unfold calculate_thickness. rewrite py_pow_nonneg by lia. reflexivity.
Qed.

Lemma grow_loop_is_grow_times n : forall st,
  valid_palette (params st) -> branches st <> [] -> 0 <= current_depth st ->
  n = Z.to_nat (max_depth (params st) - current_depth st) ->
  exists st',
    grow_times n st = Returned (replicate n Done) st'
    /\ grow_loop n st = Returned Done st'
    /\ current_depth st' = Z.max (current_depth st) (max_depth (params st))
    /\ params st' = params st.
Proof.
  induction n as [|n IH]; intros st Hvalid Hne H0 Hn.
  - exists st. repeat split. lia.
  - destruct (grow_one_level_valid st Hvalid Hne ltac:(lia)) as (th & col & Hrun).
    destruct (IH (grown st th col)) as (st' & Htimes & Hloop & Hd & Hp).
    + exact Hvalid.
    + cbn [grown branches]. intros Happ. apply app_eq_nil in Happ as [? _].
      congruence.
    + cbn [grown current_depth]. lia.
    + cbn [grown current_depth params]. lia.
    + exists st'. cbn [grow_times grow_loop]. unfold bind at 1. rewrite Hrun.
      unfold bind at 1. rewrite Htimes. split; [reflexivity|]. split.
      * run_step.
        destruct (decide (current_depth st < max_depth (params st))); [|lia].
        unfold bind. rewrite Hrun. exact Hloop.
      * cbn [grown current_depth params] in Hd, Hp. split; [lia | exact Hp].
Qed.

(** X6: on a tree that is not empty, with a valid palette and a depth
    counter that is not negative, [grow_full_tree] returns, and it does what
    [max_depth - current_depth] successive calls of [grow_one_level] do,
    each of them running to its end: both leave the same state, in which the
    depth counter is [max_depth] (or is unchanged when it was already
    there or beyond). *)
Theorem grow_full_tree_is_repeated_growth (st : FractalTree) :
  valid_palette (params st) -> branches st <> [] -> 0 <= current_depth st ->
  let n := Z.to_nat (max_depth (params st) - current_depth st) in
  exists st',
    grow_full_tree st = Returned Done st'
    /\ grow_times n st = Returned (replicate n Done) st'
    /\ current_depth st' = Z.max (current_depth st) (max_depth (params st)).
Proof.
  intros Hvalid Hne H0 n.
  destruct (grow_loop_is_grow_times n st Hvalid Hne H0 eq_refl)
    as (st' & Htimes & Hloop & Hd & _).
  exists st'. split; [|split; assumption].
  unfold grow_full_tree. run_step.
  destruct (decide (length (branches st) = 0%nat)) as [Hlen|_].
  { destruct (branches st); [congruence | discriminate]. }
  exact Hloop.
Qed.

Lemma grow_full_tree_nonempty st :
  branches st <> [] -> branches (state_of (grow_full_tree st)) <> [].
Proof.
  apply (grow_full_tree_keeps (fun s => branches s <> [])).
  - intros s Hs. exact Hs.
  - intros s th col Hs _ _ _. cbn [grown branches].
    intros Happ. apply app_eq_nil in Happ as [? _]. congruence.
Qed.

(** X7: [grow_full_tree] is idempotent once it has returned: a second call
    returns the same report and leaves the state of the first call as it
    is. *)
Theorem grow_full_tree_idempotent (st st' : FractalTree) (r : report) :
  grow_full_tree st = Returned r st' -> grow_full_tree st' = Returned r st'.
Proof.
  intros Hrun. pose proof (grow_full_tree_exits math_radians math_cos math_sin random_random st) as Hexit.
  pose proof (grow_full_tree_nonempty st) as Hne.
  rewrite Hrun in Hexit, Hne. cbn [state_of] in Hne.
  destruct r.
  - destruct Hexit as [He ->]. exact Hrun.
  - contradiction.
  - assert (Hne' : branches st' <> []).
    { apply Hne. intros He. unfold grow_full_tree in Hrun. revert Hrun.
      run_step. rewrite He. cbn. discriminate. }
    unfold grow_full_tree. run_step.
    destruct (decide (length (branches st') = 0%nat)) as [Hlen|_].
    { destruct (branches st'); [congruence | discriminate]. }
    replace (Z.to_nat (max_depth (params st') - current_depth st')) with 0%nat
      by lia.
    reflexivity.
Qed.


(** X9: growth only appends: after [grow_one_level] or [grow_full_tree],
    however the call ends, the old branch list is a prefix of the new one,
    branch for branch, and the parameters, the click counter and the centre
    of the tree are as before. *)
Theorem growth_only_appends (st : FractalTree) (o : op) :
  o = GrowOneLevel \/ o = GrowFullTree ->
  (exists new_branches, branches (call o st) = branches st ++ new_branches)
  /\ params (call o st) = params st
  /\ click_count (call o st) = click_count st
  /\ tree_center (call o st) = tree_center st.
Proof.
  set (P := fun s : FractalTree =>
    (exists new_branches, branches s = branches st ++ new_branches)
    /\ params s = params st /\ click_count s = click_count st
    /\ tree_center s = tree_center st).
  assert (HP : P st).
  { split; [exists []; rewrite app_nil_r; reflexivity | auto]. }
  assert (Hadv : forall s, P s -> P (advanced s 0 2)) by (intros s Hs; exact Hs).
  assert (Hgrown : forall s th col, P s -> branches s <> [] ->
    current_depth s < max_depth (params s) -> generation_of s th col ->
    P (grown s th col)).
  { intros s th col ([new Hnew] & Hp & Hc & Ht) _ _ _.
    split; [|cbn [grown params click_count tree_center]; auto].
    cbn [grown branches]. rewrite Hnew, <- app_assoc. eauto. }
  intros [->| ->]; cbn [call].
  - apply (grow_one_level_keeps P Hadv Hgrown st HP).
  - apply (grow_full_tree_keeps P Hadv Hgrown st HP).
Qed.

(** *** An empty palette, continued *)

Lemma at_most_trunk_keeps p os :
  leaf_colors p = [] ->
  params (calls os (new_tree p)) = p /\ at_most_trunk (calls os (new_tree p)).
Proof.
  intros He.
  apply (calls_keep (fun s => params s = p /\ at_most_trunk s)).
  - intros s Hs. exact Hs.
  - intros s th col [Hp [Hd Hshape]] Hne _ Hgen. exfalso.
    destruct Hshape as [Hnil|(t & Ht & Htrunk)]; [congruence|].
    assert (Hterm : terminal_branches s <> []).
    { unfold terminal_branches. rewrite Ht, Hd.
      rewrite filter_cons_True by apply Htrunk. discriminate. }
    destruct (Hgen Hterm) as [_ Hcol].
    rewrite Hp, Hd, (empty_palette_raises_from_1 p (0 + 1) He) in Hcol by lia.
    discriminate.
  - intros s x y [Hp _]. rewrite plant_trunk_state. cbn [state_of params].
    split; [exact Hp|]. split; [reflexivity|]. right. eexists.
    split; [reflexivity|]. split; reflexivity.
  - intros s [Hp _]. split; [exact Hp|]. split; [reflexivity | left; reflexivity].
  - split; [reflexivity|]. split; [reflexivity | left; reflexivity].
Qed.

(** X10: with an empty palette the colour of every depth from 1 on raises
    [IndexError], and no sequence of calls ever gets past the trunk: the
    depth counter stays 0 and the branch list is empty or holds the trunk
    alone. *)
Theorem empty_palette_stays_at_trunk (p : Params) (os : list op) :
  leaf_colors p = [] ->
  (forall depth, 1 <= depth -> get_branch_color p depth = Raise IndexError)
  /\ at_most_trunk (calls os (new_tree p)).
Proof.
  intros He. split.
  - intros depth Hd. apply empty_palette_raises_from_1; assumption.
  - apply at_most_trunk_keeps, He.
Qed.

(** *** What is drawn *)

Lemma py_max_idempotent (a x : Qc) : py_max a (py_max a x) = py_max a x.
Proof.
  unfold py_max. destruct (decide (a < x)%Qc) as [Hlt|Hge].
  - destruct (decide (a < x)%Qc); [reflexivity | contradiction].
  - destruct (decide (a < a)%Qc) as [Haa|_]; [|reflexivity].
    exfalso. revert Haa. apply Qcle_not_lt, Qcle_refl.
Qed.

(** X11: for every branch of a tree reached by any sequence of calls on a
    new object, the line [draw_branch] draws runs from the start to the end
    of the branch in the colour of the branch, and its width is what
    [calculate_thickness] gives for the depth of the branch; this holds for
    the trunk too, whose stored thickness is the trunk thickness of the
    parameters as it is, even below 1. *)
Theorem drawn_width_follows_rule (p : Params) (os : list op)
    (smooth_lines : bool) (b : Branch.t) :
  b ∈ branches (calls os (new_tree p)) ->
  calculate_thickness p (Branch.depth b)
    = Ok (line_width (draw_branch smooth_lines b))
  /\ line_fill (draw_branch smooth_lines b) = Branch.color b
  /\ line_from (draw_branch smooth_lines b) = Branch.start b
  /\ line_to (draw_branch smooth_lines b) = Branch.end_ b.
Proof.
  intros Hb.
  destruct (grown_invariant_calls p os) as (_ & _ & _ & _ & _ & Hattr).
  destruct (Hattr b Hb) as [H0 Hpos]. unfold draw_branch.
  destruct (Branch.start b) as [x1 y1], (Branch.end_ b) as [x2 y2].
  cbn [line_width line_fill line_from line_to].
  split; [|auto].
  destruct (decide (Branch.depth b = 0)) as [Hz|Hnz].
  - destruct (H0 Hz) as (-> & _). rewrite Hz. unfold calculate_thickness.
    rewrite py_pow_nonneg by lia. cbn [rbind Z.to_nat Qcpower].
    rewrite Qcmult_1_r. reflexivity.
  - destruct (Hpos Hnz) as [Hth _]. rewrite Hth. f_equal.
    unfold calculate_thickness in Hth.
    destruct (py_pow _ _) as [pw|]; [|discriminate].
    cbn [rbind] in Hth. injection Hth as <-.
    symmetry. apply py_max_idempotent.
Qed.

(** *** Clicks *)

Abbreviation on_canvas_click :=
  (on_canvas_click math_radians math_cos math_sin random_random).
Abbreviation clicks := (clicks math_radians math_cos math_sin random_random).

Lemma on_canvas_click_first st x y :
  click_count st = 0 ->
  on_canvas_click x y st =
  set_click_count 1 (state_of (plant_trunk (Qc_of_Z x) (Qc_of_Z y) st)).
Proof.
  intros Hc. unfold on_canvas_click. run_step. rewrite Hc.
  destruct (decide (0 = 0)); [|lia].
  rewrite plant_trunk_state. run_step. rewrite Hc. reflexivity.
Qed.

Lemma on_canvas_click_later st x y :
  click_count st <> 0 ->
  on_canvas_click x y st =
  match grow_one_level st with
  | Returned _ s => set_click_count (click_count s + 1) s
  | Raised e s => Raised e s
  end.
Proof.
  intros Hc. unfold on_canvas_click. run_step.
  destruct (decide (click_count st = 0)); [contradiction|].
  destruct (grow_one_level st) as [r s|e s]; reflexivity.
Qed.

Lemma full_levels_click n s v :
  full_levels n s -> full_levels n (state_of (set_click_count v s)).
Proof. intros H. exact H. Qed.

Lemma click_on_full_levels n st x y :
  valid_palette (params st) -> 1 <= click_count st -> full_levels n st ->
  Z.of_nat n <= max_depth (params st) ->
  let s := state_of (on_canvas_click x y st) in
  click_count s = click_count st + 1
  /\ params s = params st
  /\ tree_center s = tree_center st
  /\ head (branches s) = head (branches st)
  /\ full_levels (Z.to_nat (Z.min (Z.of_nat n + 1) (max_depth (params st)))) s.
Proof.
  intros Hvalid Hc Hfull Hmax s. subst s.
  pose proof Hfull as (Hd & _).
  pose proof (full_levels_nonempty n st Hfull) as Hne.
  rewrite on_canvas_click_later by lia.
  destruct (decide (Z.of_nat n < max_depth (params st))) as [Hlt|Hge].
  - destruct (grow_one_level_valid st Hvalid Hne ltac:(lia)) as (th & col & Hrun).
    rewrite Hrun.
    split; [reflexivity|]. split; [reflexivity|]. split; [reflexivity|].
    split.
    + cbn [state_of set_click_count branches grown].
      destruct (branches st); [congruence | reflexivity].
    + replace (Z.to_nat (Z.min (Z.of_nat n + 1) (max_depth (params st))))
        with (S n) by lia.
      apply full_levels_click, full_levels_grown, Hfull.
  - rewrite grow_one_level_max by (try assumption; lia).
    split; [reflexivity|]. split; [reflexivity|]. split; [reflexivity|].
    split; [reflexivity|].
    replace (Z.to_nat (Z.min (Z.of_nat n + 1) (max_depth (params st))))
      with n by lia.
    apply full_levels_click, Hfull.
Qed.

Lemma clicks_on_full_levels points : forall n st,
  valid_palette (params st) -> 1 <= click_count st -> full_levels n st ->
  Z.of_nat n <= max_depth (params st) ->
  let s := clicks points st in
  let m := Z.of_nat (length points) in
  click_count s = click_count st + m
  /\ params s = params st
  /\ tree_center s = tree_center st
  /\ head (branches s) = head (branches st)
  /\ full_levels (Z.to_nat (Z.min (Z.of_nat n + m) (max_depth (params st)))) s.
Proof.
  induction points as [|[x y] points IH]; intros n st Hvalid Hc Hfull Hmax.
  - cbn [clicks fold_left length].
    split; [lia|]. do 3 (split; [reflexivity|]).
    replace (Z.to_nat (Z.min (Z.of_nat n + Z.of_nat 0) (max_depth (params st))))
      with n by lia.
    exact Hfull.
  - cbn [clicks fold_left length fst snd].
    destruct (click_on_full_levels n st x y Hvalid Hc Hfull Hmax)
      as (Hc1 & Hp1 & Ht1 & Hh1 & Hf1).
    set (st1 := state_of (on_canvas_click x y st)) in *.
    destruct (IH _ st1 ltac:(rewrite Hp1; exact Hvalid) ltac:(lia) Hf1
                ltac:(rewrite Hp1; lia))
      as (Hc2 & Hp2 & Ht2 & Hh2 & Hf2).
    fold (clicks points st1).
    rewrite Hp1 in Hf2.
    split; [lia|]. do 3 (split; [congruence|]).
    replace (Z.to_nat
               (Z.min (Z.of_nat n + Z.of_nat (S (length points)))
                  (max_depth (params st))))
      with (Z.to_nat
              (Z.min
                 (Z.of_nat
                    (Z.to_nat (Z.min (Z.of_nat n + 1) (max_depth (params st))))
                  + Z.of_nat (length points))
                 (max_depth (params st)))) by lia.
    exact Hf2.
Qed.

(** X12: on a new object with a valid palette and a [max_depth] that is not
    negative, a series of clicks plants the trunk at the first click and
    grows one level with every later click until the maximum depth is
    reached; after [1 + m] clicks the click counter is [1 + m], the depth
    counter is the smaller of [m] and [max_depth], the tree is complete
    down to that depth, and trunk and centre are where the first click
    was. *)
Theorem clicks_plant_then_grow (p : Params) (x y : Z) (points : list (Z * Z)) :
  valid_palette p -> 0 <= max_depth p ->
  let st := clicks ((x, y) :: points) (new_tree p) in
  let m := Z.of_nat (length points) in
  click_count st = 1 + m
  /\ current_depth st = Z.min m (max_depth p)
  /\ Z.of_nat (length (branches st)) = 2 ^ (current_depth st + 1) - 1
  /\ tree_center st = (Qc_of_Z x, Qc_of_Z y)
  /\ exists trunk,
       head (branches st) = Some trunk
       /\ is_trunk trunk
       /\ Branch.start trunk = (Qc_of_Z x, Qc_of_Z y).
Proof.
  intros Hvalid Hmax st m. subst st. cbn [clicks fold_left fst snd].
  rewrite on_canvas_click_first by reflexivity.
  set (st1 := state_of (set_click_count 1
                (state_of (plant_trunk (Qc_of_Z x) (Qc_of_Z y) (new_tree p))))).
  fold (clicks points st1).
  assert (Hfull1 : full_levels 0 st1) by apply full_levels_click, full_levels_plant.
  assert (Hp1 : params st1 = p)
    by (unfold st1; rewrite plant_trunk_state; reflexivity).
  destruct (clicks_on_full_levels points 0%nat st1
              ltac:(rewrite Hp1; exact Hvalid) ltac:(unfold st1; cbn; lia) Hfull1
              ltac:(rewrite Hp1; cbn; lia))
    as (Hc & Hp & Ht & Hh & Hfull).
  rewrite Hp1 in Hfull. fold m in Hc, Hfull.
  replace (Z.of_nat 0 + m) with m in Hfull by lia.
  destruct Hfull as (Hd & Hlen & _).
  assert (Hdepth : current_depth (clicks points st1) = Z.min m (max_depth p))
    by (rewrite Hd; lia).
  split; [rewrite Hc; unfold st1; cbn; lia|].
  split; [exact Hdepth|].
  split.
  { rewrite Hlen, sum_of_powers_closed, Hdepth. do 2 f_equal. lia. }
  split; [rewrite Ht; unfold st1; rewrite plant_trunk_state; reflexivity|].
  rewrite Hh. unfold st1. rewrite plant_trunk_state.
  cbn [state_of set_click_count branches head]. eexists.
  split; [reflexivity|]. split; [split; reflexivity | reflexivity].
Qed.

(** X13: [reset_tree] takes the object back to where a new one starts,
    apart from the parameters, the centre of the tree and the random source,
    which it keeps: the branch list is empty and the three counters are 0.
    So after a reset both growth calls only report "Please plant trunk
    first!" and change nothing, and the next click plants a new trunk with
    identifier 0 at the place of the click. *)
Theorem reset_then_start_over (st : FractalTree) (x y : Z) :
  let s := state_of (reset_tree st) in
  (branches s = [] /\ current_depth s = 0 /\ next_id s = 0
   /\ click_count s = 0 /\ params s = params st
   /\ tree_center s = tree_center st /\ random_state s = random_state st)
  /\ grow_one_level s = Returned PlantTrunkFirst s
  /\ grow_full_tree s = Returned PlantTrunkFirst s
  /\ exists trunk,
       branches (state_of (on_canvas_click x y s)) = [trunk]
       /\ Branch.id trunk = 0
       /\ Branch.start trunk = (Qc_of_Z x, Qc_of_Z y)
       /\ click_count (state_of (on_canvas_click x y s)) = 1.
Proof.
  intros s. subst s. rewrite reset_tree_state. cbn [state_of].
  split; [repeat split|]. split; [apply grow_one_level_empty; reflexivity|].
  split; [reflexivity|].
  rewrite on_canvas_click_first by reflexivity. rewrite plant_trunk_state.
  cbn [state_of set_click_count branches click_count]. eexists.
  repeat split.
Qed.

End GrownTrees.

(** ** Saving the image *)

Lemma hex_digit_hash : hex_digit "#" = None.
Proof. reflexivity. Qed.

Lemma int16_not_hash (a b : ascii) (v : Z) :
  int16 (String a (String b EmptyString)) = Ok v -> Ascii.eqb a "#" = false.
Proof.
  intros H. destruct (Ascii.eqb a "#") eqn:Ha; [|reflexivity].
  apply Ascii.eqb_eq in Ha. subst a. unfold int16 in H.
  cbn [int16_digits] in H. rewrite hex_digit_hash in H. discriminate.
Qed.

Lemma substring_skip (a : ascii) (s : string) (n m : nat) :
  String.substring (S n) m (String a s) = String.substring n m s.
Proof. reflexivity. Qed.

(** X14: on a colour string that starts with one [#] and goes on with
    another character, [save_tree] reads the same three channels as
    [interpolate_color] does (and fails when it fails); in particular it
    reads a colour written by [interpolate_color] back to the channels it
    was written from. *)
Theorem save_rgb_agrees (a : ascii) (s : string) (r g b : Z) :
  Ascii.eqb a "#" = false ->
  save_rgb (String "#" (String a s)) = channels (String "#" (String a s))
  /\ (0 <= r < 256 -> 0 <= g < 256 -> 0 <= b < 256 ->
      save_rgb (hex_string r g b) = Ok (r, g, b)).
Proof.
  intros Ha. split.
  - unfold save_rgb, channels, py_slice. cbn [lstrip_hash].
    change (Ascii.eqb "#" "#") with true. cbv iota. rewrite Ha.
    cbn [Nat.sub]. rewrite !substring_skip. reflexivity.
  - intros Hr Hg Hb.
    destruct (format_02x_read_back r Hr) as (r1 & r2 & Hfr & Hir).
    destruct (format_02x_read_back g Hg) as (g1 & g2 & Hfg & Hig).
    destruct (format_02x_read_back b Hb) as (b1 & b2 & Hfb & Hib).
    unfold hex_string, save_rgb, py_slice. rewrite Hfr, Hfg, Hfb.
    cbv [String.append]. cbn [lstrip_hash].
    change (Ascii.eqb "#" "#") with true. cbv iota.
    rewrite (int16_not_hash r1 r2 r Hir).
    cbv [String.substring Nat.sub]. rewrite Hir, Hig, Hib. reflexivity.
Qed.

Lemma py_range_length (n : Z) : length (py_range n) = Z.to_nat n.
Proof. unfold py_range. rewrite length_map, length_seq. reflexivity. Qed.

Lemma py_range_elem (n i : Z) : i ∈ py_range n <-> 0 <= i < n.
Proof.
  unfold py_range. rewrite list_elem_of_fmap. split.
  - intros (k & -> & Hk). apply list_elem_of_In, in_seq in Hk. lia.
  - intros Hi. exists (Z.to_nat i). split; [lia|].
    apply list_elem_of_In, in_seq. lia.
Qed.

(** X15: for a branch whose colour [save_tree] can read, the export draws
    [t] lines of width 1 in that colour, where [t] is the thickness of the
    branch cut down to a whole number, and 1 if that is smaller: each line
    is the branch shifted sideways by a whole number of pixels between
    [-(t / 2)] and [t - 1 - t / 2], and the branch itself, unshifted, is one
    of them.  When the colour cannot be read the export of the branch
    raises that error and draws nothing. *)
Theorem save_lines_spec (branch : Branch.t) :
  let t := py_max_int 1 (py_int (Branch.thickness branch)) in
  match save_rgb (Branch.color branch) with
  | Raise e => save_lines branch = Raise e
  | Ok rgb =>
      exists lines,
        save_lines branch = Ok lines
        /\ 1 <= t /\ Z.of_nat (length lines) = t
        /\ (forall line, line ∈ lines ->
            draw_fill line = rgb /\ draw_width line = 1
            /\ exists offset,
                 - (t / 2) <= offset <= t - 1 - t / 2
                 /\ draw_from line =
                    (((Branch.start branch).1 + Qc_of_Z offset)%Qc,
                     (Branch.start branch).2)
                 /\ draw_to line =
                    (((Branch.end_ branch).1 + Qc_of_Z offset)%Qc,
                     (Branch.end_ branch).2))
        /\ {| draw_from := Branch.start branch; draw_to := Branch.end_ branch;
              draw_fill := rgb; draw_width := 1 |} ∈ lines
  end.
Proof.
  intros t. unfold save_lines.
  destruct (Branch.start branch) as [x1 y1], (Branch.end_ branch) as [x2 y2].
  destruct (save_rgb (Branch.color branch)) as [rgb|e]; [|reflexivity].
  cbn [rbind fst snd]. fold t.
  assert (Ht : 1 <= t) by (unfold t, py_max_int; destruct (decide _); lia).
  eexists. split; [reflexivity|]. split; [exact Ht|].
  split; [rewrite length_map, py_range_length; lia|]. split.
  - intros line Hline. apply list_elem_of_fmap in Hline as (i & -> & Hi).
    apply py_range_elem in Hi. cbn [draw_fill draw_width draw_from draw_to].
    split; [reflexivity|]. split; [reflexivity|].
    exists (i - t / 2). split; [lia | split; reflexivity].
  - apply list_elem_of_fmap. exists (t / 2). split.
    + replace (t / 2 - t / 2) with 0 by lia.
      rewrite Z2Qc_inj_0, !Qcplus_0_r. reflexivity.
    + apply py_range_elem. split; [apply Z.div_pos; lia|].
      apply Z.div_lt_upper_bound; lia.
Qed.

(** ** Random colours *)

Section RandomColours.

Variable random_random : nat -> Qc.
Variable colorsys_hsv_to_rgb : Qc -> Qc -> Qc -> Qc * Qc * Qc.

(** The samples lie between 0 and 1. *)
Hypothesis random_range : forall n,
  (0 <= random_random n)%Qc /\ (random_random n <= 1)%Qc.

(** For a saturation and a value between 0 and 1, [hsv_to_rgb] gives three
    channels between 0 and 1. *)
Hypothesis hsv_range : forall h s v,
  (0 <= s)%Qc -> (s <= 1)%Qc -> (0 <= v)%Qc -> (v <= 1)%Qc ->
  let '(r, g, b) := colorsys_hsv_to_rgb h s v in
  ((0 <= r)%Qc /\ (r <= 1)%Qc) /\ ((0 <= g)%Qc /\ (g <= 1)%Qc)
  /\ ((0 <= b)%Qc /\ (b <= 1)%Qc).

Abbreviation random_leaf_color :=
  (random_leaf_color random_random colorsys_hsv_to_rgb).
Abbreviation randomize_colors :=
  (randomize_colors random_random colorsys_hsv_to_rgb).

Lemma scaled_sample_range (base scale u : Qc) :
  (0 <= base)%Qc -> (0 <= scale)%Qc -> (base + scale <= 1)%Qc ->
  (0 <= u)%Qc -> (u <= 1)%Qc ->
  (0 <= base + u * scale)%Qc /\ (base + u * scale <= 1)%Qc.
Proof.
  intros Hbase Hscale Hsum Hu0 Hu1. split.
  - apply Qcplus_nonneg_nonneg; [exact Hbase|].
    apply Qcmult_nonneg_nonneg; assumption.
  - eapply Qcle_trans; [|exact Hsum].
    apply Qcplus_le_mono_l. rewrite <- (Qcmult_1_l scale) at 2.
    apply Qcmult_le_compat_r; assumption.
Qed.

Lemma byte_of_unit (c : Qc) :
  (0 <= c)%Qc -> (c <= 1)%Qc -> 0 <= py_int (c * Qc_of_Z 255)%Qc < 256.
Proof.
  intros H0 H1.
  assert (H255 : (0 <= Qc_of_Z 255)%Qc) by (apply Qc_of_Z_nonneg; lia).
  assert (0 <= py_int (c * Qc_of_Z 255)%Qc <= 255); [|lia].
  apply py_int_between; [lia | |].
  - rewrite Z2Qc_inj_0. apply Qcmult_nonneg_nonneg; assumption.
  - rewrite <- (Qcmult_1_l (Qc_of_Z 255)) at 2.
    apply Qcmult_le_compat_r; assumption.
Qed.

Lemma random_leaf_color_run base_hue acc i st :
  exists c,
    byte_colour c
    /\ random_leaf_color base_hue acc i st =
       Returned (acc ++ [c])
         {| params := params st; click_count := click_count st;
            current_depth := current_depth st; branches := branches st;
            next_id := next_id st; tree_center := tree_center st;
            random_state := S (S (random_state st)) |}.
Proof.
  unfold random_leaf_color. run_step.
  destruct (random_range (random_state st)) as [Hu0 Hu1].
  destruct (random_range (S (random_state st))) as [Hv0 Hv1].
  destruct (scaled_sample_range (qc 6 10) (qc 3 10) _
              ltac:(discriminate) ltac:(discriminate) ltac:(discriminate)
              Hu0 Hu1) as [Hs0 Hs1].
  destruct (scaled_sample_range (qc 5 10) (qc 3 10) _
              ltac:(discriminate) ltac:(discriminate) ltac:(discriminate)
              Hv0 Hv1) as [Hw0 Hw1].
  pose proof (hsv_range
                (py_mod_1 (base_hue + Qc_of_Z i * qc 1 10)%Qc) _ _
                Hs0 Hs1 Hw0 Hw1) as Hrgb.
  destruct (colorsys_hsv_to_rgb _ _ _) as [[r g] b].
  destruct Hrgb as ([Hr0 Hr1] & [Hg0 Hg1] & [Hb0 Hb1]).
  eexists. split; [|reflexivity].
  do 3 eexists. split; [reflexivity|].
  auto using byte_of_unit.
Qed.

(** X16: when the samples of the random source and the channels that
    [hsv_to_rgb] returns lie between 0 and 1, [randomize_colors] returns
    and leaves a valid palette of three colours that can be read back, with
    the trunk colour [#8B4513]; it takes seven samples; every other
    parameter, the branch list with the colours stored in it, the depth
    counter and the identifier counter are as before. *)
Theorem randomize_colors_valid (st : FractalTree) :
  exists st',
    randomize_colors st = Returned tt st'
    /\ valid_palette (params st')
    /\ length (leaf_colors (params st')) = 3%nat
    /\ trunk_color (params st') = "#8B4513"%string
    /\ (base_length (params st'), angle_variation (params st'),
        length_factor (params st'), max_depth (params st'),
        trunk_thickness (params st'), thickness_factor (params st'),
        randomness (params st'), upward_angle (params st'))
       = (base_length (params st), angle_variation (params st),
          length_factor (params st), max_depth (params st),
          trunk_thickness (params st), thickness_factor (params st),
          randomness (params st), upward_angle (params st))
    /\ branches st' = branches st
    /\ current_depth st' = current_depth st
    /\ next_id st' = next_id st
    /\ random_state st' = (random_state st + 7)%nat.
Proof.
  unfold randomize_colors. run_step. unfold set_params at 1. cbv beta iota.
  change (py_range 3) with [0; 1; 2]. cbn [for_each]. unfold bind at 1.
  match goal with
  | |- context [random_leaf_color ?h ?acc ?i ?s] =>
      destruct (random_leaf_color_run h acc i s) as (c0 & Hc0 & ->)
  end.
  unfold bind at 1.
  match goal with
  | |- context [random_leaf_color ?h ?acc ?i ?s] =>
      destruct (random_leaf_color_run h acc i s) as (c1 & Hc1 & ->)
  end.
  unfold bind at 1.
  match goal with
  | |- context [random_leaf_color ?h ?acc ?i ?s] =>
      destruct (random_leaf_color_run h acc i s) as (c2 & Hc2 & ->)
  end.
  run_step. unfold set_params. cbn [app params click_count current_depth
    branches next_id tree_center random_state].
  eexists. split; [reflexivity|].
  cbn [params leaf_colors trunk_color base_length angle_variation
       length_factor max_depth trunk_thickness thickness_factor randomness
       upward_angle branches current_depth next_id random_state].
  split.
  { split; [discriminate|]. intros c Hc.
    assert (Hbyte : byte_colour c).
    { repeat (apply elem_of_cons in Hc as [->|Hc]; [assumption|]).
      inversion Hc. }
    destruct Hbyte as (r & g & b & -> & Hr & Hg & Hb).
    exists (r, g, b). apply channels_hex_string; assumption. }
  repeat split. lia.
Qed.

End RandomColours.

(** ** How long a branch can be, and how far it can turn *)

Section SampleBounds.

Variables math_radians math_cos math_sin : Qc -> Qc.
Variable random_random : nat -> Qc.

Hypothesis random_range : forall n,
  (0 <= random_random n)%Qc /\ (random_random n <= 1)%Qc.

Abbreviation child_of := (child_of math_radians math_cos math_sin).
Abbreviation children_of :=
  (children_of math_radians math_cos math_sin random_random).
Abbreviation grown := (grown math_radians math_cos math_sin random_random).
Abbreviation calls := (calls math_radians math_cos math_sin random_random).

Lemma children_of_lookup_parent p d th col ps : forall nid r m c,
  children_of p d th col ps nid r !! m = Some c ->
  exists parent off k k',
    parent ∈ ps
    /\ (off = (- angle_variation p)%Qc \/ off = angle_variation p)
    /\ c = child_of p d th col parent off (nid + Z.of_nat m)
             (random_random k) (random_random k').
Proof.
  induction ps as [|q ps IH]; intros nid r m c Hm; [discriminate|].
  cbn [children_of] in Hm. destruct m as [|[|m]].
  - injection Hm as <-. exists q. do 3 eexists. split; [left|].
    split; [left; reflexivity|]. f_equal. lia.
  - injection Hm as <-. exists q. do 3 eexists. split; [left|].
    split; [right; reflexivity|]. f_equal.
  - change (children_of p d th col ps (nid + 2) (4 + r) !! m = Some c) in Hm.
    destruct (IH _ _ _ _ Hm) as (parent & off & k & k' & Hin & Hoff & ->).
    exists parent, off, k, k'. split; [right; exact Hin|].
    split; [exact Hoff|]. f_equal. lia.
Qed.

Lemma half_double : (qc 1 2 * Qc_of_Z 2 = 1)%Qc.
Proof. apply Qc_is_canon. reflexivity. Qed.

Lemma child_of_length p d th col parent off nid u u' :
  Branch.length (child_of p d th col parent off nid u u')
  = child_length_at p parent u'.
Proof. reflexivity. Qed.

Lemma child_of_angle p d th col parent off nid u u' :
  Branch.angle (child_of p d th col parent off nid u u')
  = child_angle_at p parent off u.
Proof. reflexivity. Qed.

(** *** Lengths *)

Section Lengths.

Variable p : Params.
Hypothesis base_nonneg : (0 <= base_length p)%Qc.
Hypothesis factor_nonneg : (0 <= length_factor p)%Qc.
Hypothesis randomness_nonneg : (0 <= randomness p)%Qc.
Hypothesis randomness_le_2 : (randomness p <= Qc_of_Z 2)%Qc.

Lemma jitter_mono (u v : Qc) :
  (u <= v)%Qc ->
  (1 + (u - qc 1 2) * randomness p <= 1 + (v - qc 1 2) * randomness p)%Qc.
Proof.
  intros Huv. apply Qcplus_le_mono_l.
  apply Qcmult_le_mono_nonneg_r; [exact randomness_nonneg|].
  apply Qcplus_le_mono_r, Huv.
Qed.

Lemma jitter_nonneg (u : Qc) :
  (0 <= u)%Qc -> (0 <= 1 + (u - qc 1 2) * randomness p)%Qc.
Proof.
  intros Hu. apply Qcle_trans with (1 + (0 - qc 1 2) * randomness p)%Qc;
    [|apply jitter_mono, Hu].
  replace (1 + (0 - qc 1 2) * randomness p)%Qc
    with (1 + - (qc 1 2 * randomness p))%Qc by ring.
  apply (proj1 (Qcle_minus_iff (qc 1 2 * randomness p)%Qc 1%Qc)).
  rewrite <- half_double.
  apply Qcmult_le_mono_nonneg_l; [discriminate | exact randomness_le_2].
Qed.

Lemma child_length_at_mono (q : Branch.t) (u v : Qc) :
  (0 <= Branch.length q)%Qc -> (u <= v)%Qc ->
  (child_length_at p q u <= child_length_at p q v)%Qc.
Proof.
  intros Hq Huv. unfold child_length_at.
  apply Qcmult_le_mono_nonneg_l; [|apply jitter_mono, Huv].
  apply Qcmult_nonneg_nonneg; assumption.
Qed.

Lemma child_length_at_nonneg (q : Branch.t) (u : Qc) :
  (0 <= Branch.length q)%Qc -> (0 <= u)%Qc -> (0 <= child_length_at p q u)%Qc.
Proof.
  intros Hq Hu. unfold child_length_at.
  apply Qcmult_nonneg_nonneg; [|apply jitter_nonneg, Hu].
  apply Qcmult_nonneg_nonneg; assumption.
Qed.

Lemma lengths_between_samples_calls os :
  grown_invariant p (calls os (new_tree p))
  /\ (forall b, b ∈ branches (calls os (new_tree p)) ->
      (0 <= Branch.length b)%Qc)
  /\ children_related (length_between_samples p) (calls os (new_tree p)).
Proof.
  apply (calls_keep math_radians math_cos math_sin random_random
           (fun s => grown_invariant p s
                     /\ (forall b, b ∈ branches s -> (0 <= Branch.length b)%Qc)
                     /\ children_related (length_between_samples p) s)).
  - intros s (Hinv & Hpos & Hrel).
    split; [apply grown_invariant_advanced, Hinv|]. split; assumption.
  - intros s th col (Hinv & Hpos & Hrel) Hne Hlt Hgen.
    split; [apply grown_invariant_grown; assumption|].
    destruct Hinv as (Hp & _ & _ & Hids & _). split.
    + intros b Hb. cbn [grown branches] in Hb.
      apply elem_of_app in Hb as [Hb|Hb]; [apply Hpos, Hb|].
      apply list_elem_of_lookup in Hb as [m Hm].
      apply children_of_lookup_parent in Hm
        as (parent & off & k & k' & Hin & _ & ->).
      rewrite child_of_length, Hp.
      apply child_length_at_nonneg; [|apply random_range].
      apply Hpos. apply list_elem_of_filter in Hin. apply Hin.
    + intros i b Hb Hi. cbn [grown branches] in Hb |- *.
      apply lookup_app_Some in Hb as [Hb|[Hle Hb]].
      * destruct (Hrel i b Hb Hi) as (j & q & Hji & Hq & Hpar & Hw).
        exists j, q. repeat split; auto; try apply Hw.
        apply lookup_app_l_Some, Hq.
      * apply children_of_lookup_parent in Hb
          as (parent & off & k & k' & Hin & _ & ->).
        destruct (terminal_branch_position s parent Hids Hin)
          as (j & Hj & _ & _).
        exists j, parent. pose proof (lookup_lt_Some _ _ _ Hj).
        split; [lia|]. split; [apply lookup_app_l_Some, Hj|].
        split; [reflexivity|].
        assert (Hq : (0 <= Branch.length parent)%Qc)
          by (apply Hpos; eapply list_elem_of_lookup_2, Hj).
        destruct (random_range k') as [Hu0 Hu1].
        unfold length_between_samples. rewrite child_of_length, Hp.
        split; apply child_length_at_mono; assumption.
  - intros s x y (Hinv & _). split; [apply grown_invariant_plant, Hinv|].
    rewrite plant_trunk_state. cbn [state_of branches]. split.
    + intros b Hb. apply list_elem_of_singleton in Hb as ->.
      destruct Hinv as (-> & _). exact base_nonneg.
    + intros [|i] b Hb Hi; [congruence | discriminate].
  - intros s (Hinv & _). split; [apply grown_invariant_reset, Hinv|]. split.
    + intros b Hb. inversion Hb.
    + intros i b Hb. discriminate.
  - split; [apply grown_invariant_new; lia|]. split.
    + intros b Hb. inversion Hb.
    + intros i b Hb. discriminate.
Qed.

End Lengths.

(** X17: when the samples of the random source lie between 0 and 1, the
    base length and the length factor are not negative and the randomness
    is between 0 and 2, then in a tree reached by any sequence of calls on
    a new object no stored length is negative, and every branch but the
    first has its parent earlier in the list and a length between the two
    values that the length expression of [grow_one_level],
    [parent length * length_factor * (1 + (u - 0.5) * randomness)], takes
    for that parent at the samples [u = 0] and [u = 1]. *)
Theorem child_lengths_between_samples (p : Params) (os : list op) :
  (0 <= base_length p)%Qc -> (0 <= length_factor p)%Qc ->
  (0 <= randomness p)%Qc -> (randomness p <= Qc_of_Z 2)%Qc ->
  (forall b, b ∈ branches (calls os (new_tree p)) -> (0 <= Branch.length b)%Qc)
  /\ children_related (length_between_samples p) (calls os (new_tree p)).
Proof.
  intros Hbase Hfactor Hr0 Hr2.
  apply (lengths_between_samples_calls p Hbase Hfactor Hr0 Hr2 os).
Qed.

(** *** Angles *)

(** A number that depends on [u] with a constant slope lies, for [u]
    between 0 and 1, between its values at 0 and at 1. *)
Lemma between_affine (c k u : Qc) :
  (0 <= u)%Qc -> (u <= 1)%Qc -> between (c + k * 0) (c + k * u) (c + k * 1).
Proof.
  intros Hu0 Hu1. destruct (decide (0 <= k)%Qc) as [Hk|Hk].
  - left. split; apply Qcplus_le_mono_l, Qcmult_le_mono_nonneg_l; assumption.
  - right.
    assert (Hk' : (0 <= - k)%Qc).
    { change 0%Qc with (- 0)%Qc.
      apply Qcopp_le_compat, Qclt_le_weak, Qclt_nge, Hk. }
    split; apply Qcplus_le_mono_l.
    + rewrite <- (Qcopp_involutive (k * 1)), <- (Qcopp_involutive (k * u)).
      apply Qcopp_le_compat.
      replace (- (k * u))%Qc with (- k * u)%Qc by ring.
      replace (- (k * 1))%Qc with (- k * 1)%Qc by ring.
      apply Qcmult_le_mono_nonneg_l; assumption.
    + rewrite <- (Qcopp_involutive (k * 0)), <- (Qcopp_involutive (k * u)).
      apply Qcopp_le_compat.
      replace (- (k * u))%Qc with (- k * u)%Qc by ring.
      replace (- (k * 0))%Qc with (- k * 0)%Qc by ring.
      apply Qcmult_le_mono_nonneg_l; assumption.
Qed.

Lemma child_angle_at_affine (p : Params) (q : Branch.t) (off u : Qc) :
  child_angle_at p q off u
  = (Branch.angle q + off * (1 - randomness p)
     + off * randomness p * Qc_of_Z 2 * u)%Qc.
Proof.
  unfold child_angle_at.
  replace (1 - randomness p)%Qc
    with (1 - qc 1 2 * Qc_of_Z 2 * randomness p)%Qc
    by (rewrite half_double; ring).
  ring.
Qed.

Lemma child_angle_between (p : Params) (q : Branch.t) (off u : Qc) :
  (0 <= u)%Qc -> (u <= 1)%Qc ->
  between (child_angle_at p q off 0) (child_angle_at p q off u)
    (child_angle_at p q off 1).
Proof.
  intros Hu0 Hu1. rewrite !child_angle_at_affine.
  apply between_affine; assumption.
Qed.

Lemma angles_between_samples_calls (p : Params) os :
  grown_invariant p (calls os (new_tree p))
  /\ children_related (angle_between_samples p) (calls os (new_tree p)).
Proof.
  apply (calls_keep math_radians math_cos math_sin random_random
           (fun s => grown_invariant p s
                     /\ children_related (angle_between_samples p) s)).
  - intros s [Hinv Hrel]. split; [apply grown_invariant_advanced, Hinv|].
    exact Hrel.
  - intros s th col [Hinv Hrel] Hne Hlt Hgen.
    split; [apply grown_invariant_grown; assumption|].
    intros i b Hb Hi. cbn [grown branches] in Hb |- *.
    apply lookup_app_Some in Hb as [Hb|[Hle Hb]].
    + destruct (Hrel i b Hb Hi) as (j & q & Hji & Hq & Hpar & Hw).
      exists j, q. repeat split; auto; try apply Hw.
      apply lookup_app_l_Some, Hq.
    + apply children_of_lookup_parent in Hb
        as (parent & off & k & k' & Hin & Hoff & ->).
      destruct Hinv as (Hp & _ & _ & Hids & _).
      destruct (terminal_branch_position s parent Hids Hin) as (j & Hj & _ & _).
      exists j, parent. pose proof (lookup_lt_Some _ _ _ Hj).
      split; [lia|]. split; [apply lookup_app_l_Some, Hj|].
      split; [reflexivity|]. rewrite Hp in *.
      exists off. split; [exact Hoff|]. rewrite child_of_angle.
      destruct (random_range k) as [Hu0 Hu1].
      apply child_angle_between; assumption.
  - intros s x y [Hinv _]. split; [apply grown_invariant_plant, Hinv|].
    rewrite plant_trunk_state. cbn [state_of branches].
    intros [|i] b Hb Hi; [congruence | discriminate].
  - intros s [Hinv _]. split; [apply grown_invariant_reset, Hinv|].
    intros i b Hb. discriminate.
  - split; [apply grown_invariant_new; lia|]. intros i b Hb. discriminate.
Qed.

(** X19: when the samples of the random source lie between 0 and 1, every
    branch but the first of a tree reached by any sequence of calls on a
    new object has its parent earlier in the list, and its angle lies, for
    one of the two offsets [- angle_variation] and [angle_variation],
    between the two values that the angle expression of [grow_one_level],
    [parent angle + offset * (1 + (u - 0.5) * randomness * 2)], takes for
    that parent at the samples [u = 0] and [u = 1]. *)
Theorem child_angles_between_samples (p : Params) (os : list op) :
  children_related (angle_between_samples p) (calls os (new_tree p)).
Proof. apply (angles_between_samples_calls p os). Qed.

End SampleBounds.

(** ** Stored geometry *)

Section Geometry.

Variables math_radians math_cos math_sin : Qc -> Qc.
Variable random_random : nat -> Qc.

Abbreviation child_of := (child_of math_radians math_cos math_sin).
Abbreviation children_of :=
  (children_of math_radians math_cos math_sin random_random).
Abbreviation grown := (grown math_radians math_cos math_sin random_random).
Abbreviation calls := (calls math_radians math_cos math_sin random_random).
Abbreviation stored_geometry :=
  (stored_geometry math_radians math_cos math_sin).

Lemma stored_geometry_calls p os :
  grown_invariant p (calls os (new_tree p))
  /\ forall b, b ∈ branches (calls os (new_tree p)) -> stored_geometry p b.
Proof.
  apply (calls_keep math_radians math_cos math_sin random_random
           (fun s => grown_invariant p s
                     /\ forall b, b ∈ branches s -> stored_geometry p b)).
  - intros s [Hinv Hgeo]. split; [apply grown_invariant_advanced, Hinv|].
    exact Hgeo.
  - intros s th col [Hinv Hgeo] Hne Hlt Hgen.
    split; [apply grown_invariant_grown; assumption|].
    intros b Hb. cbn [grown branches] in Hb.
    apply elem_of_app in Hb as [Hb|Hb]; [apply Hgeo, Hb|].
    apply list_elem_of_lookup in Hb as [m Hm].
    apply children_of_lookup_inv in Hm as (parent & off & u & u' & _ & ->).
    destruct Hinv as (_ & Hd & _). split.
    + cbn [child_of Branch.depth]. lia.
    + intros _. reflexivity.
  - intros s x y [Hinv _]. split; [apply grown_invariant_plant, Hinv|].
    rewrite plant_trunk_state. cbn [state_of branches]. intros b Hb.
    apply list_elem_of_singleton in Hb as ->.
    destruct Hinv as (-> & _). split; [|cbn; congruence].
    intros _. unfold trunk_geometry.
    cbn [Branch.start Branch.end_ Branch.angle Branch.length fst snd].
    split; [reflexivity|]. destruct (upward_angle p); split; reflexivity.
  - intros s [Hinv _]. split; [apply grown_invariant_reset, Hinv|].
    intros b Hb. inversion Hb.
  - split; [apply grown_invariant_new; lia|]. intros b Hb. inversion Hb.
Qed.

(** X18: the geometry stored in a branch is consistent.  After any sequence
    of calls on a new object the trunk is vertical, [length] long, at angle
    270 (upward growth) or 90, and every other branch ends at its start
    moved by its stored length in the direction of its stored angle. *)
Theorem stored_geometry_consistent (p : Params) (os : list op) (b : Branch.t) :
  b ∈ branches (calls os (new_tree p)) -> stored_geometry p b.
Proof. intros Hb. apply (stored_geometry_calls p os), Hb. Qed.

End Geometry.

(** ** Two children each *)

Section Binary.

Variables math_radians math_cos math_sin : Qc -> Qc.
Variable random_random : nat -> Qc.

Abbreviation child_of := (child_of math_radians math_cos math_sin).
Abbreviation children_of :=
  (children_of math_radians math_cos math_sin random_random).
Abbreviation grown := (grown math_radians math_cos math_sin random_random).
Abbreviation calls := (calls math_radians math_cos math_sin random_random).

Lemma same_id_same_branch st (q r : Branch.t) :
  ids_are_positions st -> q ∈ branches st -> r ∈ branches st ->
  Branch.id q = Branch.id r -> q = r.
Proof.
  intros [_ Hids] Hq Hr Hid.
  apply list_elem_of_lookup in Hq as [i Hi].
  apply list_elem_of_lookup in Hr as [j Hj].
  pose proof (Hids i q Hi). pose proof (Hids j r Hj).
  assert (i = j) as -> by lia. congruence.
Qed.

Lemma branches_NoDup st : ids_are_positions st -> NoDup (branches st).
Proof.
  intros [_ Hids]. apply NoDup_alt. intros i j b Hi Hj.
  pose proof (Hids i b Hi). pose proof (Hids j b Hj). lia.
Qed.

Lemma terminal_ids_NoDup st :
  ids_are_positions st -> NoDup (map Branch.id (terminal_branches st)).
Proof.
  intros Hids. apply NoDup_fmap_2_strong.
  - intros q r Hq Hr Hid. unfold terminal_branches in Hq, Hr.
    apply list_elem_of_filter in Hq as [_ Hq].
    apply list_elem_of_filter in Hr as [_ Hr].
    eapply same_id_same_branch; eassumption.
  - unfold terminal_branches. apply NoDup_filter, branches_NoDup, Hids.
Qed.

Lemma children_of_count p d th col (q : Branch.t) ps : forall nid r,
  NoDup (map Branch.id ps) ->
  length (children_in (children_of p d th col ps nid r) q) =
  if decide (Branch.id q ∈ map Branch.id ps) then 2%nat else 0%nat.
Proof.
  unfold children_in.
  induction ps as [|parent ps IH]; intros nid r Hnd.
  - cbn. destruct (decide _) as [Hin|_]; [inversion Hin | reflexivity].
  - cbn [map] in Hnd. apply NoDup_cons in Hnd as [Hnotin Hnd].
    cbn [children_of]. destruct (decide (Branch.id parent = Branch.id q)) as [He|Hne].
    + rewrite !filter_cons_True by (cbn [child_of Branch.parent_id]; congruence).
      cbn [length]. rewrite (IH _ _ Hnd).
      destruct (decide (Branch.id q ∈ map Branch.id ps)) as [Hin|_];
        [rewrite <- He in Hin; contradiction|].
      destruct (decide (Branch.id q ∈ map Branch.id (parent :: ps))) as [_|Hout];
        [reflexivity|].
      exfalso. apply Hout. cbn [map]. rewrite He. left.
    + rewrite !filter_cons_False by (cbn [child_of Branch.parent_id]; congruence).
      rewrite (IH _ _ Hnd).
      destruct (decide (Branch.id q ∈ map Branch.id ps)) as [Hin|Hout];
        destruct (decide (Branch.id q ∈ map Branch.id (parent :: ps)))
          as [Hin'|Hout']; try reflexivity; exfalso.
      * apply Hout'. cbn [map]. right. exact Hin.
      * cbn [map] in Hin'. apply elem_of_cons in Hin' as [Heq|Hin'];
          [congruence | contradiction].
Qed.

Lemma parent_ids_below st b (pid : Z) :
  tree_invariant st -> b ∈ branches st -> Branch.parent_id b = Some pid ->
  0 <= pid < Z.of_nat (length (branches st)).
Proof.
  intros (_ & _ & Hshape) Hb Hpid.
  apply list_elem_of_lookup in Hb as [i Hi].
  destruct (Hshape i b Hi) as [[_ [_ Hnone]]|(_ & _ & j & q & Hp & Hq & _)];
    [congruence|].
  pose proof (lookup_lt_Some _ _ _ Hq). rewrite Hp in Hpid.
  injection Hpid as <-. lia.
Qed.

Lemma binary_grown p st th col :
  grown_invariant p st -> tree_invariant st -> binary st ->
  branches st <> [] -> binary (grown st th col).
Proof.
  intros (_ & Hd & Hfull & Hids & _) Htree Hbin Hne q Hq.
  destruct Hfull as [[He _]|(_ & _ & _ & Hdepths)]; [congruence|].
  unfold children_in.
  cbn [grown branches current_depth] in Hq |- *.
  rewrite filter_app, length_app.
  fold (children_in (branches st) q).
  fold (children_in (children_of (params st) (current_depth st) th col
                       (terminal_branches st) (next_id st) (random_state st)) q).
  rewrite (children_of_count _ _ _ _ q _ _ _ (terminal_ids_NoDup st Hids)).
  apply elem_of_app in Hq as [Hq|Hq].
  - rewrite (Hbin q Hq). pose proof (Hdepths q Hq) as Hdq.
    destruct (decide (Branch.depth q < current_depth st)) as [Hlt|Hge].
    + destruct (decide (Branch.id q ∈ map Branch.id (terminal_branches st)))
        as [Hin|_].
      * exfalso. apply list_elem_of_fmap in Hin as (r & Hid & Hr).
        pose proof Hr as Hr'. unfold terminal_branches in Hr'.
        apply list_elem_of_filter in Hr' as [Hdr Hr'].
        rewrite (same_id_same_branch st q r Hids Hq Hr' Hid) in Hlt. lia.
      * destruct (decide (Branch.depth q < current_depth st + 1)); [reflexivity|lia].
    + destruct (decide (Branch.id q ∈ map Branch.id (terminal_branches st)))
        as [_|Hout].
      * destruct (decide (Branch.depth q < current_depth st + 1)); [reflexivity|lia].
      * exfalso. apply Hout. apply list_elem_of_fmap. exists q.
        split; [reflexivity|]. unfold terminal_branches.
        apply list_elem_of_filter. split; [lia | exact Hq].
  - pose proof Hq as Hdq. apply children_of_depth in Hdq.
    destruct (decide (Branch.depth q < current_depth st + 1)); [lia|].
    apply list_elem_of_lookup in Hq as [m Hm].
    apply children_of_lookup_inv in Hm as (parent & off & u & u' & _ & Hqeq).
    assert (Hidq : Z.of_nat (length (branches st)) <= Branch.id q).
    { rewrite Hqeq. cbn [child_of Branch.id]. destruct Hids as [Hnext _]. lia. }
    unfold children_in. rewrite (filter_none _ (branches st)).
    2:{ intros b Hb Hpar.
        pose proof (parent_ids_below st b _ Htree Hb Hpar). lia. }
    destruct (decide (Branch.id q ∈ map Branch.id (terminal_branches st)))
      as [Hin|_]; [|reflexivity].
    exfalso. apply list_elem_of_fmap in Hin as (r & Hid & Hr).
    unfold terminal_branches in Hr. apply list_elem_of_filter in Hr as [_ Hr].
    apply list_elem_of_lookup in Hr as [j Hj].
    pose proof (lookup_lt_Some _ _ _ Hj). destruct Hids as [_ Hpos].
    pose proof (Hpos j r Hj). lia.
Qed.

Lemma binary_calls p os :
  (grown_invariant p (calls os (new_tree p))
   /\ tree_invariant (calls os (new_tree p)))
  /\ binary (calls os (new_tree p)).
Proof.
  apply (calls_keep math_radians math_cos math_sin random_random
           (fun s => (grown_invariant p s /\ tree_invariant s) /\ binary s)).
  - intros s [[Hinv Htree] Hbin].
    split; [split; [apply grown_invariant_advanced, Hinv
                   | apply tree_invariant_advanced, Htree]|].
    exact Hbin.
  - intros s th col [[Hinv Htree] Hbin] Hne Hlt Hgen.
    split; [split; [apply grown_invariant_grown; assumption
                   | apply tree_invariant_grown, Htree]|].
    apply (binary_grown p); assumption.
  - intros s x y [[Hinv _] _].
    split; [split; [apply grown_invariant_plant, Hinv
                   | apply tree_invariant_plant]|].
    rewrite plant_trunk_state. intros q Hq. cbn [state_of branches] in Hq |- *.
    apply list_elem_of_singleton in Hq as ->.
    cbn [current_depth Branch.depth]. unfold children_in.
    rewrite filter_cons_False by (cbn [Branch.parent_id]; discriminate).
    reflexivity.
  - intros s [[Hinv _] _].
    split; [split; [apply grown_invariant_reset, Hinv
                   | apply tree_invariant_reset]|].
    intros q Hq. inversion Hq.
  - split; [split; [apply grown_invariant_new; lia | apply tree_invariant_new]|].
    intros q Hq. inversion Hq.
Qed.

(** X20: the tree is binary.  After any sequence of calls on a new object
    every branch above the level of the depth counter is the parent of
    exactly two branches of the list, and a branch at that level of none. *)
Theorem two_children_each (p : Params) (os : list op) :
  binary (calls os (new_tree p)).
Proof. apply (binary_calls p os). Qed.

End Binary.

(** ** Examples *)

Example default_colours :
  map (get_branch_color default_params) [0; 1; 3; 4; 7; 8; 9] =
  [Ok "#7c2d12"; Ok "#197d3e"; Ok "#1fad53"; Ok "#22c55e"; Ok "#c0a71f";
   Ok "#f59e0b"; Ok "#f59e0b"]%string.
Proof. vm_compute. reflexivity. Qed.

Example gold_colours :
  map (get_branch_color gold_params) [0; 1; 7; 8] =
  [Ok "#8B4513"; Ok "#ffd700"; Ok "#ffd700"; Ok "#FFD700"]%string.
Proof. vm_compute. reflexivity. Qed.

Example empty_palette_raises :
  get_branch_color
    {| trunk_color := "#7c2d12"; leaf_colors := [];
       base_length := Qc_of_Z 180; angle_variation := Qc_of_Z 35;
       length_factor := qc 65 100; max_depth := 8;
       trunk_thickness := Qc_of_Z 20; thickness_factor := qc 75 100;
       randomness := 0%Qc; upward_angle := true |} 1 = Raise IndexError.
Proof. vm_compute. reflexivity. Qed.

Example format_02x_examples :
  map format_02x [0; 15; 16; 255; 256; -1] =
  ["00"; "0f"; "10"; "ff"; "100"; "-1"]%string.
Proof. vm_compute. reflexivity. Qed.

Example default_thickness :
  match calculate_thickness default_params 1,
        calculate_thickness default_params 12 with
  | Ok t1, Ok t12 => ((t1 : Q), (t12 : Q)) = (inject_Z 15, inject_Z 1)
  | _, _ => False
  end.
Proof. vm_compute. reflexivity. Qed.

(** The scenario of the specification: trunk from (600, 700) to (600, 520)
    at angle 270; after one level two children at angles 235 and 305, of
    length 117, at depth 1, starting at (600, 520). *)
Example scenario :
  map (fun b => (Branch.id b, Branch.parent_id b, Branch.depth b,
                 (Branch.angle b : Q), (Branch.length b : Q),
                 ((Branch.start b).1 : Q), ((Branch.start b).2 : Q)))
      (branches (grown_once steady_params)) =
  [(0, None, 0, inject_Z 270, inject_Z 180, inject_Z 600, inject_Z 700);
   (1, Some 0, 1, inject_Z 235, inject_Z 117, inject_Z 600, inject_Z 520);
   (2, Some 0, 1, inject_Z 305, inject_Z 117, inject_Z 600, inject_Z 520)].
Proof. vm_compute. reflexivity. Qed.

Lemma default_params_valid : valid_palette default_params.
Proof.
  split; [discriminate|]. intros c Hc. cbn [leaf_colors default_params] in Hc.
  repeat (apply elem_of_cons in Hc as [->|Hc];
          [eexists; vm_compute; reflexivity|]).
  inversion Hc.
Qed.

(** The colours of the palette of [example_2] down a tree of maximum depth
    12, trunk first, in double precision. *)
Example example_2_colours :
  map (Double.get_branch_color example_2_params)
    [0; 1; 2; 3; 4; 5; 6; 7; 8; 9; 10; 11; 12; 13] =
  map Ok ["#5C4033"; "#30915b"; "#32985f"; "#359f64"; "#37a568"; "#39ac6c";
          "#3cb371"; "#5cb05e"; "#7cae4b"; "#9dac38"; "#bea925"; "#dea712";
          "#FFA500"; "#FFA500"]%string.
Proof. vm_compute. reflexivity. Qed.

(** At depth 8 the red channel is [60 + 195 * fraction] with a fraction
    just below a third: the double below 125 is truncated to 124, where
    the value without rounding is 125. *)
Example rounding_shows_at_depth_8 :
  Double.get_branch_color example_2_params 8 = Ok "#7cae4b"%string
  /\ get_branch_color example_2_params 8 = Ok "#7dae4b"%string.
Proof. split; vm_compute; reflexivity. Qed.

(** With the default palette the two readings give the same colours. *)
Example default_colours_double :
  map (Double.get_branch_color default_params) [0; 1; 2; 3; 4; 5; 6; 7; 8; 9]
  = map (get_branch_color default_params) [0; 1; 2; 3; 4; 5; 6; 7; 8; 9].
Proof. vm_compute. reflexivity. Qed.

(** ** The theorems at concrete inputs *)

Lemma grow_one_level_geometry_witness :
  exists new_branches,
    branches (grown_once default_params)
    = branches (planted default_params) ++ new_branches
    /\ length new_branches = 2%nat.
Proof.
  destruct (grow_one_level_geometry same same same samples_quarters
              (planted default_params) (grown_once default_params))
    as (new_branches & Happ & Hlen & _).
  - vm_compute. reflexivity.
  - exists new_branches. split; [exact Happ | exact Hlen].
Defined.

Lemma grown_tree_size_witness :
  exists st',
    (plant_trunk (Qc_of_Z 600) (Qc_of_Z 700) ;;
     grow_times same same same samples_quarters 8) (new_tree default_params)
    = Returned (replicate 8 Done) st'
    /\ current_depth st' = 8
    /\ Z.of_nat (length (branches st')) = 511.
Proof.
  destruct (grown_tree_size same same same samples_quarters 8
              (Qc_of_Z 600) (Qc_of_Z 700) (new_tree default_params))
    as (st' & Hrun & Hdepth & Hlen & _).
  - exact default_params_valid.
  - reflexivity.
  - exists st'. split; [exact Hrun|]. split; [exact Hdepth | exact Hlen].
Defined.

Lemma example_2_params_valid : valid_palette example_2_params.
Proof.
  split; [discriminate|]. intros c Hc. cbn [leaf_colors example_2_params] in Hc.
  repeat (apply elem_of_cons in Hc as [->|Hc];
          [eexists; vm_compute; reflexivity|]).
  inversion Hc.
Qed.

Lemma get_branch_color_double_witness :
  Double.get_branch_color example_2_params 8 = Ok "#7cae4b"%string.
Proof.
  destruct (get_branch_color_double example_2_params 8) as (_ & _ & Hbetween).
  - exact example_2_params_valid.
  - discriminate.
  - reflexivity.
  - discriminate.
  - destruct Hbetween
      as (c1 & c2 & r1 & g1 & b1 & r2 & g2 & b2
          & _ & _ & Hc1 & Hc2 & Hrgb1 & Hrgb2 & _ & _ & Hget & _).
    { split; reflexivity. }
    vm_compute in Hc1, Hc2. injection Hc1 as <-. injection Hc2 as <-.
    vm_compute in Hrgb1, Hrgb2.
    injection Hrgb1 as <- <- <-. injection Hrgb2 as <- <- <-.
    rewrite Hget. vm_compute. reflexivity.
Defined.

Lemma calculate_thickness_spec_witness :
  exists t1 t2 : Qc,
    calculate_thickness default_params 1 = Ok t1
    /\ calculate_thickness default_params 3 = Ok t2
    /\ (1 <= t2)%Qc /\ (t2 <= t1)%Qc.
Proof.
  destruct (calculate_thickness_spec default_params 1 3)
    as (t1 & t2 & H1 & H2 & _ & _ & _ & Hleast & Hmono).
  - lia.
  - exists t1, t2. repeat split; try assumption.
    apply Hmono. repeat split; reflexivity.
Defined.

Lemma tree_shape_witness :
  length
    (filter is_trunk
       (branches
          (calls same same same samples_quarters
             [PlantTrunk (Qc_of_Z 600) (Qc_of_Z 700); GrowOneLevel]
             (new_tree default_params)))) = 1%nat.
Proof.
  destruct (tree_shape same same same samples_quarters default_params
              [PlantTrunk (Qc_of_Z 600) (Qc_of_Z 700); GrowOneLevel])
    as (Hone & _ & _).
  - vm_compute. discriminate.
  - exact Hone.
Defined.

Lemma deterministic_without_randomness_witness :
  branches (calls same same same samples_half
              [PlantTrunk (Qc_of_Z 600) (Qc_of_Z 700); GrowOneLevel;
               GrowFullTree] (new_tree steady_params))
  = branches (calls same same same samples_quarters
                [PlantTrunk (Qc_of_Z 600) (Qc_of_Z 700); GrowOneLevel;
                 GrowFullTree] (new_tree steady_params)).
Proof.
  apply (deterministic_without_randomness same same same samples_half
           samples_quarters steady_params). reflexivity.
Defined.

Lemma single_colour_palette_witness :
  exists s,
    get_branch_color gold_params 3 = Ok s /\ channels s = Ok (255, 215, 0).
Proof.
  destruct (single_colour_palette gold_params "#FFD700" 255 215 0 3)
    as (_ & H).
  - reflexivity.
  - vm_compute. reflexivity.
  - destruct (H ltac:(lia)) as (s & Hs & Hch & _). exists s. split; assumption.
Defined.

(** ** More examples *)

Example click_three_times :
  let st := clicks same same same samples_quarters [(600, 700); (5, 5); (9, 9)]
              (new_tree steady_params) in
  (click_count st, current_depth st, length (branches st), next_id st)
  = (3, 2, 7%nat, 7).
Proof. vm_compute. reflexivity. Qed.

Example save_rgb_examples :
  map save_rgb ["#ff8000"; "##ff8000"; "ff8000"; "#FFD700"; "green"; "#f"]%string
  = [Ok (255, 128, 0); Ok (255, 128, 0); Ok (255, 128, 0); Ok (255, 215, 0);
     Raise ValueError; Raise ValueError].
Proof. vm_compute. reflexivity. Qed.

Example channels_without_hash :
  (channels "ff8000", save_rgb "ff8000")
  = (Ok (248, 0, 0), Ok (255, 128, 0)).
Proof. vm_compute. reflexivity. Qed.

Example save_lines_of_trunk :
  match save_lines example_trunk with
  | Ok lines =>
      map (fun l => ((draw_from l).1 : Q)) lines
      = map inject_Z [590; 591; 592; 593; 594; 595; 596; 597; 598; 599;
                      600; 601; 602; 603; 604; 605; 606; 607; 608; 609]
  | Raise _ => False
  end.
Proof. vm_compute. reflexivity. Qed.

Lemma samples_half_range n :
  (0 <= samples_half n)%Qc /\ (samples_half n <= 1)%Qc.
Proof. split; discriminate. Qed.

Lemma grey_range h s v :
  (0 <= s)%Qc -> (s <= 1)%Qc -> (0 <= v)%Qc -> (v <= 1)%Qc ->
  let '(r, g, b) := grey h s v in
  ((0 <= r)%Qc /\ (r <= 1)%Qc) /\ ((0 <= g)%Qc /\ (g <= 1)%Qc)
  /\ ((0 <= b)%Qc /\ (b <= 1)%Qc).
Proof. intros _ _ Hv0 Hv1. cbn. auto. Qed.

Lemma example_trunk_planted :
  example_trunk
  ∈ branches (calls same same same samples_half
                [PlantTrunk (Qc_of_Z 600) (Qc_of_Z 700)]
                (new_tree default_params)).
Proof. vm_compute. left. Qed.

(** ** The further theorems at concrete inputs *)

Lemma attributes_follow_depth_witness :
  attributes_by_depth default_params example_trunk.
Proof.
  apply (attributes_follow_depth same same same samples_half default_params
           [PlantTrunk (Qc_of_Z 600) (Qc_of_Z 700)] example_trunk).
  vm_compute. left.
Defined.

Lemma grow_full_tree_is_repeated_growth_witness :
  exists st',
    grow_full_tree same same same samples_quarters (planted shallow_params)
    = Returned Done st'
    /\ grow_times same same same samples_quarters 2 (planted shallow_params)
       = Returned [Done; Done] st'.
Proof.
  destruct (grow_full_tree_is_repeated_growth same same same samples_quarters
              (planted shallow_params))
    as (st' & Hfull & Htimes & _).
  - exact default_params_valid.
  - vm_compute. discriminate.
  - vm_compute. discriminate.
  - exists st'. split; [exact Hfull | exact Htimes].
Defined.

Lemma grow_full_tree_idempotent_witness :
  grow_full_tree same same same samples_quarters
    (state_of (grow_full_tree same same same samples_quarters
                 (planted shallow_params)))
  = Returned Done
      (state_of (grow_full_tree same same same samples_quarters
                   (planted shallow_params))).
Proof.
  apply (grow_full_tree_idempotent same same same samples_quarters
           (planted shallow_params)).
  vm_compute. reflexivity.
Defined.

Lemma growth_only_appends_witness :
  exists new_branches,
    branches (call same same same samples_quarters GrowOneLevel
                (planted default_params))
    = branches (planted default_params) ++ new_branches.
Proof.
  destruct (growth_only_appends same same same samples_quarters
              (planted default_params) GrowOneLevel) as (Happ & _).
  - left. reflexivity.
  - exact Happ.
Defined.

Lemma interpolate_color_between_witness :
  exists r g b,
    interpolate_color "#166534" "#22c55e" (qc 1 4) = Ok (hex_string r g b)
    /\ channels (hex_string r g b) = Ok (r, g, b)
    /\ 22 <= r <= 34.
Proof.
  destruct (interpolate_color_between "#166534" "#22c55e" 22 101 52 34 197 94
              (qc 1 4))
    as (r & g & b & Hrun & Hback & Hr & _).
  - vm_compute. reflexivity.
  - vm_compute. reflexivity.
  - discriminate.
  - discriminate.
  - exists r, g, b. split; [exact Hrun|]. split; [exact Hback | exact Hr].
Defined.

Lemma empty_palette_stays_at_trunk_witness :
  at_most_trunk
    (calls same same same samples_half
       [PlantTrunk (Qc_of_Z 600) (Qc_of_Z 700); GrowOneLevel; GrowFullTree]
       (new_tree bare_params)).
Proof.
  apply (empty_palette_stays_at_trunk same same same samples_half bare_params).
  reflexivity.
Defined.

Lemma drawn_width_follows_rule_witness :
  calculate_thickness default_params (Branch.depth example_trunk)
  = Ok (line_width (draw_branch true example_trunk)).
Proof.
  apply (drawn_width_follows_rule same same same samples_half default_params
           [PlantTrunk (Qc_of_Z 600) (Qc_of_Z 700)] true example_trunk).
  vm_compute. left.
Defined.

Lemma clicks_plant_then_grow_witness :
  current_depth
    (clicks same same same samples_quarters [(600, 700); (5, 5); (9, 9)]
       (new_tree shallow_params)) = 2.
Proof.
  destruct (clicks_plant_then_grow same same same samples_quarters
              shallow_params 600 700 [(5, 5); (9, 9)])
    as (_ & Hdepth & _).
  - exact default_params_valid.
  - discriminate.
  - exact Hdepth.
Defined.

Lemma save_rgb_agrees_witness :
  save_rgb "#ff8000" = channels "#ff8000".
Proof.
  destruct (save_rgb_agrees "f" "f8000" 255 128 0) as [Hagree _].
  - reflexivity.
  - exact Hagree.
Defined.

Lemma randomize_colors_valid_witness :
  exists st',
    randomize_colors samples_half grey (planted default_params)
    = Returned tt st'
    /\ valid_palette (params st')
    /\ branches st' = branches (planted default_params).
Proof.
  destruct (randomize_colors_valid samples_half grey samples_half_range
              grey_range (planted default_params))
    as (st' & Hrun & Hvalid & _ & _ & _ & Hbranches & _).
  exists st'. split; [exact Hrun|]. split; [exact Hvalid | exact Hbranches].
Defined.

Lemma stored_geometry_consistent_witness :
  stored_geometry same same same default_params example_trunk.
Proof.
  apply (stored_geometry_consistent same same same samples_half default_params
           [PlantTrunk (Qc_of_Z 600) (Qc_of_Z 700)] example_trunk).
  vm_compute. left.
Defined.

Lemma child_lengths_between_samples_witness :
  children_related (length_between_samples default_params)
    (calls same same same samples_half
       [PlantTrunk (Qc_of_Z 600) (Qc_of_Z 700); GrowOneLevel]
       (new_tree default_params)).
Proof.
  destruct (child_lengths_between_samples same same same samples_half
              samples_half_range default_params
              [PlantTrunk (Qc_of_Z 600) (Qc_of_Z 700); GrowOneLevel])
    as [_ Hrelated].
  - discriminate.
  - discriminate.
  - discriminate.
  - discriminate.
  - exact Hrelated.
Defined.

Lemma child_angles_between_samples_witness :
  children_related (angle_between_samples default_params)
    (calls same same same samples_half
       [PlantTrunk (Qc_of_Z 600) (Qc_of_Z 700); GrowOneLevel]
       (new_tree default_params)).
Proof.
  apply (child_angles_between_samples same same same samples_half
           samples_half_range default_params).
Defined.
